(** * Deferred pointer-event queue of [BaseCameraPointersInput]

    A shallow embedding of the ring buffer [_EventRingBuffer] and of the
    capture / drain protocol of [BaseCameraPointersInput]
    (Cameras/Inputs/BaseCameraPointersInput.ts), followed by the properties
    the specification states about them.

    Conventions of the embedding.
    - A JavaScript [number] that holds a coordinate, an offset or a squared
      distance is an IEEE 754 binary64 value ([number]): additions,
      subtractions, multiplications and divisions round to nearest, ties to
      even, and [NaN], the infinities and the two zeros are values.  Cursors
      and lengths of the ring buffer only ever count up from zero and are
      natural numbers; pointer ids and button numbers are integers.
    - An object that is shared and mutated in place (the tracked contact
      points, the pan position literals) lives in a heap and is named by a
      reference; a slot of a ring buffer is named by its index in the
      backing array, which is how [pushed] aliases the array.
    - Handler calls, observer notifications and DOM calls are appended to a
      log, in the order the code performs them.
    - [DEBUG] is the constant [false]: the statements it guards (console
      dumps and [label] bookkeeping) are never executed and are left out. *)

From Stdlib Require Import ZArith SpecFloat.
From stdpp Require Import base tactics option list numbers strings.

Local Open Scope nat_scope.


(* ===================================================================== *)
(** * Part I: the program                                                 *)
(* ===================================================================== *)

(** ** Exceptions

    The only exception the modelled code can raise by itself is the
    [TypeError] of reading a property of [undefined]. *)

Inductive Result (A : Type) : Type :=
  | Ok (a : A)
  | TypeError.
Arguments Ok {A} a.
Arguments TypeError {A}.

#[global] Instance Result_bind : MBind Result := λ A B k r,
  match r with
  | Ok a => k a
  | TypeError => TypeError
  end.

(** [<T>{}]: the object a ring buffer allocates for a new slot.  Every field
    of a slot is assigned by the caller before the slot is read. *)
Class Blank (T : Type) := blank : T.

(** ** [_EventRingBuffer<T>] *)

Module _EventRingBuffer.

(** What the public field [pushed] refers to: nothing yet (the field is
    declared without initialiser), a slot of the backing array, or the
    free-standing object [clear()] installs. *)
Inductive Pushed (T : Type) : Type :=
  | Undefined
  | Slot (i : nat)
  | Detached (v : T).
Arguments Undefined {T}.
Arguments Slot {T} i.
Arguments Detached {T} v.

Record t (T : Type) : Type := Build {
  _head : nat;
  _tail : nat;
  _length : nat;
  _container : list T;
  pushed : Pushed T;
  label : string
}.
Arguments Build {T}.
Arguments _head {T}.
Arguments _tail {T}.
Arguments _length {T}.
Arguments _container {T}.
Arguments pushed {T}.
Arguments label {T}.

Definition _maxSize : nat := 50.

Section Methods.
Context {T : Type} `{Blank T}.

Definition new (label : string) : t T :=
  Build 0 0 0 [] Undefined label.

(** Wrap pointers back to start of internal buffer on overflow. *)
Definition _wrapPointers (rb : t T) : t T :=
  let head :=
    if length (_container rb) <=? _head rb then 0 else _head rb in
  let tail :=
    if length (_container rb) <=? _tail rb then 0 else _tail rb in
  Build head tail (_length rb) (_container rb) (pushed rb) (label rb).

(** Returns the oldest valid data in the buffer ([None] is
    [undefined]). *)
Definition pop (rb : t T) : option T * t T :=
  if _length rb <=? 0 then (None, rb)
  else
    let rb := _wrapPointers rb in
    let retVal := _container rb !! _tail rb in
    (retVal,
     Build (_head rb) (_tail rb + 1) (_length rb - 1)
           (_container rb) (pushed rb) (label rb)).

(** Advances the pointers to the next free slot; [pushed] then refers to
    that slot. *)
Definition push (rb : t T) : t T :=
  let rb := if _maxSize <=? _length rb then (pop rb).2 else rb in
  let rb := _wrapPointers rb in
  if (_head rb =? _tail rb)
     && ((0 <? _length rb) || (length (_container rb) =? 0))
  then
    (* Buffer currently full: splice a new object in at [_head]. *)
    Build (_head rb + 1) (_tail rb + 1) (_length rb + 1)
          (take (_head rb) (_container rb)
             ++ blank :: drop (_head rb) (_container rb))
          (Slot (_head rb)) (label rb)
  else
    Build (_head rb + 1) (_tail rb) (_length rb + 1)
          (_container rb)
          (if _head rb <? length (_container rb)
           then Slot (_head rb) else Undefined)
          (label rb).

Definition clear (rb : t T) : t T :=
  Build 0 0 0 [] (Detached blank) (label rb).

(** [rb.pushed]: reading through the reference. *)
Definition get_pushed (rb : t T) : Result T :=
  match pushed rb with
  | Undefined => TypeError
  | Slot i =>
      match _container rb !! i with
      | Some v => Ok v
      | None => TypeError
      end
  | Detached v => Ok v
  end.

(** [rb.pushed.f = ...]: assigning fields of the object [pushed] refers
    to; [upd] is the effect of the assignments on that object. *)
Definition set_pushed (upd : T → T) (rb : t T) : Result (t T) :=
  match pushed rb with
  | Undefined => TypeError
  | Slot i =>
      Ok (Build (_head rb) (_tail rb) (_length rb)
                (alter upd i (_container rb)) (pushed rb) (label rb))
  | Detached v =>
      Ok (Build (_head rb) (_tail rb) (_length rb)
                (_container rb) (Detached (upd v)) (label rb))
  end.

End Methods.

(** [get length()] *)
Definition length {T : Type} (rb : t T) : nat := _length rb.

End _EventRingBuffer.

Module RB := _EventRingBuffer.

(** ** Numbers

    The values of the type [number] are the binary64 floating-point numbers:
    [spec_float] with the operations of the Standard Library's specification
    of IEEE 754 arithmetic at 53 bits of precision. *)

Definition number : Type := spec_float.

Definition prec : Z := 53.
Definition emax : Z := 1024.

Module Number.
(** [x + y], [x - y], [x * y] and [x / y] *)
Definition add : number → number → number := SFadd prec emax.
Definition sub : number → number → number := SFsub prec emax.
Definition mul : number → number → number := SFmul prec emax.
Definition div : number → number → number := SFdiv prec emax.
End Number.

Declare Scope num_scope.
Delimit Scope num_scope with num.
Bind Scope num_scope with number.
Infix "+" := Number.add : num_scope.
Infix "-" := Number.sub : num_scope.
Infix "*" := Number.mul : num_scope.
Infix "/" := Number.div : num_scope.

(** The number an integer literal denotes (the nearest one, should the
    integer need more than 53 bits). *)
Definition num (z : Z) : number := binary_normalize prec emax z 0 false.
Arguments num : simpl never.

(** The number a decimal literal [n/d] denotes: the quotient, rounded
    once. *)
Definition fraction (n d : Z) : number := (num n / num d)%num.
Arguments fraction : simpl never.

(** The mantissa of the number of magnitude [c], for [c] of at most 53
    bits. *)
Definition norm (c : positive) : positive :=
  (shl_align c 0 (Z.pos (digits2_pos c) - 53)%Z).1.

(** [x | 0]: ECMAScript [ToInt32]: [NaN], the zeros and the infinities give
    0; a finite number is truncated towards zero, then wrapped into the
    signed 32-bit range. *)
Definition ToInt32 (x : number) : Z :=
  match x with
  | S754_finite s m e =>
      let t := Z.shiftl (Z.pos m) e in
      let m32 := ((if s then - t else t) `mod` 2 ^ 32)%Z in
      if (2 ^ 31 <=? m32)%Z then (m32 - 2 ^ 32)%Z else m32
  | _ => 0%Z
  end.

(** [!x]: the zeros and [NaN] are falsy. *)
Definition falsy (x : number) : bool :=
  match x with
  | S754_zero _ | S754_nan => true
  | _ => false
  end.

(** [x === 0]: true of both zeros. *)
Definition is_zero (x : number) : bool :=
  match x with
  | S754_zero _ => true
  | _ => false
  end.

(** [a || b || ... || 0] on possibly absent numbers: the first operand that
    is neither [undefined] nor falsy, else [0]. *)
Fixpoint first_truthy (l : list (option number)) : number :=
  match l with
  | [] => num 0
  | Some q :: l' => if falsy q then first_truthy l' else q
  | None :: l' => first_truthy l'
  end.

(** ** Events of the host

    Modelled from the spec: [PointerEventTypes], [PointerInfo],
    [PointerTouch] (Events/pointerEvents) and the DOM [PointerEvent] are
    imported by the source file; section 6 of the specification lists the
    fields of a notification the controller consumes. *)

Inductive PointerEventTypes : Type :=
  | POINTERDOWN
  | POINTERUP
  | POINTERMOVE
  | POINTERWHEEL
  | POINTERPICK
  | POINTERTAP
  | POINTERDOUBLETAP.

#[global] Instance PointerEventTypes_eq_dec : EqDecision PointerEventTypes.
Proof. solve_decision. Defined.

Module PointerEvent.
Record t : Type := Build {
  pointerType : string;
  pointerId : Z;
  button : Z;
  buttons : Z;
  srcElement : option string;
  target : option string;
  altKey : bool;
  ctrlKey : bool;
  metaKey : bool;
  shiftKey : bool;
  clientX : number;
  clientY : number;
  movementX : option number;
  mozMovementX : option number;
  webkitMovementX : option number;
  msMovementX : option number;
  movementY : option number;
  mozMovementY : option number;
  webkitMovementY : option number;
  msMovementY : option number
}.
End PointerEvent.

Module PointerInfo.
Record t : Type := Build {
  type : PointerEventTypes;
  event : PointerEvent.t
}.
End PointerInfo.

(** A [PointerTouch] object.  Its [type] holds the device kind of the event
    for a tracked contact, and the notification type for a pan position. *)
Module PointerTouch.
Inductive kind : Type :=
  | OfPointerType (s : string)
  | OfEventType (e : PointerEventTypes).

Record t : Type := Build {
  x : number;
  y : number;
  pointerId : Z;
  type : kind
}.

Definition set_xy (x' y' : number) (p : t) : t :=
  Build x' y' (pointerId p) (type p).
End PointerTouch.

(** A reference to a [PointerTouch] object of the heap;
    [Nullable<PointerTouch>] is [option Ref]. *)
Abbreviation Ref := nat (only parsing).

(** The engine state a notification is handled under. *)
Module Engine.
Record t : Type := Build {
  isInVRExclusivePointerMode : bool;
  isPointerLock : bool;
  _badOS : bool
}.
End Engine.

(** ** Queued events *)

(** Event triggered when pointer button depressed. *)
Module ICameraInputButtonDownEvent.
Record t : Type := Build { event : PointerEvent.t }.
End ICameraInputButtonDownEvent.

(** Event triggered when pointer button released. *)
Module ICameraInputButtonUpEvent.
Record t : Type := Build { event : PointerEvent.t }.
End ICameraInputButtonUpEvent.

(** Event triggered when 2 pointer buttons tapped. *)
Module ICameraInputDoubleTapEvent.
Record t : Type := Build { type : string }.
End ICameraInputDoubleTapEvent.

(** Event triggered when pointer dragged. *)
Module ICameraInputTouchEvent.
Record t : Type := Build {
  point : option Ref;
  offsetX : number;
  offsetY : number
}.
End ICameraInputTouchEvent.

(** Event triggered when pointer dragged with 2 buttons. *)
Module ICameraInputMultiTouchEvent.
Record t : Type := Build {
  pointA : option Ref;
  pointB : option Ref;
  previousPinchSquaredDistance : number;
  pinchSquaredDistance : number;
  previousMultiTouchPanPosition : option Ref;
  multiTouchPanPosition : option Ref
}.
End ICameraInputMultiTouchEvent.

(** Which of the five per-kind ring buffers an entry of [_allEvents] refers
    to. *)
Inductive BufferRef : Type :=
  | ButtonDownBuffer
  | ButtonUpBuffer
  | DoubleTapBuffer
  | TouchBuffer
  | MultiTouchBuffer.

#[global] Instance BufferRef_eq_dec : EqDecision BufferRef.
Proof. solve_decision. Defined.

(** A reference to one of the ring buffers containing a particular event
    type; a field that was never assigned is [None]. *)
Module IEvent.
Record t : Type := Build {
  buffer : option BufferRef;
  label : option string
}.

Definition set_buffer (b : BufferRef) (e : t) : t :=
  Build (Some b) (label e).
End IEvent.

Definition blank_PointerEvent : PointerEvent.t :=
  PointerEvent.Build "" 0 0 0 None None false false false false
    (num 0) (num 0) None None None None None None None None.

#[global] Instance Blank_ButtonDown : Blank ICameraInputButtonDownEvent.t :=
  ICameraInputButtonDownEvent.Build blank_PointerEvent.
#[global] Instance Blank_ButtonUp : Blank ICameraInputButtonUpEvent.t :=
  ICameraInputButtonUpEvent.Build blank_PointerEvent.
#[global] Instance Blank_DoubleTap : Blank ICameraInputDoubleTapEvent.t :=
  ICameraInputDoubleTapEvent.Build "".
#[global] Instance Blank_Touch : Blank ICameraInputTouchEvent.t :=
  ICameraInputTouchEvent.Build None (num 0) (num 0).
#[global] Instance Blank_MultiTouch : Blank ICameraInputMultiTouchEvent.t :=
  ICameraInputMultiTouchEvent.Build None None (num 0) (num 0) None None.
#[global] Instance Blank_IEvent : Blank IEvent.t :=
  IEvent.Build None None.

(** ** What the controller does to the outside world *)

Inductive Call : Type :=
  | onButtonDown (evt : PointerEvent.t)
  | onButtonDownObservable_notifyObservers (e : ICameraInputButtonDownEvent.t)
  | onButtonUp (evt : PointerEvent.t)
  | onButtonUpObservable_notifyObservers (e : ICameraInputButtonUpEvent.t)
  | onDoubleTap (type : string)
  | onDoubleTapObservable_notifyObservers (e : ICameraInputDoubleTapEvent.t)
  | onTouch (point : option Ref) (offsetX offsetY : number)
  | onTouchObservable_notifyObservers (e : ICameraInputTouchEvent.t)
  | onMultiTouch (pointA pointB : option Ref)
      (previousPinchSquaredDistance pinchSquaredDistance : number)
      (previousMultiTouchPanPosition multiTouchPanPosition : option Ref)
  | onMultiTouchObservable_notifyObservers (e : ICameraInputMultiTouchEvent.t)
  | onLostFocus
  | setPointerCapture (pointerId : Z)
  | releasePointerCapture (pointerId : Z)
  | preventDefault
  | focus.

(** ** [BaseCameraPointersInput] *)

Definition COALESCE : bool := true.
Definition DEFFER_CALLBACK : bool := true.

Module Controller.
Record t : Type := Build {
  _altKey : bool;
  _ctrlKey : bool;
  _metaKey : bool;
  _shiftKey : bool;
  _buttonsPressed : Z;
  buttons : list Z;
  _allEvents : RB.t IEvent.t;
  _eventsButtonDown : RB.t ICameraInputButtonDownEvent.t;
  _eventsButtonUp : RB.t ICameraInputButtonUpEvent.t;
  _eventsDoubleTap : RB.t ICameraInputDoubleTapEvent.t;
  _eventsTouch : RB.t ICameraInputTouchEvent.t;
  _eventsMultiTouch : RB.t ICameraInputMultiTouchEvent.t;
  _defferCallback : bool;
  _pointA : option Ref;
  _pointB : option Ref;
  _previousPinchSquaredDistance : number;
  _previousMultiTouchPanPosition : option Ref
}.

Definition set_keys (alt ctrl meta shift : bool) (pressed : Z) (c : t) : t :=
  Build alt ctrl meta shift pressed (buttons c)
    (_allEvents c) (_eventsButtonDown c) (_eventsButtonUp c)
    (_eventsDoubleTap c) (_eventsTouch c) (_eventsMultiTouch c)
    (_defferCallback c) (_pointA c) (_pointB c)
    (_previousPinchSquaredDistance c) (_previousMultiTouchPanPosition c).

Definition set__allEvents (b : RB.t IEvent.t) (c : t) : t :=
  Build (_altKey c) (_ctrlKey c) (_metaKey c) (_shiftKey c)
    (_buttonsPressed c) (buttons c)
    b (_eventsButtonDown c) (_eventsButtonUp c)
    (_eventsDoubleTap c) (_eventsTouch c) (_eventsMultiTouch c)
    (_defferCallback c) (_pointA c) (_pointB c)
    (_previousPinchSquaredDistance c) (_previousMultiTouchPanPosition c).

Definition set__eventsButtonDown
    (b : RB.t ICameraInputButtonDownEvent.t) (c : t) : t :=
  Build (_altKey c) (_ctrlKey c) (_metaKey c) (_shiftKey c)
    (_buttonsPressed c) (buttons c)
    (_allEvents c) b (_eventsButtonUp c)
    (_eventsDoubleTap c) (_eventsTouch c) (_eventsMultiTouch c)
    (_defferCallback c) (_pointA c) (_pointB c)
    (_previousPinchSquaredDistance c) (_previousMultiTouchPanPosition c).

Definition set__eventsButtonUp
    (b : RB.t ICameraInputButtonUpEvent.t) (c : t) : t :=
  Build (_altKey c) (_ctrlKey c) (_metaKey c) (_shiftKey c)
    (_buttonsPressed c) (buttons c)
    (_allEvents c) (_eventsButtonDown c) b
    (_eventsDoubleTap c) (_eventsTouch c) (_eventsMultiTouch c)
    (_defferCallback c) (_pointA c) (_pointB c)
    (_previousPinchSquaredDistance c) (_previousMultiTouchPanPosition c).

Definition set__eventsDoubleTap
    (b : RB.t ICameraInputDoubleTapEvent.t) (c : t) : t :=
  Build (_altKey c) (_ctrlKey c) (_metaKey c) (_shiftKey c)
    (_buttonsPressed c) (buttons c)
    (_allEvents c) (_eventsButtonDown c) (_eventsButtonUp c)
    b (_eventsTouch c) (_eventsMultiTouch c)
    (_defferCallback c) (_pointA c) (_pointB c)
    (_previousPinchSquaredDistance c) (_previousMultiTouchPanPosition c).

Definition set__eventsTouch
    (b : RB.t ICameraInputTouchEvent.t) (c : t) : t :=
  Build (_altKey c) (_ctrlKey c) (_metaKey c) (_shiftKey c)
    (_buttonsPressed c) (buttons c)
    (_allEvents c) (_eventsButtonDown c) (_eventsButtonUp c)
    (_eventsDoubleTap c) b (_eventsMultiTouch c)
    (_defferCallback c) (_pointA c) (_pointB c)
    (_previousPinchSquaredDistance c) (_previousMultiTouchPanPosition c).

Definition set__eventsMultiTouch
    (b : RB.t ICameraInputMultiTouchEvent.t) (c : t) : t :=
  Build (_altKey c) (_ctrlKey c) (_metaKey c) (_shiftKey c)
    (_buttonsPressed c) (buttons c)
    (_allEvents c) (_eventsButtonDown c) (_eventsButtonUp c)
    (_eventsDoubleTap c) (_eventsTouch c) b
    (_defferCallback c) (_pointA c) (_pointB c)
    (_previousPinchSquaredDistance c) (_previousMultiTouchPanPosition c).

Definition set__defferCallback (d : bool) (c : t) : t :=
  Build (_altKey c) (_ctrlKey c) (_metaKey c) (_shiftKey c)
    (_buttonsPressed c) (buttons c)
    (_allEvents c) (_eventsButtonDown c) (_eventsButtonUp c)
    (_eventsDoubleTap c) (_eventsTouch c) (_eventsMultiTouch c)
    d (_pointA c) (_pointB c)
    (_previousPinchSquaredDistance c) (_previousMultiTouchPanPosition c).

Definition set_points (a b : option Ref) (c : t) : t :=
  Build (_altKey c) (_ctrlKey c) (_metaKey c) (_shiftKey c)
    (_buttonsPressed c) (buttons c)
    (_allEvents c) (_eventsButtonDown c) (_eventsButtonUp c)
    (_eventsDoubleTap c) (_eventsTouch c) (_eventsMultiTouch c)
    (_defferCallback c) a b
    (_previousPinchSquaredDistance c) (_previousMultiTouchPanPosition c).

Definition set_previous (d : number) (p : option Ref) (c : t) : t :=
  Build (_altKey c) (_ctrlKey c) (_metaKey c) (_shiftKey c)
    (_buttonsPressed c) (buttons c)
    (_allEvents c) (_eventsButtonDown c) (_eventsButtonUp c)
    (_eventsDoubleTap c) (_eventsTouch c) (_eventsMultiTouch c)
    (_defferCallback c) (_pointA c) (_pointB c) d p.

(** The object as its field initialisers and [attachControl] leave it. *)
Definition new : t :=
  Build false false false false 0 [0; 1; 2]%Z
    (RB.new "_allEvents") (RB.new "ButtonDown") (RB.new "ButtonUp")
    (RB.new "DoubleTap") (RB.new "Touch") (RB.new "MultiTouch")
    DEFFER_CALLBACK None None (num 0) None.
End Controller.

(** The variables [attachControl] declares and its closures
    [_pointerInput] and [_onLostFocus] capture. *)
Module Scope.
Record t : Type := Build {
  noPreventDefault : bool;
  element : option string;
  previousPinchSquaredDistance : number;
  previousMultiTouchPanPosition : option Ref
}.

Definition set_previous (d : number) (p : option Ref) (s : t) : t :=
  Build (noPreventDefault s) (element s) d p.
End Scope.

(** Everything a call can read or change: the controller object, the
    variables of [attachControl], the [PointerTouch] objects allocated so
    far, and the calls made to the outside so far. *)
Record World : Type := MkWorld {
  this : Controller.t;
  scope : Scope.t;
  heap : list PointerTouch.t;
  log : list Call
}.

Definition with_this (f : Controller.t → Controller.t) (w : World) : World :=
  MkWorld (f (this w)) (scope w) (heap w) (log w).

Definition with_scope (f : Scope.t → Scope.t) (w : World) : World :=
  MkWorld (this w) (f (scope w)) (heap w) (log w).

Definition emit (c : Call) (w : World) : World :=
  MkWorld (this w) (scope w) (heap w) (log w ++ [c]).

(** [{x: .., y: .., pointerId: .., type: ..}]: a new object. *)
Definition alloc (p : PointerTouch.t) (w : World) : Ref * World :=
  (length (heap w), MkWorld (this w) (scope w) (heap w ++ [p]) (log w)).

(** [r.x], [r.y], ... : reading a field of the object [r] refers to. *)
Definition deref (r : Ref) (w : World) : Result PointerTouch.t :=
  match heap w !! r with
  | Some p => Ok p
  | None => TypeError
  end.

(** [r.x = x'; r.y = y';] *)
Definition assign_xy (r : Ref) (x' y' : number) (w : World) : World :=
  MkWorld (this w) (scope w)
    (alter (PointerTouch.set_xy x' y') r (heap w)) (log w).

Definition attachControl (noPreventDefault : bool) (element : option string)
  : World :=
  MkWorld Controller.new
    (Scope.Build noPreventDefault element (num 0) None) [] [].

(** ** Capture: the [_addEvents...] methods *)

(** [this._allEvents.length > 0 && this._allEvents.pushed.buffer === b] *)
Definition last_pushed_is (b : BufferRef) (w : World) : Result bool :=
  if 0 <? RB.length (Controller._allEvents (this w)) then
    e ← RB.get_pushed (Controller._allEvents (this w));
    Ok (bool_decide (IEvent.buffer e = Some b))
  else Ok false.

(** [this._allEvents.push(); this._allEvents.pushed.buffer = b;] *)
Definition push_allEvents (b : BufferRef) (w : World) : Result World :=
  a ← RB.set_pushed (IEvent.set_buffer b)
        (RB.push (Controller._allEvents (this w)));
  Ok (with_this (Controller.set__allEvents a) w).

Definition _addEventsButtonDown (event : PointerEvent.t) (w : World)
  : Result World :=
  if negb (Controller._defferCallback (this w)) then
    Ok (emit (onButtonDown event) w)
  else
    (* Push event to _eventsButtonDown queue. *)
    b ← RB.set_pushed (λ _, ICameraInputButtonDownEvent.Build event)
          (RB.push (Controller._eventsButtonDown (this w)));
    let w := with_this (Controller.set__eventsButtonDown b) w in
    (* Push _eventsButtonDown queue to _allEvents queue. *)
    push_allEvents ButtonDownBuffer w.

Definition _addEventsButtonUp (event : PointerEvent.t) (w : World)
  : Result World :=
  if negb (Controller._defferCallback (this w)) then
    Ok (emit (onButtonUp event) w)
  else
    b ← RB.set_pushed (λ _, ICameraInputButtonUpEvent.Build event)
          (RB.push (Controller._eventsButtonUp (this w)));
    let w := with_this (Controller.set__eventsButtonUp b) w in
    push_allEvents ButtonUpBuffer w.

Definition _addEventsDoubleTap (eventType : string) (w : World)
  : Result World :=
  if negb (Controller._defferCallback (this w)) then
    Ok (emit (onDoubleTap eventType) w)
  else
    b ← RB.set_pushed (λ _, ICameraInputDoubleTapEvent.Build eventType)
          (RB.push (Controller._eventsDoubleTap (this w)));
    let w := with_this (Controller.set__eventsDoubleTap b) w in
    push_allEvents DoubleTapBuffer w.

Definition _addEventsTouch (point : option Ref) (offsetX offsetY : number)
    (w : World) : Result World :=
  if negb (Controller._defferCallback (this w)) then
    Ok (emit (onTouch point offsetX offsetY) w)
  else
    same ← (if COALESCE then last_pushed_is TouchBuffer w else Ok false);
    if (same : bool) then
      (* Same event type as last frame;
         update the last pushed event in the buffer. *)
      b ← RB.set_pushed
            (λ e, ICameraInputTouchEvent.Build point
                    (ICameraInputTouchEvent.offsetX e + offsetX)%num
                    (ICameraInputTouchEvent.offsetY e + offsetY)%num)
            (Controller._eventsTouch (this w));
      Ok (with_this (Controller.set__eventsTouch b) w)
    else
      (* Push event to _eventsTouch queue and update the new (recycled
         actually) event in the buffer. *)
      b ← RB.set_pushed
            (λ _, ICameraInputTouchEvent.Build point offsetX offsetY)
            (RB.push (Controller._eventsTouch (this w)));
      let w := with_this (Controller.set__eventsTouch b) w in
      push_allEvents TouchBuffer w.

Definition _addEventsMultiTouch (pointA pointB : option Ref)
    (previousPinchSquaredDistance pinchSquaredDistance : number)
    (previousMultiTouchPanPosition multiTouchPanPosition : option Ref)
    (w : World) : Result World :=
  if negb (Controller._defferCallback (this w)) then
    Ok (emit (onMultiTouch pointA pointB
                previousPinchSquaredDistance pinchSquaredDistance
                previousMultiTouchPanPosition multiTouchPanPosition) w)
  else
    same ← (if COALESCE then last_pushed_is MultiTouchBuffer w else Ok false);
    if (same : bool) then
      b ← RB.set_pushed
            (λ e, ICameraInputMultiTouchEvent.Build pointA pointB
                    (ICameraInputMultiTouchEvent.previousPinchSquaredDistance e)
                    (ICameraInputMultiTouchEvent.pinchSquaredDistance e
                       + pinchSquaredDistance)%num
                    (ICameraInputMultiTouchEvent.previousMultiTouchPanPosition e)
                    multiTouchPanPosition)
            (Controller._eventsMultiTouch (this w));
      Ok (with_this (Controller.set__eventsMultiTouch b) w)
    else
      b ← RB.set_pushed
            (λ _, ICameraInputMultiTouchEvent.Build pointA pointB
                    (Controller._previousPinchSquaredDistance (this w))
                    pinchSquaredDistance
                    (Controller._previousMultiTouchPanPosition (this w))
                    multiTouchPanPosition)
            (RB.push (Controller._eventsMultiTouch (this w)));
      let w := with_this (Controller.set__eventsMultiTouch b) w in
      push_allEvents MultiTouchBuffer w.

(** ** Drain: [checkInputs]

    One turn of the [while (this._allEvents.length > 0)] loop per unit of
    fuel; [None] means the fuel ran out before the loop ended.  The
    [console.assert] calls only print. *)

Definition dispatch_ButtonDown (e : ICameraInputButtonDownEvent.t) (w : World)
  : World :=
  emit (onButtonDownObservable_notifyObservers e)
    (emit (onButtonDown (ICameraInputButtonDownEvent.event e)) w).

Definition dispatch_ButtonUp (e : ICameraInputButtonUpEvent.t) (w : World)
  : World :=
  emit (onButtonUpObservable_notifyObservers e)
    (emit (onButtonUp (ICameraInputButtonUpEvent.event e)) w).

Definition dispatch_DoubleTap (e : ICameraInputDoubleTapEvent.t) (w : World)
  : World :=
  emit (onDoubleTapObservable_notifyObservers e)
    (emit (onDoubleTap (ICameraInputDoubleTapEvent.type e)) w).

Definition dispatch_Touch (e : ICameraInputTouchEvent.t) (w : World)
  : World :=
  emit (onTouchObservable_notifyObservers e)
    (emit (onTouch (ICameraInputTouchEvent.point e)
             (ICameraInputTouchEvent.offsetX e)
             (ICameraInputTouchEvent.offsetY e)) w).

Definition dispatch_MultiTouch (e : ICameraInputMultiTouchEvent.t) (w : World)
  : World :=
  let w :=
    emit (onMultiTouch
            (ICameraInputMultiTouchEvent.pointA e)
            (ICameraInputMultiTouchEvent.pointB e)
            (ICameraInputMultiTouchEvent.previousPinchSquaredDistance e)
            (ICameraInputMultiTouchEvent.pinchSquaredDistance e)
            (ICameraInputMultiTouchEvent.previousMultiTouchPanPosition e)
            (ICameraInputMultiTouchEvent.multiTouchPanPosition e)) w in
  let w :=
    with_this (Controller.set_previous
                 (ICameraInputMultiTouchEvent.pinchSquaredDistance e)
                 (ICameraInputMultiTouchEvent.multiTouchPanPosition e)) w in
  emit (onMultiTouchObservable_notifyObservers e) w.

(** One turn of the loop; both [continue] statements end the turn with
    nothing dispatched. *)
Definition checkInputs_body (w : World) : Result World :=
  (* Get per-event buffer that was populated earliest. *)
  let '(eventBuffer, a) := RB.pop (Controller._allEvents (this w)) in
  let w := with_this (Controller.set__allEvents a) w in
  match eventBuffer with
  | None => Ok w
  | Some eventBuffer =>
      (* Get specific event that was populated earliest from the per-event
         buffer. *)
      match IEvent.buffer eventBuffer with
      | None => TypeError
      | Some ButtonDownBuffer =>
          let '(event, b) := RB.pop (Controller._eventsButtonDown (this w)) in
          let w := with_this (Controller.set__eventsButtonDown b) w in
          Ok (from_option (λ e, dispatch_ButtonDown e w) w event)
      | Some ButtonUpBuffer =>
          let '(event, b) := RB.pop (Controller._eventsButtonUp (this w)) in
          let w := with_this (Controller.set__eventsButtonUp b) w in
          Ok (from_option (λ e, dispatch_ButtonUp e w) w event)
      | Some DoubleTapBuffer =>
          let '(event, b) := RB.pop (Controller._eventsDoubleTap (this w)) in
          let w := with_this (Controller.set__eventsDoubleTap b) w in
          Ok (from_option (λ e, dispatch_DoubleTap e w) w event)
      | Some TouchBuffer =>
          let '(event, b) := RB.pop (Controller._eventsTouch (this w)) in
          let w := with_this (Controller.set__eventsTouch b) w in
          Ok (from_option (λ e, dispatch_Touch e w) w event)
      | Some MultiTouchBuffer =>
          let '(event, b) := RB.pop (Controller._eventsMultiTouch (this w)) in
          let w := with_this (Controller.set__eventsMultiTouch b) w in
          Ok (from_option (λ e, dispatch_MultiTouch e w) w event)
      end
  end.

Fixpoint checkInputs_loop (fuel : nat) (w : World) : option (Result World) :=
  if 0 <? RB.length (Controller._allEvents (this w)) then
    match fuel with
    | 0 => None
    | S fuel =>
        match checkInputs_body w with
        | Ok w => checkInputs_loop fuel w
        | TypeError => Some TypeError
        end
    end
  else Some (Ok w).

(** Called for each rendered frame.  Every turn of the loop pops
    [_allEvents], so its length is fuel enough. *)
Definition checkInputs (w : World) : option (Result World) :=
  checkInputs_loop (RB.length (Controller._allEvents (this w))) w.

(** ** [_pointerInput] and [_onLostFocus], the closures of [attachControl] *)

(** The argument [event = evt] of the calls of [_addEventsButtonDown] and
    [_addEventsButtonUp] also assigns [evt] to the variable [event] of the
    host (the browser's [window.event]), which the controller never reads;
    the assignment is left out. *)

(** The tracked contacts after a button was lifted. *)
Definition release_point (engine : Engine.t) (evt : PointerEvent.t)
    (w : World) : Result World :=
  let isTouch := String.eqb (PointerEvent.pointerType evt) "touch" in
  let w :=
    if negb isTouch
    then (* Mouse and pen are mono pointer *)
      with_this (Controller.set_points (Controller._pointA (this w)) None) w
    else w in
  if Engine._badOS engine then
    Ok (with_this (Controller.set_points None None) w)
  else
    (* only remove the impacted pointer in case of multitouch *)
    match Controller._pointA (this w), Controller._pointB (this w) with
    | Some a, Some b =>
        pa ← deref a w;
        if bool_decide (PointerTouch.pointerId pa = PointerEvent.pointerId evt)
        then Ok (with_this (Controller.set_points (Some b) None) w)
        else
          pb ← deref b w;
          if bool_decide
               (PointerTouch.pointerId pb = PointerEvent.pointerId evt)
          then Ok (with_this (Controller.set_points (Some a) None) w)
          else Ok (with_this (Controller.set_points None None) w)
    | _, _ => Ok (with_this (Controller.set_points None None) w)
    end.

Definition _pointerInput (engine : Engine.t) (p : PointerInfo.t) (w : World)
  : Result World :=
  let evt := PointerInfo.event p in
  if Engine.isInVRExclusivePointerMode engine then Ok w
  else if negb (bool_decide (PointerInfo.type p = POINTERMOVE))
          && negb (bool_decide
                     (PointerEvent.button evt ∈ Controller.buttons (this w)))
  then Ok w
  else
    let srcElement :=
      match PointerEvent.srcElement evt with
      | Some e => Some e
      | None => PointerEvent.target evt
      end in
    let w :=
      with_this (Controller.set_keys
                   (PointerEvent.altKey evt) (PointerEvent.ctrlKey evt)
                   (PointerEvent.metaKey evt) (PointerEvent.shiftKey evt)
                   (PointerEvent.buttons evt)) w in
    if Engine.isPointerLock engine then
      let offsetX :=
        first_truthy [PointerEvent.movementX evt;
                      PointerEvent.mozMovementX evt;
                      PointerEvent.webkitMovementX evt;
                      PointerEvent.msMovementX evt] in
      let offsetY :=
        first_truthy [PointerEvent.movementY evt;
                      PointerEvent.mozMovementY evt;
                      PointerEvent.webkitMovementY evt;
                      PointerEvent.msMovementY evt] in
      w ← _addEventsTouch None offsetX offsetY w;
      Ok (with_this (Controller.set_points None None) w)
    else if bool_decide (PointerInfo.type p = POINTERDOWN)
            && bool_decide (is_Some srcElement)
    then
      (* An exception of setPointerCapture is caught and ignored. *)
      let w := emit (setPointerCapture (PointerEvent.pointerId evt)) w in
      let point :=
        PointerTouch.Build (PointerEvent.clientX evt)
          (PointerEvent.clientY evt) (PointerEvent.pointerId evt)
          (PointerTouch.OfPointerType (PointerEvent.pointerType evt)) in
      let w :=
        match Controller._pointA (this w), Controller._pointB (this w) with
        | None, pb =>
            let '(r, w) := alloc point w in
            with_this (Controller.set_points (Some r) pb) w
        | Some a, None =>
            let '(r, w) := alloc point w in
            with_this (Controller.set_points (Some a) (Some r)) w
        | Some _, Some _ => w
        end in
      w ← _addEventsButtonDown evt w;
      if negb (Scope.noPreventDefault (scope w)) then
        let w := emit preventDefault w in
        Ok (match Scope.element (scope w) with
            | Some _ => emit focus w
            | None => w
            end)
      else Ok w
    else if bool_decide (PointerInfo.type p = POINTERDOUBLETAP) then
      _addEventsDoubleTap (PointerEvent.pointerType evt) w
    else if bool_decide (PointerInfo.type p = POINTERUP)
            && bool_decide (is_Some srcElement)
    then
      let w := emit (releasePointerCapture (PointerEvent.pointerId evt)) w in
      w ← release_point engine evt w;
      w ← (if negb (is_zero (Scope.previousPinchSquaredDistance (scope w)))
              || bool_decide
                   (is_Some (Scope.previousMultiTouchPanPosition (scope w)))
           then
             (* Previous pinch data is populated but a button has been
                lifted so pinch has ended. *)
             w' ← _addEventsMultiTouch
                    (Controller._pointA (this w))
                    (Controller._pointB (this w))
                    (Scope.previousPinchSquaredDistance (scope w))
                    (num 0)
                    (Scope.previousMultiTouchPanPosition (scope w))
                    None
                    w;
             Ok (with_scope (Scope.set_previous (num 0) None) w')
           else Ok w);
      w ← _addEventsButtonUp evt w;
      Ok (if negb (Scope.noPreventDefault (scope w))
          then emit preventDefault w else w)
    else if bool_decide (PointerInfo.type p = POINTERMOVE) then
      let w :=
        if negb (Scope.noPreventDefault (scope w))
        then emit preventDefault w else w in
      match Controller._pointA (this w), Controller._pointB (this w) with
      | Some a, None =>
          (* One button down *)
          pa ← deref a w;
          let offsetX := (PointerEvent.clientX evt - PointerTouch.x pa)%num in
          let offsetY := (PointerEvent.clientY evt - PointerTouch.y pa)%num in
          w ← _addEventsTouch (Some a) offsetX offsetY w;
          Ok (assign_xy a (PointerEvent.clientX evt)
                (PointerEvent.clientY evt) w)
      | Some a, Some b =>
          (* Two buttons down: pinch *)
          pa ← deref a w;
          let ed :=
            if bool_decide
                 (PointerTouch.pointerId pa = PointerEvent.pointerId evt)
            then a else b in
          _ ← deref ed w;
          let w :=
            assign_xy ed (PointerEvent.clientX evt)
              (PointerEvent.clientY evt) w in
          pa ← deref a w;
          pb ← deref b w;
          let distX := (PointerTouch.x pa - PointerTouch.x pb)%num in
          let distY := (PointerTouch.y pa - PointerTouch.y pb)%num in
          let pinchSquaredDistance :=
            num (ToInt32 (distX * distX + distY * distY)%num) in
          let '(multiTouchPanPosition, w) :=
            alloc (PointerTouch.Build
                     ((PointerTouch.x pa + PointerTouch.x pb) / num 2)%num
                     ((PointerTouch.y pa + PointerTouch.y pb) / num 2)%num
                     (PointerEvent.pointerId evt)
                     (PointerTouch.OfEventType (PointerInfo.type p))) w in
          w ← _addEventsMultiTouch
                (Controller._pointA (this w))
                (Controller._pointB (this w))
                (Scope.previousPinchSquaredDistance (scope w))
                pinchSquaredDistance
                (Scope.previousMultiTouchPanPosition (scope w))
                (Some multiTouchPanPosition)
                w;
          Ok (with_scope
                (Scope.set_previous pinchSquaredDistance
                   (Some multiTouchPanPosition)) w)
      | None, _ => Ok w
      end
    else Ok w.

Definition _onLostFocus (w : World) : World :=
  let w := with_this (Controller.set_points None None) w in
  let w := with_scope (Scope.set_previous (num 0) None) w in
  emit onLostFocus w.

(* ===================================================================== *)
(** * Part II: what the buffers hold                                      *)
(* ===================================================================== *)

(** ** The ring buffer as a queue *)

(** The array index a cursor stands for: a cursor that ran off the end of
    the backing array of length [n] stands for index 0. *)
Definition wrap (n i : nat) : nat := if n <=? i then 0 else i.

(** The queued items, oldest first: [_length] slots of the backing array,
    read circularly from [_tail]. *)
Definition rb_contents {T : Type} (rb : RB.t T) : list T :=
  take (RB._length rb)
    (drop (wrap (length (RB._container rb)) (RB._tail rb))
       (RB._container rb ++ RB._container rb)).

(** The states a ring buffer can be in. *)
Definition rb_wf {T : Type} (rb : RB.t T) : Prop :=
  let n := length (RB._container rb) in
  RB._length rb ≤ n ∧ RB._length rb ≤ RB._maxSize ∧
  RB._head rb ≤ n ∧ RB._tail rb ≤ n ∧
  (wrap n (RB._tail rb) + RB._length rb = wrap n (RB._head rb) ∨
   wrap n (RB._tail rb) + RB._length rb = wrap n (RB._head rb) + n) ∧
  (0 < n →
   RB.pushed rb
   = RB.Slot (pred (if RB._head rb =? 0 then n else RB._head rb))).

(** [push()] followed by assignments that give the new slot the value
    [v]. *)
Definition rb_push_item {T : Type} `{Blank T} (v : T) (rb : RB.t T)
  : Result (RB.t T) :=
  RB.set_pushed (λ _, v) (RB.push rb).

(** The ring buffers reachable from a new one by the public methods, the
    caller writing to [pushed] as it pleases. *)
Inductive rb_reachable {T : Type} `{Blank T} : RB.t T → Prop :=
  | reach_new l : rb_reachable (RB.new l)
  | reach_push rb : rb_reachable rb → rb_reachable (RB.push rb)
  | reach_pop rb : rb_reachable rb → rb_reachable (RB.pop rb).2
  | reach_clear rb : rb_reachable rb → rb_reachable (RB.clear rb)
  | reach_set rb upd rb' :
      rb_reachable rb → RB.set_pushed upd rb = Ok rb' → rb_reachable rb'.

Fixpoint rb_push_items {T : Type} `{Blank T} (vs : list T) (rb : RB.t T)
  : Result (RB.t T) :=
  match vs with
  | [] => Ok rb
  | v :: vs => rb ← rb_push_item v rb; rb_push_items vs rb
  end.

(** [n] calls of [pop()], with what each returned. *)
Fixpoint rb_pop_n {T : Type} (n : nat) (rb : RB.t T)
  : list (option T) * RB.t T :=
  match n with
  | 0 => ([], rb)
  | S n =>
      let '(v, rb) := RB.pop rb in
      let '(vs, rb) := rb_pop_n n rb in
      (v :: vs, rb)
  end.

(** ** Capture calls as data *)

Inductive Capture : Type :=
  | ButtonDown (event : PointerEvent.t)
  | ButtonUp (event : PointerEvent.t)
  | DoubleTap (eventType : string)
  | Touch (point : option Ref) (offsetX offsetY : number)
  | MultiTouch (pointA pointB : option Ref)
      (previousPinchSquaredDistance pinchSquaredDistance : number)
      (previousMultiTouchPanPosition multiTouchPanPosition : option Ref).

Definition capture (c : Capture) (w : World) : Result World :=
  match c with
  | ButtonDown event => _addEventsButtonDown event w
  | ButtonUp event => _addEventsButtonUp event w
  | DoubleTap eventType => _addEventsDoubleTap eventType w
  | Touch point offsetX offsetY => _addEventsTouch point offsetX offsetY w
  | MultiTouch a b pd d pp p => _addEventsMultiTouch a b pd d pp p w
  end.

Fixpoint captures (cs : list Capture) (w : World) : Result World :=
  match cs with
  | [] => Ok w
  | c :: cs => w ← capture c w; captures cs w
  end.

(** The per-kind buffer a capture call writes to. *)
Definition kind_of (c : Capture) : BufferRef :=
  match c with
  | ButtonDown _ => ButtonDownBuffer
  | ButtonUp _ => ButtonUpBuffer
  | DoubleTap _ => DoubleTapBuffer
  | Touch _ _ _ => TouchBuffer
  | MultiTouch _ _ _ _ _ _ => MultiTouchBuffer
  end.

(** Only motion events are coalesced. *)
Definition coalescing (b : BufferRef) : bool :=
  match b with
  | TouchBuffer | MultiTouchBuffer => true
  | _ => false
  end.

(** A capture call merges into the previous one when both are motion
    events of the same kind. *)
Definition is_merge (prev : option BufferRef) (c : Capture) : bool :=
  coalescing (kind_of c) && bool_decide (prev = Some (kind_of c)).

(** The number of merges in a run of capture calls, the call before the run
    having been of kind [prev]. *)
Fixpoint merges_after (prev : option BufferRef) (cs : list Capture) : nat :=
  match cs with
  | [] => 0
  | c :: cs =>
      (if is_merge prev c then 1 else 0) + merges_after (Some (kind_of c)) cs
  end.

(** The capture calls of a run that are not merges, in capture order. *)
Fixpoint unmerged_after (prev : option BufferRef) (cs : list Capture)
  : list Capture :=
  match cs with
  | [] => []
  | c :: cs =>
      (if is_merge prev c then [] else [c])
        ++ unmerged_after (Some (kind_of c)) cs
  end.

Definition merges (cs : list Capture) : nat := merges_after None cs.
Definition unmerged (cs : list Capture) : list Capture :=
  unmerged_after None cs.

(** ** The queue the six buffers implement *)

(** An event waiting to be dispatched. *)
Inductive Queued : Type :=
  | QButtonDown (e : ICameraInputButtonDownEvent.t)
  | QButtonUp (e : ICameraInputButtonUpEvent.t)
  | QDoubleTap (e : ICameraInputDoubleTapEvent.t)
  | QTouch (e : ICameraInputTouchEvent.t)
  | QMultiTouch (e : ICameraInputMultiTouchEvent.t).

Definition queue_of (q : Queued) : BufferRef :=
  match q with
  | QButtonDown _ => ButtonDownBuffer
  | QButtonUp _ => ButtonUpBuffer
  | QDoubleTap _ => DoubleTapBuffer
  | QTouch _ => TouchBuffer
  | QMultiTouch _ => MultiTouchBuffer
  end.

Definition the_ButtonDown (q : Queued) :=
  match q with QButtonDown e => Some e | _ => None end.
Definition the_ButtonUp (q : Queued) :=
  match q with QButtonUp e => Some e | _ => None end.
Definition the_DoubleTap (q : Queued) :=
  match q with QDoubleTap e => Some e | _ => None end.
Definition the_Touch (q : Queued) :=
  match q with QTouch e => Some e | _ => None end.
Definition the_MultiTouch (q : Queued) :=
  match q with QMultiTouch e => Some e | _ => None end.

(** The six ring buffers hold the events [q], oldest first: [_allEvents]
    holds their tags, and each per-kind buffer the events of its kind. *)
Record Inv (w : World) (q : list Queued) : Prop := MkInv {
  inv_wf_all : rb_wf (Controller._allEvents (this w));
  inv_wf_bd : rb_wf (Controller._eventsButtonDown (this w));
  inv_wf_bu : rb_wf (Controller._eventsButtonUp (this w));
  inv_wf_dt : rb_wf (Controller._eventsDoubleTap (this w));
  inv_wf_t : rb_wf (Controller._eventsTouch (this w));
  inv_wf_mt : rb_wf (Controller._eventsMultiTouch (this w));
  inv_all :
    IEvent.buffer <$> rb_contents (Controller._allEvents (this w))
    = (λ x, Some (queue_of x)) <$> q;
  inv_bd :
    rb_contents (Controller._eventsButtonDown (this w))
    = omap the_ButtonDown q;
  inv_bu :
    rb_contents (Controller._eventsButtonUp (this w)) = omap the_ButtonUp q;
  inv_dt :
    rb_contents (Controller._eventsDoubleTap (this w))
    = omap the_DoubleTap q;
  inv_t : rb_contents (Controller._eventsTouch (this w)) = omap the_Touch q;
  inv_mt :
    rb_contents (Controller._eventsMultiTouch (this w))
    = omap the_MultiTouch q
}.

(** What a capture call does to the queue, as long as it has room. *)
Definition absorb (c : Controller.t) (q : list Queued) (x : Capture)
  : list Queued :=
  match x with
  | ButtonDown event => q ++ [QButtonDown (ICameraInputButtonDownEvent.Build event)]
  | ButtonUp event => q ++ [QButtonUp (ICameraInputButtonUpEvent.Build event)]
  | DoubleTap ty => q ++ [QDoubleTap (ICameraInputDoubleTapEvent.Build ty)]
  | Touch point offsetX offsetY =>
      match last q with
      | Some (QTouch e) =>
          removelast q ++
          [QTouch (ICameraInputTouchEvent.Build point
                     (ICameraInputTouchEvent.offsetX e + offsetX)%num
                     (ICameraInputTouchEvent.offsetY e + offsetY)%num)]
      | _ => q ++ [QTouch (ICameraInputTouchEvent.Build point offsetX offsetY)]
      end
  | MultiTouch a b _ d _ p =>
      match last q with
      | Some (QMultiTouch e) =>
          removelast q ++
          [QMultiTouch
             (ICameraInputMultiTouchEvent.Build a b
                (ICameraInputMultiTouchEvent.previousPinchSquaredDistance e)
                (ICameraInputMultiTouchEvent.pinchSquaredDistance e + d)%num
                (ICameraInputMultiTouchEvent.previousMultiTouchPanPosition e)
                p)]
      | _ =>
          q ++
          [QMultiTouch
             (ICameraInputMultiTouchEvent.Build a b
                (Controller._previousPinchSquaredDistance c) d
                (Controller._previousMultiTouchPanPosition c) p)]
      end
  end.

Definition absorb_all (c : Controller.t) (q : list Queued)
    (cs : list Capture) : list Queued :=
  fold_left (absorb c) cs q.

(** The calls a queued event is dispatched with. *)
Definition calls_of (q : Queued) : list Call :=
  match q with
  | QButtonDown e =>
      [onButtonDown (ICameraInputButtonDownEvent.event e);
       onButtonDownObservable_notifyObservers e]
  | QButtonUp e =>
      [onButtonUp (ICameraInputButtonUpEvent.event e);
       onButtonUpObservable_notifyObservers e]
  | QDoubleTap e =>
      [onDoubleTap (ICameraInputDoubleTapEvent.type e);
       onDoubleTapObservable_notifyObservers e]
  | QTouch e =>
      [onTouch (ICameraInputTouchEvent.point e)
         (ICameraInputTouchEvent.offsetX e) (ICameraInputTouchEvent.offsetY e);
       onTouchObservable_notifyObservers e]
  | QMultiTouch e =>
      [onMultiTouch
         (ICameraInputMultiTouchEvent.pointA e)
         (ICameraInputMultiTouchEvent.pointB e)
         (ICameraInputMultiTouchEvent.previousPinchSquaredDistance e)
         (ICameraInputMultiTouchEvent.pinchSquaredDistance e)
         (ICameraInputMultiTouchEvent.previousMultiTouchPanPosition e)
         (ICameraInputMultiTouchEvent.multiTouchPanPosition e);
       onMultiTouchObservable_notifyObservers e]
  end.

(** The previous-pinch fields after the events [q] were dispatched. *)
Definition previous_after (c : Controller.t) (q : list Queued)
  : number * option Ref :=
  match last (omap the_MultiTouch q) with
  | Some e =>
      (ICameraInputMultiTouchEvent.pinchSquaredDistance e,
       ICameraInputMultiTouchEvent.multiTouchPanPosition e)
  | None =>
      (Controller._previousPinchSquaredDistance c,
       Controller._previousMultiTouchPanPosition c)
  end.

(** ** Reading the log *)

(** The kind of event a handler call, respectively an observer
    notification, delivers. *)
Definition handler_kind (c : Call) : option BufferRef :=
  match c with
  | onButtonDown _ => Some ButtonDownBuffer
  | onButtonUp _ => Some ButtonUpBuffer
  | onDoubleTap _ => Some DoubleTapBuffer
  | onTouch _ _ _ => Some TouchBuffer
  | onMultiTouch _ _ _ _ _ _ => Some MultiTouchBuffer
  | _ => None
  end.

Definition notification_kind (c : Call) : option BufferRef :=
  match c with
  | onButtonDownObservable_notifyObservers _ => Some ButtonDownBuffer
  | onButtonUpObservable_notifyObservers _ => Some ButtonUpBuffer
  | onDoubleTapObservable_notifyObservers _ => Some DoubleTapBuffer
  | onTouchObservable_notifyObservers _ => Some TouchBuffer
  | onMultiTouchObservable_notifyObservers _ => Some MultiTouchBuffer
  | _ => None
  end.

(** The [onTouch] calls, respectively the [onTouch] and [onMultiTouch]
    calls, of a log. *)
Definition is_onTouch (c : Call) : bool :=
  bool_decide (handler_kind c = Some TouchBuffer).
Definition is_motion (c : Call) : bool :=
  bool_decide (handler_kind c = Some TouchBuffer)
  || bool_decide (handler_kind c = Some MultiTouchBuffer).

(** The calls made since the log was [before]. *)
Definition since (before : list Call) (w : World) : list Call :=
  drop (length before) (log w).

(** One frame: the capture calls [cs], then the drain; the result is the
    calls the frame made, when it ended normally. *)
Definition frame (cs : list Capture) (w : World) : option World :=
  match captures cs w with
  | Ok w1 =>
      match checkInputs w1 with
      | Some (Ok w2) => Some w2
      | _ => None
      end
  | TypeError => None
  end.

Definition deferred (w : World) : Prop :=
  Controller._defferCallback (this w) = true.

(** What capture and drain leave alone: the fields of the controller that
    are not buffers (the previous-pinch fields apart), the variables of
    [attachControl], and the heap. *)
Definition settings (c : Controller.t) :=
  (Controller._altKey c, Controller._ctrlKey c, Controller._metaKey c,
   Controller._shiftKey c, Controller._buttonsPressed c,
   Controller.buttons c, Controller._defferCallback c,
   Controller._pointA c, Controller._pointB c).

Definition previous (c : Controller.t) : number * option Ref :=
  (Controller._previousPinchSquaredDistance c,
   Controller._previousMultiTouchPanPosition c).

Definition surroundings (w : World) :=
  (settings (this w), scope w, heap w).

(** ** States the buffers stay in, also when they overflow *)

Definition tags (w : World) : list (option BufferRef) :=
  IEvent.buffer <$> rb_contents (Controller._allEvents (this w)).

(** [b.length] for the per-kind buffer [b] names. *)
Definition buffer_length (b : BufferRef) (w : World) : nat :=
  match b with
  | ButtonDownBuffer => RB.length (Controller._eventsButtonDown (this w))
  | ButtonUpBuffer => RB.length (Controller._eventsButtonUp (this w))
  | DoubleTapBuffer => RB.length (Controller._eventsDoubleTap (this w))
  | TouchBuffer => RB.length (Controller._eventsTouch (this w))
  | MultiTouchBuffer => RB.length (Controller._eventsMultiTouch (this w))
  end.

(** The sum of the lengths of the per-kind buffers. *)
Definition slots_length (w : World) : nat :=
  buffer_length ButtonDownBuffer w + buffer_length ButtonUpBuffer w
  + buffer_length DoubleTapBuffer w + buffer_length TouchBuffer w
  + buffer_length MultiTouchBuffer w.

(** Every entry of [_allEvents] names a buffer, and no buffer is named more
    often than it has events. *)
Record Sound (w : World) : Prop := MkSound {
  sound_wf_all : rb_wf (Controller._allEvents (this w));
  sound_wf_bd : rb_wf (Controller._eventsButtonDown (this w));
  sound_wf_bu : rb_wf (Controller._eventsButtonUp (this w));
  sound_wf_dt : rb_wf (Controller._eventsDoubleTap (this w));
  sound_wf_t : rb_wf (Controller._eventsTouch (this w));
  sound_wf_mt : rb_wf (Controller._eventsMultiTouch (this w));
  sound_tags : Forall is_Some (tags w);
  sound_count :
    ∀ b, length (filter (eq (Some b)) (tags w)) ≤ buffer_length b w
}.

(** Every slot of the backing array of [_allEvents] names a buffer. *)
Definition tags_defined (w : World) : Prop :=
  Forall (λ e, is_Some (IEvent.buffer e))
    (RB._container (Controller._allEvents (this w))).

(** A drain in which every entry popped from [_allEvents] names a buffer
    that has an event to give. *)
Inductive drains_cleanly : World → Prop :=
  | drains_done w :
      RB.length (Controller._allEvents (this w)) = 0 → drains_cleanly w
  | drains_turn w e b w' :
      0 < RB.length (Controller._allEvents (this w)) →
      (RB.pop (Controller._allEvents (this w))).1 = Some e →
      IEvent.buffer e = Some b →
      0 < buffer_length b w →
      checkInputs_body w = Ok w' →
      drains_cleanly w' →
      drains_cleanly w.

(** ** Runs of the controller *)

(** A run of notifications, each under the engine state of its moment. *)
Fixpoint inputs (ps : list (Engine.t * PointerInfo.t)) (w : World)
  : Result World :=
  match ps with
  | [] => Ok w
  | (engine, p) :: ps => w ← _pointerInput engine p w; inputs ps w
  end.

(** Frame after frame. *)
Fixpoint frames (fs : list (list Capture)) (w : World) : option World :=
  match fs with
  | [] => Some w
  | cs :: fs =>
      match frame cs w with
      | Some w => frames fs w
      | None => None
      end
  end.

(** The worlds the controller can be in: attached, then notified, blurred,
    drained and reconfigured in any order. *)
Inductive reachable : World → Prop :=
  | reach_attach noPreventDefault element :
      reachable (attachControl noPreventDefault element)
  | reach_pointerInput engine p w w' :
      reachable w → _pointerInput engine p w = Ok w' → reachable w'
  | reach_lostFocus w : reachable w → reachable (_onLostFocus w)
  | reach_checkInputs w w' :
      reachable w → checkInputs w = Some (Ok w') → reachable w'
  | reach_defferCallback d w :
      reachable w →
      reachable (with_this (Controller.set__defferCallback d) w).

(** The six ring buffers. *)
Definition buffers (w : World) :=
  (Controller._allEvents (this w), Controller._eventsButtonDown (this w),
   Controller._eventsButtonUp (this w), Controller._eventsDoubleTap (this w),
   Controller._eventsTouch (this w), Controller._eventsMultiTouch (this w)).

(** ** Totals of the motion delivered *)

(** [x += d] for each [d] of [l] in turn. *)
Definition accumulate (x : number) (l : list number) : number :=
  fold_left Number.add l x.

Definition offsetX_of (c : Call) : option number :=
  match c with onTouch _ x _ => Some x | _ => None end.
Definition offsetY_of (c : Call) : option number :=
  match c with onTouch _ _ y => Some y | _ => None end.
Definition pinch_of (c : Call) : option number :=
  match c with onMultiTouch _ _ _ d _ _ => Some d | _ => None end.
Definition pan_of (c : Call) : option (option Ref) :=
  match c with onMultiTouch _ _ _ _ _ p => Some p | _ => None end.

(** Summed [onTouch] offsets and summed [onMultiTouch] pinch distances, each
    added up from 0 in the order of the calls, and the pan position of the
    last [onMultiTouch] call. *)
Definition totals (l : list Call)
  : number * number * number * option (option Ref) :=
  (accumulate (num 0) (omap offsetX_of l),
   accumulate (num 0) (omap offsetY_of l),
   accumulate (num 0) (omap pinch_of l), last (omap pan_of l)).

(** The pinch distance of the last [onMultiTouch] call. *)
Definition final_pinch (l : list Call) : option number :=
  last (omap pinch_of l).

(** A [Touch] capture call, and a [MultiTouch] capture call, from their
    arguments. *)
Definition touch_of (t : option Ref * number * number) : Capture :=
  Touch t.1.1 t.1.2 t.2.

Definition multiTouch_of
    (m : option Ref * option Ref * number * number * option Ref * option Ref)
  : Capture :=
  MultiTouch m.1.1.1.1.1 m.1.1.1.1.2 m.1.1.1.2 m.1.1.2 m.1.2 m.2.

(** ** The properties under study, as predicates on a run *)

(** One frame of capture calls [cs] from [w] fires each kind of handler,
    and its observer notification, once per capture call that was not
    merged, in capture order. *)
Definition dispatches_in_capture_order (w : World) (cs : list Capture)
  : Prop :=
  ∃ w', frame cs w = Some w' ∧
    length (omap handler_kind (since (log w) w'))
      = length cs - merges cs ∧
    length (omap notification_kind (since (log w) w'))
      = length cs - merges cs ∧
    omap handler_kind (since (log w) w') = kind_of <$> unmerged cs ∧
    omap notification_kind (since (log w) w') = kind_of <$> unmerged cs.

(** The [offsetX] and the [offsetY] of [Touch] capture calls. *)
Definition offsetsX (ts : list (option Ref * number * number))
  : list number := (λ t, t.1.2) <$> ts.
Definition offsetsY (ts : list (option Ref * number * number))
  : list number := (λ t, t.2) <$> ts.

(** In one frame from [w], the [Touch] capture calls [t :: ts] made between
    the capture calls [a] and [b] are dispatched as one [onTouch] call (and
    its notification), after the calls for [pre ++ [a]] and before those
    for [b :: post]: with the contact of the latest of them and with their
    offsets added up in capture order. *)
Definition touch_run_dispatched (w : World) (pre : list Capture)
    (a : Capture) (t : option Ref * number * number)
    (ts : list (option Ref * number * number)) (b : Capture)
    (post : list Capture) : Prop :=
  ∃ w' l1 l2,
    frame (pre ++ a :: (touch_of <$> t :: ts) ++ b :: post) w = Some w' ∧
    since (log w) w'
    = l1 ++ calls_of
              (QTouch (ICameraInputTouchEvent.Build
                         (default t (last ts)).1.1
                         (accumulate t.1.2 (offsetsX ts))
                         (accumulate t.2 (offsetsY ts))))
         ++ l2 ∧
    omap handler_kind l1 = kind_of <$> unmerged (pre ++ [a]) ∧
    omap handler_kind l2 = kind_of <$> unmerged (b :: post).

Definition with_defferCallback (d : bool) (w : World) : World :=
  with_this (Controller.set__defferCallback d) w.

(** The handler call a capture call makes when callbacks are not
    deferred. *)
Definition call_of (c : Capture) : Call :=
  match c with
  | ButtonDown event => onButtonDown event
  | ButtonUp event => onButtonUp event
  | DoubleTap eventType => onDoubleTap eventType
  | Touch point offsetX offsetY => onTouch point offsetX offsetY
  | MultiTouch a b pd d pp p => onMultiTouch a b pd d pp p
  end.

(** The frames [fs] run from [w] twice, with the handlers called from the
    drain and with the handlers called at capture time: both runs end
    normally, and the calls they make are related by [R]. *)
Definition both_runs (w : World) (fs : list (list Capture))
    (R : list Call → list Call → Prop) : Prop :=
  ∃ wd wi,
    frames fs (with_defferCallback true w) = Some wd ∧
    frames fs (with_defferCallback false w) = Some wi ∧
    R (since (log w) wd) (since (log w) wi).

(** The frames [fs] deliver the same motion in total whether the handlers
    are called at capture time or from the drain, ... *)
Definition same_totals (w : World) (fs : list (list Capture)) : Prop :=
  both_runs w fs (λ ld li, totals ld = totals li).

(** ... and their last [onMultiTouch] calls carry the same pinch
    distance. *)
Definition same_final_pinch (w : World) (fs : list (list Capture)) : Prop :=
  both_runs w fs (λ ld li, final_pinch ld = final_pinch li).

(** The motion a handler call delivers: the contact and the offsets of an
    [onTouch] call, the contacts, the pinch distance and the pan position of
    an [onMultiTouch] call. *)
Inductive Motion : Type :=
  | Moved (point : option Ref) (offsetX offsetY : number)
  | Pinched (pointA pointB : option Ref) (pinchSquaredDistance : number)
      (multiTouchPanPosition : option Ref).

Definition motion_of (c : Call) : option Motion :=
  match c with
  | onTouch p x y => Some (Moved p x y)
  | onMultiTouch a b _ d _ p => Some (Pinched a b d p)
  | _ => None
  end.

(** The motion a queued event will deliver. *)
Definition entry (y : Queued) : option Motion :=
  match y with
  | QTouch e =>
      Some (Moved (ICameraInputTouchEvent.point e)
              (ICameraInputTouchEvent.offsetX e)
              (ICameraInputTouchEvent.offsetY e))
  | QMultiTouch e =>
      Some (Pinched (ICameraInputMultiTouchEvent.pointA e)
              (ICameraInputMultiTouchEvent.pointB e)
              (ICameraInputMultiTouchEvent.pinchSquaredDistance e)
              (ICameraInputMultiTouchEvent.multiTouchPanPosition e))
  | _ => None
  end.

(** The handler calls [l] of one frame, one per capture call, with the
    deltas added up in the order of the calls over every run of consecutive
    [onTouch] calls and over every run of consecutive [onMultiTouch] calls;
    a summed call keeps the contacts and the pan position of the last call
    of its run.  [None] stands for a call of another handler. *)
Definition sum_runs_step (acc : list (option Motion)) (c : Call)
  : list (option Motion) :=
  match c with
  | onTouch p x y =>
      match last acc with
      | Some (Some (Moved _ x0 y0)) =>
          removelast acc ++ [Some (Moved p (x0 + x) (y0 + y))]
      | _ => acc ++ [Some (Moved p x y)]
      end
  | onMultiTouch a b _ d _ p =>
      match last acc with
      | Some (Some (Pinched _ _ d0 _)) =>
          removelast acc ++ [Some (Pinched a b (d0 + d) p)]
      | _ => acc ++ [Some (Pinched a b d p)]
      end
  | onButtonDown _ | onButtonUp _ | onDoubleTap _ => acc ++ [None]
  | _ => acc
  end.

Definition sum_runs (l : list Call) : list Motion :=
  omap id (fold_left sum_runs_step l []).

(** The three deltas that are summed: the two offsets of an [onTouch] call
    and the pinch distance of an [onMultiTouch] call. *)
Inductive Delta : Type :=
  | DeltaX
  | DeltaY
  | DeltaPinch.

Definition component (k : Delta) (m : Motion) : option number :=
  match k, m with
  | DeltaX, Moved _ x _ => Some x
  | DeltaY, Moved _ _ y => Some y
  | DeltaPinch, Pinched _ _ d _ => Some d
  | _, _ => None
  end.

Definition delta_of (k : Delta) (c : Call) : option number :=
  motion_of c ≫= component k.

(** The deltas of kind [k] among the entries [acc]. *)
Definition chan (k : Delta) (acc : list (option Motion)) : list number :=
  omap (λ o : option Motion, o ≫= component k) acc.

(** The sum, and the sum of the absolute values, of integers. *)
Definition Z_sum (zs : list Z) : Z := foldr Z.add 0%Z zs.
Definition Z_sum_abs (zs : list Z) : Z :=
  foldr (λ z s, Z.abs z + s)%Z 0%Z zs.

(** Every delta the capture calls of the frames [fs] carry is an integer, and
    for each of the three deltas the absolute values add up to less than
    [2 ^ 53]: no addition of them is rounded. *)
Definition integral_deltas (fs : list (list Capture)) : Prop :=
  ∀ k, ∃ zs,
    omap (delta_of k) (fs ≫= λ cs, call_of <$> cs) = num <$> zs ∧
    (Z_sum_abs zs < 2 ^ 53)%Z.

(** The run of the frames [fs] with the handlers called from the drain
    delivers the motion of the run with the handlers called at capture time,
    summed frame by frame over each run of consecutive calls of one motion
    handler; both runs end with the same pan position. *)
Definition same_motion_per_run (w : World) (fs : list (list Capture))
  : Prop :=
  both_runs w fs (λ ld li,
    li = (fs ≫= λ cs, call_of <$> cs) ∧
    omap motion_of ld = (fs ≫= λ cs, sum_runs (call_of <$> cs)) ∧
    last (omap pan_of ld) = last (omap pan_of li)).

(** After the capture calls [cs], [_allEvents] is as long as the per-kind
    buffers together, one entry per capture call that was not merged, and
    the drain finds an event behind every entry. *)
Definition order_matches_slots (w : World) (cs : list Capture) : Prop :=
  ∃ w1, captures cs w = Ok w1 ∧
    RB.length (Controller._allEvents (this w1)) = slots_length w1 ∧
    RB.length (Controller._allEvents (this w1)) = length cs - merges cs ∧
    drains_cleanly w1.

(** [clear()] resets length and cursors and keeps the backing array. *)
Definition clear_keeps_storage {T : Type} `{Blank T} (rb : RB.t T) : Prop :=
  RB._length (RB.clear rb) = 0 ∧ RB._head (RB.clear rb) = 0 ∧
  RB._tail (RB.clear rb) = 0 ∧
  length (RB._container (RB.clear rb)) = length (RB._container rb).


(** The pinch variables of [attachControl] hold the data of a pinch. *)
Definition pinch_populated (w : World) : bool :=
  negb (is_zero (Scope.previousPinchSquaredDistance (scope w)))
  || bool_decide (is_Some (Scope.previousMultiTouchPanPosition (scope w))).

(** A notification that reaches the [POINTERUP] branch of
    [_pointerInput]. *)
Definition is_buttonUp (engine : Engine.t) (p : PointerInfo.t) (w : World)
  : Prop :=
  PointerInfo.type p = POINTERUP ∧
  Engine.isInVRExclusivePointerMode engine = false ∧
  Engine.isPointerLock engine = false ∧
  PointerEvent.button (PointerInfo.event p) ∈ Controller.buttons (this w) ∧
  (is_Some (PointerEvent.srcElement (PointerInfo.event p))
   ∨ is_Some (PointerEvent.target (PointerInfo.event p))).


(** A [POINTERMOVE] notification outside pointer lock. *)
Definition is_plain_move (ep : Engine.t * PointerInfo.t) : Prop :=
  PointerInfo.type ep.2 = POINTERMOVE ∧ Engine.isPointerLock ep.1 = false.

(** The [n] newest items of a list. *)
Definition newest {A : Type} (n : nat) (l : list A) : list A :=
  drop (length l - n) l.

(** ** Runs of capture calls that merge *)

(** The queued [Touch] event after one more [Touch] capture call was merged
    into it. *)
Definition merge_touch (e : ICameraInputTouchEvent.t)
    (t : option Ref * number * number) : ICameraInputTouchEvent.t :=
  ICameraInputTouchEvent.Build t.1.1
    (ICameraInputTouchEvent.offsetX e + t.1.2)%num
    (ICameraInputTouchEvent.offsetY e + t.2)%num.

(** The queued [MultiTouch] event after one more [MultiTouch] capture call
    was merged into it. *)
Definition merge_multiTouch (e : ICameraInputMultiTouchEvent.t)
    (m : option Ref * option Ref * number * number * option Ref * option Ref)
  : ICameraInputMultiTouchEvent.t :=
  ICameraInputMultiTouchEvent.Build m.1.1.1.1.1 m.1.1.1.1.2
    (ICameraInputMultiTouchEvent.previousPinchSquaredDistance e)
    (ICameraInputMultiTouchEvent.pinchSquaredDistance e + m.1.1.2)%num
    (ICameraInputMultiTouchEvent.previousMultiTouchPanPosition e)
    m.2.

Definition immediate (w : World) : Prop :=
  Controller._defferCallback (this w) = false.

(** How often [_allEvents] names the buffer [b] among the tags [l]. *)
Definition count (b : BufferRef) (l : list (option BufferRef)) : nat :=
  length (filter (eq (Some b)) l).

Definition is_onMultiTouch (c : Call) : bool :=
  bool_decide (handler_kind c = Some MultiTouchBuffer).


(** ** Worlds every notification is taken in *)

(** The tracked contacts are objects of the heap. *)
Definition tracked (w : World) : Prop :=
  ∀ r, Controller._pointA (this w) = Some r
       ∨ Controller._pointB (this w) = Some r →
       r < length (heap w).

Definition Stable (w : World) : Prop := Sound w ∧ tracked w.

(** The world after the notifications [ps]. *)
Definition after (ps : list (Engine.t * PointerInfo.t)) (w : World) : World :=
  match inputs ps w with
  | Ok w' => w'
  | TypeError => w
  end.

(** ** Sample runs *)

Definition unlocked : Engine.t := Engine.Build false false false.

Definition locked : Engine.t := Engine.Build false true false.

(** A pointer event on the canvas, as the unit tests build them. *)
Definition sample_event (pointerType : string) (pointerId button : Z)
    (clientX clientY : Z) : PointerEvent.t :=
  PointerEvent.Build pointerType pointerId button 0 (Some "canvas") None
    false false false false (num clientX) (num clientY)
    None None None None None None None None.

Definition notification (type : PointerEventTypes) (evt : PointerEvent.t)
  : Engine.t * PointerInfo.t :=
  (unlocked, PointerInfo.Build type evt).

(** A mouse moved by 5 under pointer lock. *)
Definition relative_move : PointerInfo.t :=
  PointerInfo.Build POINTERMOVE
    (PointerEvent.Build "mouse" 1 0 0 (Some "canvas") None
       false false false false (num 0) (num 0)
       (Some (num 5)) None None None None None None None).

(** 25 times a [Touch] and a [ButtonDown], then one more [Touch]: 51 events
    to queue. *)
Definition dropped_touch_frame : list Capture :=
  concat (replicate 25 [Touch None (num 1) (num 0);
                        ButtonDown blank_PointerEvent])
    ++ [Touch None (num 1) (num 0)].

(** Moves by 0.1, 0.1, then a [ButtonDown], then moves by 0.1 and 0.4. *)
Definition rounding_frame : list Capture :=
  [Touch None (fraction 1 10) (num 0); Touch None (fraction 1 10) (num 0);
   ButtonDown blank_PointerEvent;
   Touch None (fraction 1 10) (num 0); Touch None (fraction 4 10) (num 0)].

(** Two [MultiTouch] capture calls with the pinch distances 5 and 7. *)
Definition merged_pinch_frame : list Capture :=
  [MultiTouch None None (num 0) (num 5) None None;
   MultiTouch None None (num 5) (num 7) None None].

(** ButtonDown(id=1), Move(+1, 0), ButtonDown(id=2), ButtonUp(id=1). *)
Definition sample_frame : list Capture :=
  [ButtonDown (sample_event "mouse" 1 0 100 200);
   Touch (Some 0) (num 1) (num 0);
   ButtonDown (sample_event "mouse" 2 1 100 200);
   ButtonUp (sample_event "mouse" 1 0 101 200)].

(** A mouse button held down at (100, 200). *)
Definition mid_drag : World :=
  after [notification POINTERDOWN (sample_event "mouse" 1 0 100 200)]
    (attachControl false (Some "canvas")).

Definition sample_moves : list (Engine.t * PointerInfo.t) :=
  [notification POINTERMOVE (sample_event "mouse" 1 0 101 200);
   notification POINTERMOVE (sample_event "mouse" 1 0 102 200)].

(** Two fingers down, the first one moved, and the frame drained. *)
Definition mid_pinch : World :=
  match
    checkInputs
      (after [notification POINTERDOWN (sample_event "touch" 1 0 100 200);
              notification POINTERDOWN (sample_event "touch" 2 1 300 400);
              notification POINTERMOVE (sample_event "touch" 1 0 101 200)]
         (attachControl false (Some "canvas")))
  with
  | Some (Ok w) => w
  | _ => attachControl false (Some "canvas")
  end.


(** Two more fingers go down, at (100, 200) and (100, 209), and the second
    one reports a move. *)
Definition next_pinch : list (Engine.t * PointerInfo.t) :=
  [notification POINTERDOWN (sample_event "touch" 3 0 100 200);
   notification POINTERDOWN (sample_event "touch" 4 1 100 209);
   notification POINTERMOVE (sample_event "touch" 4 1 100 209)].


(** A [Touch] tag queued in [_allEvents] with nothing behind it in
    [_eventsTouch]. *)
Definition orphaned : World :=
  match capture (Touch None (num 1) (num 0)) (attachControl false None) with
  | Ok w =>
      with_this
        (λ c, Controller.set__eventsTouch
                (RB.pop (Controller._eventsTouch c)).2 c) w
  | TypeError => attachControl false None
  end.

(** Three [Touch] capture calls: contact, offsetX, offsetY. *)
Definition sample_touches : list (option Ref * number * number) :=
  [(Some 0, num 1, num 0); (Some 0, num 1, num 0); (Some 1, num 0, num (-2))].

(** Two [MultiTouch] capture calls of one pinch. *)
Definition sample_pinches
  : list (option Ref * option Ref * number * number * option Ref * option Ref) :=
  [(Some 0, Some 1, num 0, num 100, None, Some 2);
   (Some 0, Some 1, num 100, num 121, Some 2, Some 3)].

(** 51 events to push, told apart by their contact. *)
Definition sample_items : list ICameraInputTouchEvent.t :=
  (λ n, ICameraInputTouchEvent.Build (Some n) (num 0) (num 0)) <$> seq 0 51.

(** ** More sample runs *)

(** A buffer that was pushed to twice and popped once. *)
Definition sample_ring : RB.t ICameraInputTouchEvent.t :=
  (RB.pop (RB.push (RB.push (RB.new "Touch")))).2.

(** ** The tracked contacts *)

(** The contacts [a] and [b] among [n] objects: a secondary contact is
    tracked only beside a primary one, and the two are different objects
    of the heap. *)
Definition contacts_wf (a b : option Ref) (n : nat) : Prop :=
  match a, b with
  | None, None => True
  | Some a, None => a < n
  | Some a, Some b => a < n ∧ b < n ∧ a ≠ b
  | None, Some _ => False
  end.

Definition contacts_ok (w : World) : Prop :=
  contacts_wf (Controller._pointA (this w)) (Controller._pointB (this w))
    (length (heap w)).

(** ** What a drain leaves in the previous-pinch fields *)

(** The pinch distance and pan position of the last [onMultiTouch] call
    among [l]. *)
Definition last_multiTouch (l : list Call) : option (number * option Ref) :=
  last (omap (λ c, match c with
                   | onMultiTouch _ _ _ d _ p => Some (d, p)
                   | _ => None
                   end) l).

(** ** A drag *)

(** A [POINTERMOVE] notification that reaches the contact tracking:
    outside pointer lock and outside the exclusive VR pointer mode. *)
Definition is_drag_move (ep : Engine.t * PointerInfo.t) : Prop :=
  PointerInfo.type ep.2 = POINTERMOVE ∧
  Engine.isPointerLock ep.1 = false ∧
  Engine.isInVRExclusivePointerMode ep.1 = false.

(** Where the pointer is after the notifications [ps], having been at
    [start]. *)
Definition last_position (ps : list (Engine.t * PointerInfo.t))
    (start : number * number) : number * number :=
  match last ps with
  | Some ep =>
      (PointerEvent.clientX (PointerInfo.event ep.2),
       PointerEvent.clientY (PointerInfo.event ep.2))
  | None => start
  end.

(** The positions the notifications [ps] report. *)
Definition positions (ps : list (Engine.t * PointerInfo.t))
  : list (number * number) :=
  (λ ep, (PointerEvent.clientX (PointerInfo.event ep.2),
          PointerEvent.clientY (PointerInfo.event ep.2))) <$> ps.

(** The offsets the moves [ps] of a contact report, the contact having been
    at [start]: each move is measured from the position the move before it
    left in the contact. *)
Fixpoint drag_offsets (start : number * number)
    (ps : list (Engine.t * PointerInfo.t)) : list (number * number) :=
  match ps with
  | [] => []
  | ep :: ps =>
      let x := PointerEvent.clientX (PointerInfo.event ep.2) in
      let y := PointerEvent.clientY (PointerInfo.event ep.2) in
      ((x - start.1)%num, (y - start.2)%num) :: drag_offsets (x, y) ps
  end.

(** ** Calls that take the event from the browser *)

Definition is_default_call (c : Call) : bool :=
  match c with
  | preventDefault | focus => true
  | _ => false
  end.

(** Since the log was [base] neither [preventDefault] nor [focus] was
    called, and [noPreventDefault] is set. *)
Definition keeps_default (base : list Call) (w : World) : Prop :=
  Scope.noPreventDefault (scope w) = true ∧
  ∃ l, log w = base ++ l ∧ filter is_default_call l = [].

(** ** [detachControl] *)

(** The calls [detachControl] makes to the host: the [blur] handler is
    unregistered from the host window, the observer is removed from the
    scene's [onPointerObservable], the [contextmenu] listener from the input
    element, and the five observables of the controller are cleared. *)
Inductive HostCall : Type :=
  | UnregisterTopRootEvents_blur
  | onPointerObservable_remove
  | removeEventListener_contextmenu (element : string)
  | observable_clear (b : BufferRef).

(** What [detachControl] reads besides the fields of [Controller.t]:
    whether [this._observer] and [this._onLostFocus] are set, and what the
    engine answers to [getHostWindow()] and [getInputElement()]. *)
Module Attachment.
Record t : Type := Build {
_observer : bool;
_onLostFocus : bool;
hostWindow : bool;
inputElement : option string
}.
End Attachment.

(** [detachControl()].  The method [onContextMenu] and the five observables
    are fields every controller has, so the tests [if (this.onContextMenu)]
    and [if (this.on...Observable)] succeed. *)
Definition detachControl (a : Attachment.t) (w : World)
  : Attachment.t * list HostCall * World :=
  let calls1 :=
    if Attachment._onLostFocus a && Attachment.hostWindow a
    then [UnregisterTopRootEvents_blur] else [] in
  let '(a, calls2) :=
    if Attachment._observer a then
      (Attachment.Build false false
         (Attachment.hostWindow a) (Attachment.inputElement a),
       onPointerObservable_remove
       :: match Attachment.inputElement a with
          | Some el => [removeEventListener_contextmenu el]
          | None => []
          end)
    else (a, []) in
  let w := with_this (Controller.set_keys false false false false 0) w in
  let calls3 :=
    observable_clear
    <$> [DoubleTapBuffer; ButtonUpBuffer; ButtonDownBuffer; TouchBuffer;
         MultiTouchBuffer] in
  let w :=
    with_this (λ c, Controller.set__allEvents
                      (RB.clear (Controller._allEvents c)) c) w in
  let w :=
    with_this (λ c, Controller.set__eventsButtonDown
                      (RB.clear (Controller._eventsButtonDown c)) c) w in
  let w :=
    with_this (λ c, Controller.set__eventsButtonUp
                      (RB.clear (Controller._eventsButtonUp c)) c) w in
  let w :=
    with_this (λ c, Controller.set__eventsDoubleTap
                      (RB.clear (Controller._eventsDoubleTap c)) c) w in
  let w :=
    with_this (λ c, Controller.set__eventsTouch
                      (RB.clear (Controller._eventsTouch c)) c) w in
  let w :=
    with_this (λ c, Controller.set__eventsMultiTouch
                      (RB.clear (Controller._eventsMultiTouch c)) c) w in
  (a, calls1 ++ calls2 ++ calls3, w).

(** ** Pointer lock *)

(** A [POINTERMOVE] notification under pointer lock. *)
Definition is_locked_move (ep : Engine.t * PointerInfo.t) : Prop :=
  PointerInfo.type ep.2 = POINTERMOVE ∧
  Engine.isPointerLock ep.1 = true ∧
  Engine.isInVRExclusivePointerMode ep.1 = false.

(** [evt.movementX || evt.mozMovementX || evt.webkitMovementX ||
    evt.msMovementX || 0], and the same for Y. *)
Definition movement (evt : PointerEvent.t) : number * number :=
  (first_truthy [PointerEvent.movementX evt; PointerEvent.mozMovementX evt;
                 PointerEvent.webkitMovementX evt;
                 PointerEvent.msMovementX evt],
   first_truthy [PointerEvent.movementY evt; PointerEvent.mozMovementY evt;
                 PointerEvent.webkitMovementY evt;
                 PointerEvent.msMovementY evt]).

(** The movement each of the notifications [ps] reports. *)
Definition movements (ps : list (Engine.t * PointerInfo.t))
  : list (number * number) :=
  (λ ep, movement (PointerInfo.event ep.2)) <$> ps.

(** ** Further sample runs *)

(** The controller of [mid_drag] after the frame was drained. *)
Definition dragging : World :=
  match checkInputs mid_drag with
  | Some (Ok w) => w
  | _ => mid_drag
  end.

Definition mouse_up : PointerInfo.t :=
  PointerInfo.Build POINTERUP (sample_event "mouse" 1 0 102 200).

(** The second finger of [mid_pinch] moves. *)
Definition finger_move : PointerInfo.t :=
  PointerInfo.Build POINTERMOVE (sample_event "touch" 2 1 300 401).

(** Two [MultiTouch] capture calls queued and not drained. *)
Definition queued_pinches : World :=
  match captures (multiTouch_of <$> sample_pinches)
          (attachControl false None) with
  | Ok w => w
  | TypeError => attachControl false None
  end.

(* ===================================================================== *)
(** * Part III: proofs                                                     *)
(* ===================================================================== *)

(** ** The ring buffer is a queue *)

Ltac nat_cases :=
  repeat match goal with
  | |- context [?a <=? ?b] => destruct (Nat.leb_spec a b)
  | |- context [?a <? ?b] => destruct (Nat.ltb_spec a b)
  | |- context [?a =? ?b] => destruct (Nat.eqb_spec a b)
  | H : context [?a <=? ?b] |- _ => destruct (Nat.leb_spec a b)
  | H : context [?a <? ?b] |- _ => destruct (Nat.ltb_spec a b)
  | H : context [?a =? ?b] |- _ => destruct (Nat.eqb_spec a b)
  end.

Ltac rb_simpl :=
  cbn [RB._head RB._tail RB._length RB._container RB.pushed RB.label
       fst snd] in *.

Section Ring.
Context {T : Type} `{Blank T}.
Implicit Types rb : RB.t T.

Lemma wrap_lt n i : 0 < n → wrap n i < n.
Proof. unfold wrap. intros. nat_cases; lia. Qed.

Lemma rb_contents_lookup rb k :
  RB._length rb ≤ length (RB._container rb) →
  rb_contents rb !! k =
    if decide (k < RB._length rb) then
      let i := wrap (length (RB._container rb)) (RB._tail rb) + k in
      RB._container rb !!
        (if decide (i < length (RB._container rb)) then i
         else i - length (RB._container rb))
    else None.
Proof.
  intros Hlen. unfold rb_contents.
  rewrite lookup_take. case_decide; [|done]. simpl.
  rewrite lookup_drop. case_decide.
  - by rewrite lookup_app_l.
  - rewrite lookup_app_r; [done|lia].
Qed.

Lemma rb_contents_length rb :
  RB._length rb ≤ length (RB._container rb) →
  length (rb_contents rb) = RB._length rb.
Proof.
  intros Hlen. unfold rb_contents.
  rewrite length_take, length_drop, length_app.
  assert (wrap (length (RB._container rb)) (RB._tail rb)
          ≤ length (RB._container rb)).
  { unfold wrap. nat_cases; lia. }
  lia.
Qed.

Lemma rb_wf_new l : rb_wf (RB.new l : RB.t T).
Proof. unfold rb_wf, RB.new, wrap, RB._maxSize; simpl. split_and!; try lia. Qed.

Lemma rb_wf_clear rb : rb_wf (RB.clear rb).
Proof. unfold rb_wf, RB.clear, wrap, RB._maxSize; simpl. split_and!; try lia. Qed.

Lemma rb_pop_wf rb : rb_wf rb → rb_wf (RB.pop rb).2.
Proof.
  destruct rb as [h t len c p lbl].
  unfold rb_wf, RB.pop, RB._wrapPointers, wrap; simpl.
  intros (H1 & H2 & H3 & H4 & H5 & H6).
  destruct (Nat.leb_spec len 0); simpl.
  { split_and!; done. }
  split_and!; try (nat_cases; lia).
  intros Hn. specialize (H6 Hn). rewrite H6. f_equal.
  nat_cases; lia.
Qed.

Lemma rb_pop_length rb : RB._length (RB.pop rb).2 = RB._length rb - 1.
Proof. unfold RB.pop. nat_cases; simpl; lia. Qed.

Lemma rb_pop_container rb : RB._container (RB.pop rb).2 = RB._container rb.
Proof. unfold RB.pop. nat_cases; simpl; done. Qed.

Lemma rb_pop_contents rb :
  rb_wf rb →
  (RB.pop rb).1 = head (rb_contents rb) ∧
  rb_contents (RB.pop rb).2 = tail (rb_contents rb).
Proof.
  intros Hwf. pose proof (rb_pop_wf rb Hwf) as Hwf'.
  destruct Hwf as (H1 & H2 & H3 & H4 & H5 & H6).
  destruct Hwf' as (H1' & _).
  split.
  - rewrite head_lookup, rb_contents_lookup by done.
    destruct rb as [h t len c p lbl]; unfold RB.pop, wrap in *; simpl in *.
    destruct (Nat.leb_spec len 0); simpl.
    + case_decide; [lia|done].
    + repeat case_decide; nat_cases; try lia; f_equal; lia.
  - apply list_eq; intros k.
    rewrite lookup_tail, !rb_contents_lookup by done.
    destruct rb as [h t len c p lbl]; unfold RB.pop, wrap in *; simpl in *.
    destruct (Nat.leb_spec len 0); simpl.
    + repeat case_decide; try lia; done.
    + repeat case_decide; try lia; try done;
        nat_cases; try lia; f_equal; lia.
Qed.

Lemma lookup_splice (c : list T) (h j : nat) (v : T) :
  h ≤ length c →
  (take h c ++ v :: drop h c) !! j =
    if decide (j < h) then c !! j
    else if decide (j = h) then Some v else c !! (j - 1).
Proof.
  intros Hh. case_decide.
  - rewrite lookup_app_l by (rewrite length_take; lia).
    by rewrite lookup_take_lt.
  - rewrite lookup_app_r by (rewrite length_take; lia).
    rewrite length_take, Nat.min_l by done.
    case_decide.
    + subst. by rewrite Nat.sub_diag.
    + destruct (j - h) as [|m] eqn:E; [lia|]. simpl.
      rewrite lookup_drop. f_equal. lia.
Qed.

(** A push into a buffer that is not at its maximum appends a slot. *)
Lemma rb_push_room rb :
  rb_wf rb → RB._length rb < RB._maxSize →
  rb_wf (RB.push rb) ∧
  RB._length (RB.push rb) = RB._length rb + 1 ∧
  ∃ v0, rb_contents (RB.push rb) = rb_contents rb ++ [v0].
Proof.
  intros Hwf Hroom.
  destruct Hwf as (H1 & H2 & H3 & H4 & H5 & H6).
  destruct rb as [h t len c p lbl]. rb_simpl.
  unfold RB.push. rb_simpl.
  destruct (Nat.leb_spec RB._maxSize len) as [?|_]; [lia|].
  unfold RB._wrapPointers; rb_simpl. fold (wrap (length c) h) (wrap (length c) t).
  set (h' := wrap (length c) h) in *. set (t' := wrap (length c) t) in *.
  assert (Hh' : h' = 0 ∧ length c = 0 ∨ h' < length c).
  { subst h'. unfold wrap. nat_cases; lia. }
  assert (Ht' : t' = 0 ∧ length c = 0 ∨ t' < length c).
  { subst t'. unfold wrap. nat_cases; lia. }
  destruct ((h' =? t') && ((0 <? len) || (length c =? 0))) eqn:E.
  - (* splice *)
    assert (h' = t' ∧ len = length c) as [Eht Efull].
    { apply andb_true_iff in E as [E1 E2]. apply Nat.eqb_eq in E1.
      apply orb_true_iff in E2 as [E2|E2].
      - apply Nat.ltb_lt in E2. lia.
      - apply Nat.eqb_eq in E2. lia. }
    assert (Hn' : length (take h' c ++ blank :: drop h' c) = length c + 1).
    { rewrite length_app, length_take. simpl. rewrite length_drop. lia. }
    split_and!.
    + unfold rb_wf; rb_simpl. rewrite Hn'. unfold wrap.
      split_and!; try lia.
      * nat_cases; lia.
      * intros _. f_equal. nat_cases; lia.
    + done.
    + exists blank. apply list_eq; intros k.
      rewrite rb_contents_lookup by (rb_simpl; lia).
      rb_simpl. cbv zeta. rewrite Hn'.
      rewrite lookup_splice by lia.
      destruct (decide (k < len)) as [Hk|Hk].
      * rewrite lookup_app_l by (rewrite rb_contents_length; rb_simpl; lia).
        rewrite rb_contents_lookup by (rb_simpl; lia). rb_simpl. cbv zeta.
        fold t'. unfold wrap.
        repeat case_decide; nat_cases; try lia; f_equal; lia.
      * rewrite lookup_app_r by (rewrite rb_contents_length; rb_simpl; lia).
        rewrite rb_contents_length by (rb_simpl; lia). rb_simpl.
        unfold wrap.
        destruct (decide (k = len)) as [->|].
        -- rewrite Nat.sub_diag. simpl.
           repeat case_decide; nat_cases; try lia; done.
        -- destruct (k - len) as [|m] eqn:Em; [lia|]. simpl.
           case_decide; [lia|]. by rewrite lookup_nil.
  - (* reuse *)
    assert (Hne : 0 < length c ∧ len < length c ∧ h' < length c ∧ t' < length c).
    { apply andb_false_iff in E.
      destruct E as [E|E].
      - apply Nat.eqb_neq in E. lia.
      - apply orb_false_iff in E as [E1 E2].
        apply Nat.ltb_ge in E1. apply Nat.eqb_neq in E2. lia. }
    destruct Hne as (Hn & Hlen & Hh & Ht).
    destruct (lookup_lt_is_Some_2 c h' Hh) as [v0 Hv0].
    split_and!.
    + unfold rb_wf; rb_simpl. fold t'. unfold wrap.
      split_and!; try lia.
      * nat_cases; lia.
      * intros _. clear E H6. nat_cases; try lia; f_equal; lia.
    + done.
    + exists v0. apply list_eq; intros k.
      assert (Hwt : wrap (length c) t' = t') by (unfold wrap; nat_cases; lia).
      rewrite rb_contents_lookup by (rb_simpl; lia). rb_simpl. cbv zeta.
      rewrite Hwt.
      destruct (decide (k < len)) as [Hk|Hk].
      * rewrite lookup_app_l by (rewrite rb_contents_length; rb_simpl; lia).
        rewrite rb_contents_lookup by (rb_simpl; lia). rb_simpl. cbv zeta. fold t'.
        repeat case_decide; try lia; done.
      * rewrite lookup_app_r by (rewrite rb_contents_length; rb_simpl; lia).
        rewrite rb_contents_length by (rb_simpl; lia). rb_simpl.
        destruct (decide (k = len)) as [->|].
        -- rewrite Nat.sub_diag. simpl. rewrite <- Hv0.
           repeat case_decide; try lia; f_equal; lia.
        -- destruct (k - len) as [|m] eqn:Em; [lia|]. simpl.
           case_decide; [lia|]. by rewrite lookup_nil.
Qed.

(** A push at the maximum length first drops the oldest item. *)
Lemma rb_push_evicts rb :
  RB._maxSize ≤ RB._length rb → RB._length rb ≤ RB._maxSize →
  RB.push rb = RB.push (RB.pop rb).2.
Proof.
  intros Hge Hle. unfold RB.push at 1 2.
  rewrite rb_pop_length.
  destruct (Nat.leb_spec RB._maxSize (RB._length rb)) as [_|?]; [|lia].
  destruct (Nat.leb_spec RB._maxSize (RB._length rb - 1)) as [Hc|_]; [|done].
  unfold RB._maxSize in *. lia.
Qed.

Lemma rb_push_spec rb :
  rb_wf rb →
  rb_wf (RB.push rb) ∧
  RB._length (RB.push rb) = (RB._length rb + 1) `min` RB._maxSize ∧
  ∃ v0, rb_contents (RB.push rb) =
        (if RB._length rb <? RB._maxSize then rb_contents rb
         else tail (rb_contents rb)) ++ [v0].
Proof.
  intros Hwf.
  destruct (Nat.ltb_spec (RB._length rb) RB._maxSize) as [Hroom|Hfull].
  - destruct (rb_push_room rb Hwf Hroom) as (Hwf' & Hlen & v0 & Hc).
    split_and!; [done|lia|by exists v0].
  - assert (Hle : RB._length rb ≤ RB._maxSize) by apply Hwf.
    rewrite rb_push_evicts by done.
    pose proof (rb_pop_wf rb Hwf) as Hwfp.
    pose proof (rb_pop_length rb) as Hlenp.
    destruct (rb_pop_contents rb Hwf) as [_ Hcp].
    assert (Hroom : RB._length (RB.pop rb).2 < RB._maxSize).
    { unfold RB._maxSize in *. lia. }
    destruct (rb_push_room _ Hwfp Hroom) as (Hwf' & Hlen & v0 & Hc).
    split_and!; [done|unfold RB._maxSize in *; lia|].
    exists v0. by rewrite Hc, Hcp.
Qed.

Lemma rb_push_wf rb : rb_wf rb → rb_wf (RB.push rb).
Proof. intros Hwf. apply (rb_push_spec rb Hwf). Qed.

Lemma rb_push_length_pos rb : rb_wf rb → 0 < RB._length (RB.push rb).
Proof.
  intros Hwf. destruct (rb_push_spec rb Hwf) as (_ & -> & _).
  unfold RB._maxSize. lia.
Qed.

(** Assigning through [pushed] changes the newest queued item, and
    nothing else. *)
Lemma rb_set_pushed_spec upd rb :
  rb_wf rb → 0 < RB._length rb →
  ∃ rb', RB.set_pushed upd rb = Ok rb' ∧ rb_wf rb' ∧
         RB._length rb' = RB._length rb ∧
         rb_contents rb' = alter upd (RB._length rb - 1) (rb_contents rb).
Proof.
  intros Hwf Hpos.
  destruct Hwf as (H1 & H2 & H3 & H4 & H5 & H6).
  destruct rb as [h t len c p lbl]. rb_simpl.
  assert (Hn : 0 < length c) by lia.
  specialize (H6 Hn). subst p.
  unfold RB.set_pushed. rb_simpl.
  eexists. split; [done|].
  split_and!.
  - unfold rb_wf; rb_simpl. rewrite length_alter. split_and!; done.
  - done.
  - apply list_eq; intros k.
    rewrite list_lookup_alter.
    rewrite !rb_contents_lookup by (rb_simpl; rewrite ?length_alter; lia).
    rb_simpl. cbv zeta. rewrite length_alter.
    rewrite list_lookup_alter.
    unfold wrap in *.
    repeat case_decide; try done; nat_cases; try lia;
      try (f_equal; f_equal; lia).
Qed.

Lemma rb_get_pushed_spec rb :
  rb_wf rb → 0 < RB._length rb →
  ∃ v, RB.get_pushed rb = Ok v ∧ last (rb_contents rb) = Some v.
Proof.
  intros Hwf Hpos.
  destruct Hwf as (H1 & H2 & H3 & H4 & H5 & H6).
  rewrite last_lookup, rb_contents_length by done.
  rewrite rb_contents_lookup by done.
  destruct rb as [h t len c p lbl]. rb_simpl.
  assert (Hn : 0 < length c) by lia.
  specialize (H6 Hn). subst p.
  unfold RB.get_pushed. rb_simpl. cbv zeta.
  set (i := Init.Nat.pred (if h =? 0 then length c else h)).
  assert (Hi : i < length c) by (subst i; nat_cases; lia).
  destruct (lookup_lt_is_Some_2 c i Hi) as [v Hv].
  exists v. rewrite Hv. split; [done|].
  rewrite <- Hv. subst i. unfold wrap in *.
  repeat case_decide; nat_cases; try lia; f_equal; lia.
Qed.
End Ring.

(** ** Capture and drain on the queue the buffers hold *)

Section Select.
Context {T : Type} `{Blank T} (sel : Queued → option T).

Lemma omap_snoc_None (q : list Queued) x :
  sel x = None → omap sel (q ++ [x]) = omap sel q.
Proof. intros E. rewrite omap_app. simpl. rewrite E. apply app_nil_r. Qed.

Lemma omap_snoc_Some (q : list Queued) x v :
  sel x = Some v → omap sel (q ++ [x]) = omap sel q ++ [v].
Proof. intros E. rewrite omap_app. simpl. by rewrite E. Qed.

Lemma omap_length_le (q : list Queued) : length (omap sel q) ≤ length q.
Proof.
  induction q as [|x q IH]; [done|].
  change (omap sel (x :: q)) with
    (match sel x with Some y => y :: omap sel q | None => omap sel q end).
  destruct (sel x); simpl; lia.
Qed.

Lemma push_item_sel (rb : RB.t T) q x v :
  rb_wf rb → rb_contents rb = omap sel q → sel x = Some v →
  length q < RB._maxSize →
  ∃ rb', RB.set_pushed (λ _, v) (RB.push rb) = Ok rb' ∧ rb_wf rb' ∧
         rb_contents rb' = omap sel (q ++ [x]).
Proof.
  intros Hwf Hc Hx Hroom.
  assert (Hlen : RB._length rb = length (omap sel q)).
  { rewrite <- Hc, rb_contents_length; [done|apply Hwf]. }
  pose proof (omap_length_le q).
  destruct (rb_push_room rb Hwf) as (Hwf1 & Hlen1 & v0 & Hc1); [lia|].
  destruct (rb_set_pushed_spec (λ _, v) (RB.push rb) Hwf1)
    as (rb' & Hset & Hwf' & Hlen' & Hc'); [lia|].
  exists rb'. split_and!; [done..|].
  rewrite Hc', Hc1, Hlen1, Hc, Hlen.
  replace (length (omap sel q) + 1 - 1) with (length (omap sel q) + 0) by lia.
  rewrite alter_app_r. simpl. by rewrite (omap_snoc_Some q x v).
Qed.

Lemma merge_sel (rb : RB.t T) upd q x x' v :
  rb_wf rb → rb_contents rb = omap sel (q ++ [x]) → sel x = Some v →
  sel x' = Some (upd v) →
  ∃ rb', RB.set_pushed upd rb = Ok rb' ∧ rb_wf rb' ∧
         rb_contents rb' = omap sel (q ++ [x']).
Proof.
  intros Hwf Hc Hx Hx'.
  rewrite (omap_snoc_Some q x v Hx) in Hc.
  assert (Hlen : RB._length rb = length (omap sel q) + 1).
  { rewrite <- (rb_contents_length rb), Hc, length_app by apply Hwf. done. }
  destruct (rb_set_pushed_spec upd rb Hwf)
    as (rb' & Hset & Hwf' & Hlen' & Hc'); [lia|].
  exists rb'. split_and!; [done..|].
  rewrite Hc', Hc, Hlen.
  replace (length (omap sel q) + 1 - 1) with (length (omap sel q) + 0) by lia.
  rewrite alter_app_r. simpl. by rewrite (omap_snoc_Some q x' _ Hx').
Qed.
End Select.

Lemma inv_all_length w q :
  Inv w q → RB._length (Controller._allEvents (this w)) = length q.
Proof.
  intros HI.
  rewrite <- (rb_contents_length (Controller._allEvents (this w)))
    by apply (inv_wf_all _ _ HI).
  rewrite <- (length_fmap IEvent.buffer), (inv_all _ _ HI).
  by rewrite length_fmap.
Qed.

Lemma push_all_sel (a : RB.t IEvent.t) q x :
  rb_wf a →
  IEvent.buffer <$> rb_contents a = (λ x, Some (queue_of x)) <$> q →
  length q < RB._maxSize →
  ∃ a', RB.set_pushed (IEvent.set_buffer (queue_of x)) (RB.push a) = Ok a' ∧
        rb_wf a' ∧
        IEvent.buffer <$> rb_contents a'
        = (λ x, Some (queue_of x)) <$> (q ++ [x]).
Proof.
  intros Hwf Hc Hroom.
  assert (Hlen : RB._length a = length q).
  { rewrite <- (rb_contents_length a) by apply Hwf.
    rewrite <- (length_fmap IEvent.buffer), Hc. by rewrite length_fmap. }
  destruct (rb_push_room a Hwf) as (Hwf1 & Hlen1 & v0 & Hc1); [lia|].
  destruct (rb_set_pushed_spec (IEvent.set_buffer (queue_of x)) (RB.push a) Hwf1)
    as (a' & Hset & Hwf' & Hlen' & Hc'); [lia|].
  exists a'. split_and!; [done..|].
  rewrite Hc', Hc1, Hlen1, Hlen.
  assert (Hl : length (rb_contents a) = length q).
  { rewrite rb_contents_length; [done|apply Hwf]. }
  replace (length q + 1 - 1) with (length (rb_contents a) + 0) by lia.
  rewrite alter_app_r. simpl. rewrite !fmap_app, Hc. done.
Qed.

Lemma last_pushed_is_spec b w q :
  Inv w q →
  last_pushed_is b w = Ok (bool_decide (queue_of <$> last q = Some b)).
Proof.
  intros HI. unfold last_pushed_is, RB.length.
  rewrite (inv_all_length w q HI).
  destruct (Nat.ltb_spec 0 (length q)) as [Hpos|Hz].
  - destruct (rb_get_pushed_spec (Controller._allEvents (this w)))
      as (v & Hget & Hlast).
    { apply (inv_wf_all _ _ HI). }
    { by rewrite (inv_all_length w q HI). }
    rewrite Hget. simpl.
    assert (Hb : IEvent.buffer v = queue_of <$> last q ∧ is_Some (last q)).
    { pose proof (inv_all _ _ HI) as Hall.
      apply (f_equal last) in Hall. rewrite !fmap_last, Hlast in Hall.
      simpl in Hall. destruct (last q) as [x|]; simpl in *; [|done].
      split; [congruence|eauto]. }
    destruct Hb as [Hb _]. rewrite Hb. done.
  - destruct q; simpl in *; [done|lia].
Qed.

Lemma last_snoc_inv {A} (q : list A) x :
  last q = Some x → q = removelast q ++ [x].
Proof.
  intros Hl. destruct q as [|y q] using rev_ind; [done|].
  rewrite last_snoc in Hl. injection Hl as ->.
  by rewrite removelast_last.
Qed.

Ltac inv_fields HI :=
  pose proof (inv_wf_all _ _ HI) as Hwf_all;
  pose proof (inv_wf_bd _ _ HI) as Hwf_bd;
  pose proof (inv_wf_bu _ _ HI) as Hwf_bu;
  pose proof (inv_wf_dt _ _ HI) as Hwf_dt;
  pose proof (inv_wf_t _ _ HI) as Hwf_t;
  pose proof (inv_wf_mt _ _ HI) as Hwf_mt;
  pose proof (inv_all _ _ HI) as Hq_all;
  pose proof (inv_bd _ _ HI) as Hq_bd;
  pose proof (inv_bu _ _ HI) as Hq_bu;
  pose proof (inv_dt _ _ HI) as Hq_dt;
  pose proof (inv_t _ _ HI) as Hq_t;
  pose proof (inv_mt _ _ HI) as Hq_mt.

(** Appending an event of kind [x] when the queue has room. *)
Lemma push_allEvents_spec w q x :
  rb_wf (Controller._allEvents (this w)) →
  IEvent.buffer <$> rb_contents (Controller._allEvents (this w))
    = (λ x, Some (queue_of x)) <$> q →
  length q < RB._maxSize →
  ∃ a', push_allEvents (queue_of x) w
        = Ok (with_this (Controller.set__allEvents a') w) ∧
        rb_wf a' ∧
        IEvent.buffer <$> rb_contents a'
        = (λ x, Some (queue_of x)) <$> (q ++ [x]).
Proof.
  intros Hwf Hc Hroom.
  destruct (push_all_sel _ q x Hwf Hc Hroom) as (a' & Hset & Hwf' & Hc').
  exists a'. unfold push_allEvents. rewrite Hset. done.
Qed.

Lemma capture_ButtonDown_refines w q event :
  Inv w q → deferred w → length q < RB._maxSize →
  ∃ w', _addEventsButtonDown event w = Ok w' ∧
        Inv w' (q ++ [QButtonDown (ICameraInputButtonDownEvent.Build event)]) ∧
        surroundings w' = surroundings w ∧
        previous (this w') = previous (this w) ∧ log w' = log w.
Proof.
  intros HI Hd Hroom. inv_fields HI.
  set (x := QButtonDown (ICameraInputButtonDownEvent.Build event)).
  unfold _addEventsButtonDown. rewrite Hd. simpl negb. cbv iota.
  destruct (push_item_sel the_ButtonDown
              (Controller._eventsButtonDown (this w)) q x
              (ICameraInputButtonDownEvent.Build event))
    as (b & Hb & Hwfb & Hcb); [done..|].
  rewrite Hb. simpl.
  destruct (push_allEvents_spec
              (with_this (Controller.set__eventsButtonDown b) w) q x)
    as (a & Ha & Hwfa & Hca); [done..|].
  change ButtonDownBuffer with (queue_of x). rewrite Ha.
  eexists. split; [done|]. split_and!; try done.
  constructor; simpl; try done;
    rewrite omap_snoc_None by done; done.
Qed.

Lemma capture_ButtonUp_refines w q event :
  Inv w q → deferred w → length q < RB._maxSize →
  ∃ w', _addEventsButtonUp event w = Ok w' ∧
        Inv w' (q ++ [QButtonUp (ICameraInputButtonUpEvent.Build event)]) ∧
        surroundings w' = surroundings w ∧
        previous (this w') = previous (this w) ∧ log w' = log w.
Proof.
  intros HI Hd Hroom. inv_fields HI.
  set (x := QButtonUp (ICameraInputButtonUpEvent.Build event)).
  unfold _addEventsButtonUp. rewrite Hd. simpl negb. cbv iota.
  destruct (push_item_sel the_ButtonUp
              (Controller._eventsButtonUp (this w)) q x
              (ICameraInputButtonUpEvent.Build event))
    as (b & Hb & Hwfb & Hcb); [done..|].
  rewrite Hb. simpl.
  destruct (push_allEvents_spec
              (with_this (Controller.set__eventsButtonUp b) w) q x)
    as (a & Ha & Hwfa & Hca); [done..|].
  change ButtonUpBuffer with (queue_of x). rewrite Ha.
  eexists. split; [done|]. split_and!; try done.
  constructor; simpl; try done;
    rewrite omap_snoc_None by done; done.
Qed.

Lemma capture_DoubleTap_refines w q ty :
  Inv w q → deferred w → length q < RB._maxSize →
  ∃ w', _addEventsDoubleTap ty w = Ok w' ∧
        Inv w' (q ++ [QDoubleTap (ICameraInputDoubleTapEvent.Build ty)]) ∧
        surroundings w' = surroundings w ∧
        previous (this w') = previous (this w) ∧ log w' = log w.
Proof.
  intros HI Hd Hroom. inv_fields HI.
  set (x := QDoubleTap (ICameraInputDoubleTapEvent.Build ty)).
  unfold _addEventsDoubleTap. rewrite Hd. simpl negb. cbv iota.
  destruct (push_item_sel the_DoubleTap
              (Controller._eventsDoubleTap (this w)) q x
              (ICameraInputDoubleTapEvent.Build ty))
    as (b & Hb & Hwfb & Hcb); [done..|].
  rewrite Hb. simpl.
  destruct (push_allEvents_spec
              (with_this (Controller.set__eventsDoubleTap b) w) q x)
    as (a & Ha & Hwfa & Hca); [done..|].
  change DoubleTapBuffer with (queue_of x). rewrite Ha.
  eexists. split; [done|]. split_and!; try done.
  constructor; simpl; try done;
    rewrite omap_snoc_None by done; done.
Qed.

Lemma capture_Touch_refines w q point dx dy :
  Inv w q → deferred w →
  length (absorb (this w) q (Touch point dx dy)) ≤ RB._maxSize →
  ∃ w', _addEventsTouch point dx dy w = Ok w' ∧
        Inv w' (absorb (this w) q (Touch point dx dy)) ∧
        surroundings w' = surroundings w ∧
        previous (this w') = previous (this w) ∧ log w' = log w.
Proof.
  intros HI Hd Hroom. inv_fields HI.
  unfold _addEventsTouch. rewrite Hd. simpl negb. cbv iota.
  unfold COALESCE. rewrite (last_pushed_is_spec _ w q HI). simpl mbind.
  unfold absorb in *.
  destruct (last q) as [[e|e|e|e|e]|] eqn:Hlast; simpl bool_decide;
    try rewrite bool_decide_eq_false_2 by (simpl; congruence);
    try rewrite bool_decide_eq_true_2 by done; cbv iota.
  4: {
    (* merge into the waiting Touch event *)
    pose proof (last_snoc_inv q _ Hlast) as Hq.
    set (q0 := removelast q) in *.
    set (upd := λ e0, ICameraInputTouchEvent.Build point
                        (ICameraInputTouchEvent.offsetX e0 + dx)%num
                        (ICameraInputTouchEvent.offsetY e0 + dy)%num).
    destruct (merge_sel the_Touch (Controller._eventsTouch (this w)) upd
                q0 (QTouch e) (QTouch (upd e)) e)
      as (b & Hb & Hwfb & Hcb); [done|by rewrite <- Hq|done|done|].
    fold upd. rewrite Hb. simpl.
    eexists. split; [done|]. split_and!; try done.
    constructor; simpl; try done.
    - rewrite fmap_app. simpl. rewrite Hq_all, Hq at 1. by rewrite fmap_app.
    - rewrite omap_snoc_None by done. rewrite Hq_bd, Hq at 1.
      by rewrite omap_snoc_None.
    - rewrite omap_snoc_None by done. rewrite Hq_bu, Hq at 1.
      by rewrite omap_snoc_None.
    - rewrite omap_snoc_None by done. rewrite Hq_dt, Hq at 1.
      by rewrite omap_snoc_None.
    - rewrite omap_snoc_None by done. rewrite Hq_mt, Hq at 1.
      by rewrite omap_snoc_None. }
  all: rewrite length_app in Hroom; simpl in Hroom.
  all: set (x := QTouch (ICameraInputTouchEvent.Build point dx dy)).
  all: destruct (push_item_sel the_Touch
              (Controller._eventsTouch (this w)) q x
              (ICameraInputTouchEvent.Build point dx dy))
    as (b & Hb & Hwfb & Hcb); [done|done|done|lia|].
  all: rewrite Hb; simpl.
  all: destruct (push_allEvents_spec
              (with_this (Controller.set__eventsTouch b) w) q x)
    as (a & Ha & Hwfa & Hca); [done|done|lia|].
  all: change TouchBuffer with (queue_of x); rewrite Ha.
  all: eexists; split; [done|]; split_and!; try done.
  all: constructor; simpl; try done;
    rewrite omap_snoc_None by done; done.
Qed.

Lemma capture_MultiTouch_refines w q a b pd d pp p :
  Inv w q → deferred w →
  length (absorb (this w) q (MultiTouch a b pd d pp p)) ≤ RB._maxSize →
  ∃ w', _addEventsMultiTouch a b pd d pp p w = Ok w' ∧
        Inv w' (absorb (this w) q (MultiTouch a b pd d pp p)) ∧
        surroundings w' = surroundings w ∧
        previous (this w') = previous (this w) ∧ log w' = log w.
Proof.
  intros HI Hd Hroom. inv_fields HI.
  unfold _addEventsMultiTouch. rewrite Hd. simpl negb. cbv iota.
  unfold COALESCE. rewrite (last_pushed_is_spec _ w q HI). simpl mbind.
  unfold absorb in *.
  destruct (last q) as [[e|e|e|e|e]|] eqn:Hlast; simpl bool_decide;
    try rewrite bool_decide_eq_false_2 by (simpl; congruence);
    try rewrite bool_decide_eq_true_2 by done; cbv iota.
  5: {
    (* merge into the waiting MultiTouch event *)
    pose proof (last_snoc_inv q _ Hlast) as Hq.
    set (q0 := removelast q) in *.
    set (upd := λ e0, ICameraInputMultiTouchEvent.Build a b
                  (ICameraInputMultiTouchEvent.previousPinchSquaredDistance e0)
                  (ICameraInputMultiTouchEvent.pinchSquaredDistance e0 + d)%num
                  (ICameraInputMultiTouchEvent.previousMultiTouchPanPosition e0)
                  p).
    destruct (merge_sel the_MultiTouch (Controller._eventsMultiTouch (this w))
                upd q0 (QMultiTouch e) (QMultiTouch (upd e)) e)
      as (bf & Hb & Hwfb & Hcb); [done|by rewrite <- Hq|done|done|].
    fold upd. rewrite Hb. simpl.
    eexists. split; [done|]. split_and!; try done.
    constructor; simpl; try done.
    - rewrite fmap_app. simpl. rewrite Hq_all, Hq at 1. by rewrite fmap_app.
    - rewrite omap_snoc_None by done. rewrite Hq_bd, Hq at 1.
      by rewrite omap_snoc_None.
    - rewrite omap_snoc_None by done. rewrite Hq_bu, Hq at 1.
      by rewrite omap_snoc_None.
    - rewrite omap_snoc_None by done. rewrite Hq_dt, Hq at 1.
      by rewrite omap_snoc_None.
    - rewrite omap_snoc_None by done. rewrite Hq_t, Hq at 1.
      by rewrite omap_snoc_None. }
  all: rewrite length_app in Hroom; simpl in Hroom.
  all: set (v := ICameraInputMultiTouchEvent.Build a b
                   (Controller._previousPinchSquaredDistance (this w)) d
                   (Controller._previousMultiTouchPanPosition (this w)) p).
  all: set (x := QMultiTouch v).
  all: destruct (push_item_sel the_MultiTouch
              (Controller._eventsMultiTouch (this w)) q x v)
    as (bf & Hb & Hwfb & Hcb); [done|done|done|lia|].
  all: rewrite Hb; simpl.
  all: destruct (push_allEvents_spec
              (with_this (Controller.set__eventsMultiTouch bf) w) q x)
    as (af & Ha & Hwfa & Hca); [done|done|lia|].
  all: change MultiTouchBuffer with (queue_of x); rewrite Ha.
  all: eexists; split; [done|]; split_and!; try done.
  all: constructor; simpl; try done;
    rewrite omap_snoc_None by done; done.
Qed.

(** Every capture call does to the buffers what [absorb] does to the
    queue. *)
Lemma capture_refines c w q :
  Inv w q → deferred w →
  length (absorb (this w) q c) ≤ RB._maxSize →
  ∃ w', capture c w = Ok w' ∧ Inv w' (absorb (this w) q c) ∧
        surroundings w' = surroundings w ∧
        previous (this w') = previous (this w) ∧ log w' = log w.
Proof.
  intros HI Hd Hroom. destruct c; simpl capture.
  - apply capture_ButtonDown_refines; [done..|].
    simpl in Hroom. rewrite length_app in Hroom. simpl in Hroom. lia.
  - apply capture_ButtonUp_refines; [done..|].
    simpl in Hroom. rewrite length_app in Hroom. simpl in Hroom. lia.
  - apply capture_DoubleTap_refines; [done..|].
    simpl in Hroom. rewrite length_app in Hroom. simpl in Hroom. lia.
  - by apply capture_Touch_refines.
  - by apply capture_MultiTouch_refines.
Qed.

Lemma absorb_length_le c q x : length q ≤ length (absorb c q x).
Proof.
  destruct x; simpl; rewrite ?length_app; simpl; try lia.
  - destruct (last q) as [[]|] eqn:E; rewrite ?length_app; simpl; try lia.
    rewrite (last_snoc_inv q _ E) at 1. rewrite length_app. simpl. lia.
  - destruct (last q) as [[]|] eqn:E; rewrite ?length_app; simpl; try lia.
    rewrite (last_snoc_inv q _ E) at 1. rewrite length_app. simpl. lia.
Qed.

Lemma absorb_all_length_le c cs q : length q ≤ length (absorb_all c q cs).
Proof.
  revert q. induction cs as [|x cs IH]; intros q; simpl; [done|].
  etrans; [apply (absorb_length_le c q x)|apply IH].
Qed.

Lemma absorb_previous c c' q x :
  previous c' = previous c → absorb c' q x = absorb c q x.
Proof.
  unfold previous. intros [= E1 E2]. destruct x; simpl; try done.
  by rewrite E1, E2.
Qed.

Lemma absorb_all_previous c c' q cs :
  previous c' = previous c → absorb_all c' q cs = absorb_all c q cs.
Proof.
  intros E. revert q. induction cs as [|x cs IH]; intros q; simpl; [done|].
  by rewrite (absorb_previous c c' q x E), IH.
Qed.

Lemma captures_refines cs w q :
  Inv w q → deferred w →
  length (absorb_all (this w) q cs) ≤ RB._maxSize →
  ∃ w', captures cs w = Ok w' ∧ Inv w' (absorb_all (this w) q cs) ∧
        surroundings w' = surroundings w ∧
        previous (this w') = previous (this w) ∧ log w' = log w.
Proof.
  revert w q. induction cs as [|c cs IH]; intros w q HI Hd Hroom.
  - exists w. by simpl.
  - simpl in *.
    destruct (capture_refines c w q HI Hd) as (w1 & Hc & HI1 & Hs1 & Hp1 & Hl1).
    { etrans; [apply absorb_all_length_le|apply Hroom]. }
    assert (Hd1 : deferred w1).
    { unfold deferred, surroundings, settings in *. congruence. }
    destruct (IH w1 _ HI1 Hd1) as (w' & Hcs & HI' & Hs' & Hp' & Hl').
    { by rewrite (absorb_all_previous _ _ _ _ Hp1). }
    exists w'. rewrite Hc. simpl. split; [done|].
    rewrite (absorb_all_previous _ _ _ _ Hp1) in HI'.
    split_and!; [done|congruence..].
Qed.

Section PopSelect.
Context {T : Type} `{Blank T} (sel : Queued → option T).

Lemma pop_sel_Some (rb : RB.t T) x q v :
  rb_wf rb → rb_contents rb = omap sel (x :: q) → sel x = Some v →
  ∃ rb', RB.pop rb = (Some v, rb') ∧ rb_wf rb' ∧
         rb_contents rb' = omap sel q.
Proof.
  intros Hwf Hc Hx.
  change (omap sel (x :: q)) with
    (match sel x with Some y => y :: omap sel q | None => omap sel q end)
    in Hc.
  rewrite Hx in Hc.
  destruct (rb_pop_contents rb Hwf) as [Hhd Htl].
  rewrite Hc in Hhd, Htl. simpl in *.
  exists (RB.pop rb).2. split_and!; [|by apply rb_pop_wf|done].
  destruct (RB.pop rb) as [o rb']. simpl in *. by subst.
Qed.

Lemma omap_cons_None (x : Queued) q :
  sel x = None → omap sel (x :: q) = omap sel q.
Proof.
  intros Hx.
  change (omap sel (x :: q)) with
    (match sel x with Some y => y :: omap sel q | None => omap sel q end).
  by rewrite Hx.
Qed.
End PopSelect.

Lemma pop_all_sel (a : RB.t IEvent.t) x q :
  rb_wf a →
  IEvent.buffer <$> rb_contents a = (λ x, Some (queue_of x)) <$> (x :: q) →
  ∃ e a', RB.pop a = (Some e, a') ∧ IEvent.buffer e = Some (queue_of x) ∧
          rb_wf a' ∧
          IEvent.buffer <$> rb_contents a' = (λ x, Some (queue_of x)) <$> q.
Proof.
  intros Hwf Hc.
  destruct (rb_pop_contents a Hwf) as [Hhd Htl].
  destruct (rb_contents a) as [|e l] eqn:E; [done|].
  simpl in Hc. injection Hc as He Hl. simpl in *.
  exists e, (RB.pop a).2. split_and!; [|done|by apply rb_pop_wf|].
  - destruct (RB.pop a) as [o a']. simpl in *. by subst.
  - by rewrite Htl.
Qed.

(** One turn of the drain loop dispatches the oldest queued event. *)
Lemma checkInputs_body_refines w x q :
  Inv w (x :: q) →
  ∃ w1, checkInputs_body w = Ok w1 ∧ Inv w1 q ∧
        log w1 = log w ++ calls_of x ∧
        surroundings w1 = surroundings w ∧
        previous (this w1)
        = match the_MultiTouch x with
          | Some e => (ICameraInputMultiTouchEvent.pinchSquaredDistance e,
                       ICameraInputMultiTouchEvent.multiTouchPanPosition e)
          | None => previous (this w)
          end.
Proof.
  intros HI. inv_fields HI.
  destruct (pop_all_sel _ x q Hwf_all Hq_all)
    as (e & a' & Hpop & He & Hwfa & Hca).
  unfold checkInputs_body. rewrite Hpop, He.
  destruct x as [v|v|v|v|v]; simpl queue_of; cbv iota.
  - destruct (pop_sel_Some the_ButtonDown _ _ q v Hwf_bd Hq_bd eq_refl)
      as (b' & Hb & Hwfb & Hcb).
    simpl. rewrite Hb. simpl.
    eexists. split; [done|]. split_and!; try done.
    all: first
      [ by (unfold dispatch_ButtonDown, dispatch_ButtonUp, dispatch_DoubleTap,
              dispatch_Touch, dispatch_MultiTouch, emit; simpl;
            rewrite <- app_assoc)
      | constructor; simpl; try done;
          rewrite <- (omap_cons_None _ (QButtonDown v) q) by done; done ].
  - destruct (pop_sel_Some the_ButtonUp _ _ q v Hwf_bu Hq_bu eq_refl)
      as (b' & Hb & Hwfb & Hcb).
    simpl. rewrite Hb. simpl.
    eexists. split; [done|]. split_and!; try done.
    all: first
      [ by (unfold dispatch_ButtonDown, dispatch_ButtonUp, dispatch_DoubleTap,
              dispatch_Touch, dispatch_MultiTouch, emit; simpl;
            rewrite <- app_assoc)
      | constructor; simpl; try done;
          rewrite <- (omap_cons_None _ (QButtonUp v) q) by done; done ].
  - destruct (pop_sel_Some the_DoubleTap _ _ q v Hwf_dt Hq_dt eq_refl)
      as (b' & Hb & Hwfb & Hcb).
    simpl. rewrite Hb. simpl.
    eexists. split; [done|]. split_and!; try done.
    all: first
      [ by (unfold dispatch_ButtonDown, dispatch_ButtonUp, dispatch_DoubleTap,
              dispatch_Touch, dispatch_MultiTouch, emit; simpl;
            rewrite <- app_assoc)
      | constructor; simpl; try done;
          rewrite <- (omap_cons_None _ (QDoubleTap v) q) by done; done ].
  - destruct (pop_sel_Some the_Touch _ _ q v Hwf_t Hq_t eq_refl)
      as (b' & Hb & Hwfb & Hcb).
    simpl. rewrite Hb. simpl.
    eexists. split; [done|]. split_and!; try done.
    all: first
      [ by (unfold dispatch_ButtonDown, dispatch_ButtonUp, dispatch_DoubleTap,
              dispatch_Touch, dispatch_MultiTouch, emit; simpl;
            rewrite <- app_assoc)
      | constructor; simpl; try done;
          rewrite <- (omap_cons_None _ (QTouch v) q) by done; done ].
  - destruct (pop_sel_Some the_MultiTouch _ _ q v Hwf_mt Hq_mt eq_refl)
      as (b' & Hb & Hwfb & Hcb).
    simpl. rewrite Hb. simpl.
    eexists. split; [done|]. split_and!; try done.
    all: first
      [ by (unfold dispatch_ButtonDown, dispatch_ButtonUp, dispatch_DoubleTap,
              dispatch_Touch, dispatch_MultiTouch, emit; simpl;
            rewrite <- app_assoc)
      | constructor; simpl; try done;
          rewrite <- (omap_cons_None _ (QMultiTouch v) q) by done; done ].
Qed.

Lemma previous_after_cons c c1 x q :
  previous c1
  = match the_MultiTouch x with
    | Some e => (ICameraInputMultiTouchEvent.pinchSquaredDistance e,
                 ICameraInputMultiTouchEvent.multiTouchPanPosition e)
    | None => previous c
    end →
  previous_after c1 q = previous_after c (x :: q).
Proof.
  intros Hp. unfold previous_after.
  change (omap the_MultiTouch (x :: q)) with
    (match the_MultiTouch x with
     | Some y => y :: omap the_MultiTouch q
     | None => omap the_MultiTouch q end).
  destruct (the_MultiTouch x) as [e|].
  - rewrite last_cons. destruct (last (omap the_MultiTouch q)); [done|].
    unfold previous in Hp. done.
  - destruct (last (omap the_MultiTouch q)); [done|].
    unfold previous in Hp. done.
Qed.

(** The drain loop dispatches the queued events oldest first and leaves
    the buffers empty; fuel equal to the length of the queue is enough. *)
Lemma checkInputs_loop_refines fuel w q :
  Inv w q → length q ≤ fuel →
  ∃ w', checkInputs_loop fuel w = Some (Ok w') ∧ Inv w' [] ∧
        log w' = log w ++ (q ≫= calls_of) ∧
        surroundings w' = surroundings w ∧
        previous (this w') = previous_after (this w) q.
Proof.
  revert fuel w. induction q as [|x q IH]; intros fuel w HI Hfuel.
  - exists w. destruct fuel; simpl; unfold RB.length;
      rewrite (inv_all_length w [] HI); simpl;
      (split_and!; [done|done|by rewrite app_nil_r|done|done]).
  - destruct fuel as [|fuel]; [simpl in Hfuel; lia|].
    simpl checkInputs_loop. unfold RB.length.
    rewrite (inv_all_length w _ HI). simpl length. simpl Nat.ltb. cbv iota.
    destruct (checkInputs_body_refines w x q HI)
      as (w1 & Hbody & HI1 & Hl1 & Hs1 & Hp1).
    rewrite Hbody.
    destruct (IH fuel w1 HI1) as (w' & Hloop & HI' & Hl' & Hs' & Hp').
    { simpl in Hfuel. lia. }
    exists w'. split_and!; [done|done| | |].
    + rewrite Hl', Hl1. simpl. by rewrite <- app_assoc.
    + congruence.
    + rewrite Hp'. by apply previous_after_cons.
Qed.

Lemma checkInputs_refines w q :
  Inv w q →
  ∃ w', checkInputs w = Some (Ok w') ∧ Inv w' [] ∧
        log w' = log w ++ (q ≫= calls_of) ∧
        surroundings w' = surroundings w ∧
        previous (this w') = previous_after (this w) q.
Proof.
  intros HI. unfold checkInputs, RB.length.
  rewrite (inv_all_length w q HI).
  by apply checkInputs_loop_refines.
Qed.

(** ** Numbers: where the arithmetic of integers is exact *)

Section Exact.
Local Open Scope Z_scope.

Lemma digits2_pos_bounds m :
  2 ^ (Z.pos (digits2_pos m) - 1) ≤ Z.pos m < 2 ^ Z.pos (digits2_pos m).
Proof.
  induction m as [m IH|m IH|]; simpl digits2_pos.
  - rewrite Pos2Z.inj_succ.
    replace (Z.succ (Z.pos (digits2_pos m)) - 1)
      with (Z.succ (Z.pos (digits2_pos m) - 1)) by lia.
    rewrite !Z.pow_succ_r by lia. lia.
  - rewrite Pos2Z.inj_succ.
    replace (Z.succ (Z.pos (digits2_pos m)) - 1)
      with (Z.succ (Z.pos (digits2_pos m) - 1)) by lia.
    rewrite !Z.pow_succ_r by lia. lia.
  - simpl. lia.
Qed.

Lemma digits2_pos_unique m d :
  2 ^ (d - 1) ≤ Z.pos m < 2 ^ d → Z.pos (digits2_pos m) = d.
Proof.
  intros [Hlo Hhi]. pose proof (digits2_pos_bounds m) as [Hlo' Hhi'].
  destruct (Z.lt_trichotomy (Z.pos (digits2_pos m)) d) as [Hlt|[->|Hgt]];
    [|done|].
  - assert (2 ^ Z.pos (digits2_pos m) ≤ 2 ^ (d - 1))
      by (apply Z.pow_le_mono_r; lia). lia.
  - assert (0 ≤ d).
    { destruct (Z.le_gt_cases 0 d); [done|].
      rewrite Z.pow_neg_r in Hhi by lia. lia. }
    assert (2 ^ d ≤ 2 ^ (Z.pos (digits2_pos m) - 1))
      by (apply Z.pow_le_mono_r; lia). lia.
Qed.

Lemma iter_xO_value m d : Z.pos (Pos.iter xO m d) = Z.pos m * 2 ^ Z.pos d.
Proof.
  revert m. induction d as [|d IH] using Pos.peano_ind; intros m.
  - simpl. lia.
  - rewrite Pos.iter_succ, Pos2Z.inj_xO, IH, Pos2Z.inj_succ, Z.pow_succ_r by lia.
    lia.
Qed.

Lemma iter_pos_nat {A} (f : A → A) n x :
  SpecFloat.iter_pos f n x = Nat.iter (Pos.to_nat n) f x.
Proof.
  revert x. induction n as [n IH|n IH|]; intros x; simpl SpecFloat.iter_pos.
  - rewrite !IH, Pos2Nat.inj_xI.
    replace (S (2 * Pos.to_nat n))%nat
      with (Pos.to_nat n + (Pos.to_nat n + 1))%nat by lia.
    rewrite !Nat.iter_add. done.
  - rewrite !IH, Pos2Nat.inj_xO.
    replace (2 * Pos.to_nat n)%nat
      with (Pos.to_nat n + Pos.to_nat n)%nat by lia.
    rewrite Nat.iter_add. done.
  - done.
Qed.

Lemma shr_1_xO_iter k m :
  Nat.iter k shr_1 (Build_shr_record (Z.pos (Nat.iter k xO m)) false false)
  = Build_shr_record (Z.pos m) false false.
Proof.
  induction k as [|k IH]; [done|].
  rewrite Nat.iter_succ_r. simpl Nat.iter at 2. simpl shr_1. apply IH.
Qed.

Lemma shr_exact m d :
  SpecFloat.iter_pos shr_1 d (Build_shr_record (Z.pos (Pos.iter xO m d)) false false)
  = Build_shr_record (Z.pos m) false false.
Proof.
  rewrite iter_pos_nat, Pos2Nat.inj_iter.
  change (nat_rect (λ _, positive) m (λ _, xO) (Pos.to_nat d))
    with (Nat.iter (Pos.to_nat d) xO m).
  apply shr_1_xO_iter.
Qed.

Lemma fexp_normal e : -1021 ≤ e → fexp prec emax e = e - 53.
Proof. unfold fexp, SpecFloat.emin, prec, emax. lia. Qed.

Lemma digits2_pos_shift c d n :
  Z.pos (digits2_pos c) = d → 0 ≤ n → ∀ M, Z.pos M = Z.pos c * 2 ^ n →
  Z.pos (digits2_pos M) = d + n.
Proof.
  intros Hd Hn M HM. apply digits2_pos_unique. rewrite HM.
  pose proof (digits2_pos_bounds c) as [Hlo Hhi]. rewrite Hd in Hlo, Hhi.
  assert (0 < 2 ^ n) by (apply Z.pow_pos_nonneg; lia).
  assert (1 ≤ d) by lia.
  replace (d + n - 1) with ((d - 1) + n) by lia.
  rewrite !Z.pow_add_r by lia. nia.
Qed.

(** A mantissa that is a 53-bit one shifted left is rounded to it
    exactly. *)
Lemma round_aux_exact s M E c n :
  Z.pos (digits2_pos c) = 53 → 0 ≤ n → Z.pos M = Z.pos c * 2 ^ n →
  -1074 ≤ E + n ≤ 971 →
  binary_round_aux prec emax s (Z.pos M) E loc_Exact
  = S754_finite s c (E + n).
Proof.
  intros Hc Hn HM HE.
  pose proof (digits2_pos_shift c 53 n Hc Hn M HM) as HdM.
  unfold binary_round_aux, shr_fexp. simpl Zdigits2. rewrite HdM.
  rewrite fexp_normal by lia.
  replace (53 + n + E - 53 - E) with n by lia.
  assert (Hshr : shr (shr_record_of_loc (Z.pos M) loc_Exact) E n
                 = (Build_shr_record (Z.pos c) false false, E + n)).
  { destruct n as [|d|d]; [| |lia].
    - simpl. rewrite Z.add_0_r. do 2 f_equal.
      rewrite Z.pow_0_r in HM. lia.
    - simpl shr. f_equal.
      assert (M = Pos.iter xO c d) as ->.
      { apply Pos2Z.inj. by rewrite iter_xO_value. }
      apply shr_exact. }
  rewrite Hshr. cbn [shr_m loc_of_shr_record round_nearest_even].
  simpl Zdigits2. rewrite Hc, fexp_normal by lia.
  replace (53 + (E + n) - 53 - (E + n)) with 0 by lia.
  cbn [shr shr_record_of_loc shr_m].
  unfold prec, emax. destruct (Z.leb_spec (E + n) (1024 - 53)); [done|lia].
Qed.

Lemma norm_value c :
  Z.pos (digits2_pos c) ≤ 53 →
  Z.pos (norm c) = Z.pos c * 2 ^ (53 - Z.pos (digits2_pos c)).
Proof.
  intros Hd. unfold norm, shl_align.
  destruct (Z.pos (digits2_pos c) - 53 - 0) as [|d|d] eqn:E; [|lia|].
  - simpl. replace (53 - Z.pos (digits2_pos c)) with 0 by lia. lia.
  - simpl. rewrite iter_xO_value. do 2 f_equal. lia.
Qed.

Lemma norm_digits c :
  Z.pos (digits2_pos c) ≤ 53 → Z.pos (digits2_pos (norm c)) = 53.
Proof.
  intros Hd.
  rewrite (digits2_pos_shift c _ (53 - Z.pos (digits2_pos c)) eq_refl);
    [lia|lia|by apply norm_value].
Qed.

(** Rounding the integer [c * 2 ^ K], given with the exponent [-K]. *)
Lemma round_exact s M K c :
  Z.pos (digits2_pos c) ≤ 53 → 0 ≤ K → Z.pos M = Z.pos c * 2 ^ K →
  binary_round prec emax s M (- K)
  = S754_finite s (norm c) (Z.pos (digits2_pos c) - 53).
Proof.
  intros Hd HK HM. set (d := Z.pos (digits2_pos c)) in *.
  assert (1 ≤ d) by (subst d; lia).
  pose proof (digits2_pos_shift c d K eq_refl HK M HM) as HdM.
  pose proof (norm_value c Hd) as Hv. fold d in Hv.
  pose proof (norm_digits c Hd) as Hn.
  assert (0 < 2 ^ K) by (apply Z.pow_pos_nonneg; lia).
  unfold binary_round. rewrite HdM, fexp_normal by lia.
  unfold shl_align.
  destruct (d + K + - K - 53 - - K) as [|e|e] eqn:E.
  - rewrite (round_aux_exact s M (- K) (norm c) 0); [f_equal; lia|done|lia| |lia].
    rewrite Hv, HM, Z.pow_0_r. replace (53 - d) with K by lia. lia.
  - rewrite (round_aux_exact s M (- K) (norm c) (Z.pos e));
      [f_equal; lia|done|lia| |lia].
    rewrite Hv, HM, <- Z.mul_assoc, <- Z.pow_add_r by lia.
    do 2 f_equal. lia.
  - rewrite (round_aux_exact s (Pos.iter xO M e) (d + K + - K - 53)
               (norm c) 0); [f_equal; lia|done|lia| |lia].
    rewrite iter_xO_value, Hv, HM, <- Z.mul_assoc, <- Z.pow_add_r by lia.
    rewrite Z.pow_0_r. replace (K + Z.pos e) with (53 - d) by lia. lia.
Qed.

(** The number an integer below [2 ^ 53] in magnitude denotes. *)
Lemma num_finite z :
  z ≠ 0 → Z.abs z < 2 ^ 53 →
  num z = S754_finite (z <? 0) (norm (Z.to_pos (Z.abs z)))
            (Z.pos (digits2_pos (Z.to_pos (Z.abs z))) - 53).
Proof.
  intros Hz Hb. unfold num, binary_normalize.
  assert (Hd : ∀ c, Z.pos c < 2 ^ 53 → Z.pos (digits2_pos c) ≤ 53).
  { intros c Hc. pose proof (digits2_pos_bounds c) as [Hlo _].
    destruct (Z.le_gt_cases (Z.pos (digits2_pos c)) 53); [done|].
    assert (2 ^ 53 ≤ 2 ^ (Z.pos (digits2_pos c) - 1))
      by (apply Z.pow_le_mono_r; lia). lia. }
  destruct z as [|c|c]; [done| |].
  - change (Z.to_pos (Z.abs (Z.pos c))) with c.
    apply (round_exact false c 0 c); [apply Hd; lia|done|lia].
  - change (Z.to_pos (Z.abs (Z.neg c))) with c.
    apply (round_exact true c 0 c); [apply Hd; lia|done|lia].
Qed.

Lemma normalize_shift z K :
  Z.abs z < 2 ^ 53 → 0 ≤ K →
  binary_normalize prec emax (z * 2 ^ K) (- K) false = num z.
Proof.
  intros Hb HK.
  assert (0 < 2 ^ K) by (apply Z.pow_pos_nonneg; lia).
  assert (Hd : ∀ c, Z.pos c < 2 ^ 53 → Z.pos (digits2_pos c) ≤ 53).
  { intros c Hc. pose proof (digits2_pos_bounds c) as [Hlo _].
    destruct (Z.le_gt_cases (Z.pos (digits2_pos c)) 53); [done|].
    assert (2 ^ 53 ≤ 2 ^ (Z.pos (digits2_pos c) - 1))
      by (apply Z.pow_le_mono_r; lia). lia. }
  destruct z as [|c|c].
  - done.
  - rewrite num_finite by lia.
    change (Z.to_pos (Z.abs (Z.pos c))) with c.
    destruct (Z.pos c * 2 ^ K) as [|M|M] eqn:E; [lia| |lia].
    apply (round_exact false M K c); [apply Hd; lia|done|done].
  - rewrite num_finite by lia.
    change (Z.to_pos (Z.abs (Z.neg c))) with c.
    destruct (Z.neg c * 2 ^ K) as [|M|M] eqn:E; [lia|lia|].
    apply (round_exact true M K c); [apply Hd; lia|done|lia].
Qed.

Lemma shl_align_value m e e' :
  e' ≤ e → Z.pos (shl_align m e e').1 = Z.pos m * 2 ^ (e - e').
Proof.
  intros He. unfold shl_align.
  destruct (e' - e) as [|d|d] eqn:E; [|lia|]; simpl.
  - replace (e - e') with 0 by lia. lia.
  - rewrite iter_xO_value. do 2 f_equal. lia.
Qed.

Lemma cond_Zopp_mul s x y : cond_Zopp s x * y = cond_Zopp s (x * y).
Proof. destruct s; simpl; lia. Qed.

(** The integer a number [num z] stands for, read off its mantissa and
    exponent. *)
Lemma num_finite_value z :
  z ≠ 0 → Z.abs z < 2 ^ 53 →
  ∃ m e, num z = S754_finite (z <? 0) m e ∧ e ≤ 0 ∧
         cond_Zopp (z <? 0) (Z.pos m) = z * 2 ^ (- e).
Proof.
  intros Hz Hb. rewrite (num_finite z Hz Hb).
  set (c := Z.to_pos (Z.abs z)).
  assert (Hc : Z.pos c = Z.abs z) by (subst c; lia).
  assert (Hd : Z.pos (digits2_pos c) ≤ 53).
  { pose proof (digits2_pos_bounds c) as [Hlo _].
    destruct (Z.le_gt_cases (Z.pos (digits2_pos c)) 53); [done|].
    assert (2 ^ 53 ≤ 2 ^ (Z.pos (digits2_pos c) - 1))
      by (apply Z.pow_le_mono_r; lia). lia. }
  eexists _, _. split; [done|]. split; [lia|].
  rewrite (norm_value c Hd), Hc.
  replace (- (Z.pos (digits2_pos c) - 53)) with (53 - Z.pos (digits2_pos c))
    by lia.
  destruct (Z.ltb_spec z 0); simpl; lia.
Qed.

Lemma num_0 : num 0 = S754_zero false.
Proof. done. Qed.

Lemma num_opp z :
  z ≠ 0 → Z.abs z < 2 ^ 53 → num (- z) = SFopp (num z).
Proof.
  intros Hz Hb. rewrite !num_finite by lia. simpl.
  rewrite Z.abs_opp. f_equal.
  destruct (Z.ltb_spec z 0), (Z.ltb_spec (- z) 0); simpl; try done; lia.
Qed.

(** Between integers below [2 ^ 53] in magnitude, subtraction, addition and
    multiplication are exact as long as the result stays below [2 ^ 53]. *)
Lemma num_sub a b :
  Z.abs a < 2 ^ 53 → Z.abs b < 2 ^ 53 → Z.abs (a - b) < 2 ^ 53 →
  (num a - num b)%num = num (a - b).
Proof.
  intros Ha Hb Hab. unfold Number.sub.
  destruct (decide (a = 0)) as [->|Hna]; destruct (decide (b = 0)) as [->|Hnb].
  - done.
  - rewrite num_0. simpl (0 - b). rewrite num_opp by done.
    destruct (num_finite_value b Hnb Hb) as (m & e & -> & _).
    reflexivity.
  - rewrite Z.sub_0_r, num_0.
    destruct (num_finite_value a Hna Ha) as (m & e & Hm & _).
    rewrite Hm. reflexivity.
  - destruct (num_finite_value a Hna Ha) as (ma & ea & -> & Hea & Hva).
    destruct (num_finite_value b Hnb Hb) as (mb & eb & -> & Heb & Hvb).
    cbn [SFsub].
    rewrite !shl_align_value by lia.
    set (ez := Z.min ea eb).
    assert (0 < 2 ^ (ea - ez)) by (apply Z.pow_pos_nonneg; lia).
    assert (0 < 2 ^ (eb - ez)) by (apply Z.pow_pos_nonneg; lia).
    rewrite <- !cond_Zopp_mul, Hva, Hvb.
    rewrite <- !Z.mul_assoc, <- !Z.pow_add_r by lia.
    replace (- ea + (ea - ez)) with (- ez) by lia.
    replace (- eb + (eb - ez)) with (- ez) by lia.
    rewrite <- Z.mul_sub_distr_r.
    replace ez with (- - ez) at 2 by lia.
    apply normalize_shift; lia.
Qed.

Lemma num_add a b :
  Z.abs a < 2 ^ 53 → Z.abs b < 2 ^ 53 → Z.abs (a + b) < 2 ^ 53 →
  (num a + num b)%num = num (a + b).
Proof.
  intros Ha Hb Hab. unfold Number.add.
  destruct (decide (a = 0)) as [->|Hna]; destruct (decide (b = 0)) as [->|Hnb].
  - done.
  - rewrite num_0. change (0 + b) with b.
    destruct (num_finite_value b Hnb Hb) as (m & e & Hm & _).
    rewrite Hm. reflexivity.
  - rewrite Z.add_0_r, num_0.
    destruct (num_finite_value a Hna Ha) as (m & e & Hm & _).
    rewrite Hm. reflexivity.
  - destruct (num_finite_value a Hna Ha) as (ma & ea & -> & Hea & Hva).
    destruct (num_finite_value b Hnb Hb) as (mb & eb & -> & Heb & Hvb).
    cbn [SFadd].
    rewrite !shl_align_value by lia.
    set (ez := Z.min ea eb).
    assert (0 < 2 ^ (ea - ez)) by (apply Z.pow_pos_nonneg; lia).
    assert (0 < 2 ^ (eb - ez)) by (apply Z.pow_pos_nonneg; lia).
    rewrite <- !cond_Zopp_mul, Hva, Hvb.
    rewrite <- !Z.mul_assoc, <- !Z.pow_add_r by lia.
    replace (- ea + (ea - ez)) with (- ez) by lia.
    replace (- eb + (eb - ez)) with (- ez) by lia.
    rewrite <- Z.mul_add_distr_r.
    replace ez with (- - ez) at 2 by lia.
    apply normalize_shift; lia.
Qed.

Lemma digits2_pos_small c : Z.pos c < 2 ^ 53 → Z.pos (digits2_pos c) ≤ 53.
Proof.
  intros Hc. pose proof (digits2_pos_bounds c) as [Hlo _].
  destruct (Z.le_gt_cases (Z.pos (digits2_pos c)) 53); [done|].
  assert (2 ^ 53 ≤ 2 ^ (Z.pos (digits2_pos c) - 1))
    by (apply Z.pow_le_mono_r; lia). lia.
Qed.

Lemma num_mul a b :
  a ≠ 0 → b ≠ 0 → Z.abs (a * b) < 2 ^ 53 →
  (num a * num b)%num = num (a * b).
Proof.
  intros Hna Hnb Hab. unfold Number.mul.
  assert (Ha : Z.abs a < 2 ^ 53) by nia.
  assert (Hb : Z.abs b < 2 ^ 53) by nia.
  rewrite (num_finite a), (num_finite b), (num_finite (a * b)) by lia.
  set (ca := Z.to_pos (Z.abs a)). set (cb := Z.to_pos (Z.abs b)).
  set (cc := Z.to_pos (Z.abs (a * b))).
  assert (Hca : Z.pos ca = Z.abs a) by (subst ca; lia).
  assert (Hcb : Z.pos cb = Z.abs b) by (subst cb; lia).
  assert (Hcc : Z.pos cc = Z.pos ca * Z.pos cb) by (subst cc; lia).
  pose proof (digits2_pos_small ca ltac:(lia)) as Hda.
  pose proof (digits2_pos_small cb ltac:(lia)) as Hdb.
  pose proof (digits2_pos_small cc ltac:(lia)) as Hdc.
  pose proof (digits2_pos_bounds ca) as [Hla Hha].
  pose proof (digits2_pos_bounds cb) as [Hlb Hhb].
  pose proof (digits2_pos_bounds cc) as [Hlc Hhc].
  set (da := Z.pos (digits2_pos ca)) in *.
  set (db := Z.pos (digits2_pos cb)) in *.
  set (dc := Z.pos (digits2_pos cc)) in *.
  assert (1 ≤ da) by (subst da; lia).
  assert (1 ≤ db) by (subst db; lia).
  assert (1 ≤ dc) by (subst dc; lia).
  (* the product has at least [da + db - 1] digits *)
  assert (Hdig : da + db - 1 ≤ dc).
  { destruct (Z.le_gt_cases (da + db - 1) dc); [done|].
    assert (2 ^ dc ≤ 2 ^ (da - 1 + (db - 1)))
      by (apply Z.pow_le_mono_r; lia).
    rewrite Z.pow_add_r in * by lia. nia. }
  cbn [SFmul].
  rewrite (round_aux_exact _ _ _ (norm cc) (53 - da - db + dc)).
  - f_equal.
    + destruct (Z.ltb_spec a 0), (Z.ltb_spec b 0), (Z.ltb_spec (a * b) 0);
        simpl; try done; nia.
    + lia.
  - by apply norm_digits.
  - lia.
  - rewrite Pos2Z.inj_mul, !norm_value by done.
    fold da db dc. rewrite Hcc.
    replace (Z.pos ca * 2 ^ (53 - da) * (Z.pos cb * 2 ^ (53 - db)))
      with (Z.pos ca * Z.pos cb * (2 ^ (53 - da) * 2 ^ (53 - db))) by lia.
    rewrite <- !Z.mul_assoc, <- !Z.pow_add_r by lia.
    do 3 f_equal. lia.
  - lia.
Qed.

Lemma num_mul_0 : (num 0 * num 0)%num = num 0.
Proof. done. Qed.

Lemma num_square a :
  a * a < 2 ^ 53 → (num a * num a)%num = num (a * a).
Proof.
  intros Ha. destruct (decide (a = 0)) as [->|Hna]; [done|].
  apply num_mul; [done|done|]. rewrite Z.abs_mul. nia.
Qed.

Lemma wrap32_small z :
  - 2 ^ 31 ≤ z < 2 ^ 31 →
  (if 2 ^ 31 <=? z `mod` 2 ^ 32 then z `mod` 2 ^ 32 - 2 ^ 32
   else z `mod` 2 ^ 32) = z.
Proof.
  intros Hz.
  destruct (Z.leb_spec (2 ^ 31) (z `mod` 2 ^ 32)) as [Hm|Hm].
  - destruct (decide (0 ≤ z)).
    + rewrite Z.mod_small in Hm by lia. lia.
    + replace z with ((z + 2 ^ 32) - 1 * 2 ^ 32) at 1 by lia.
      rewrite Zminus_mod, Z_mod_mult, Z.sub_0_r, Z.mod_mod by lia.
      rewrite Z.mod_small by lia. lia.
  - destruct (decide (0 ≤ z)).
    + by rewrite Z.mod_small by lia.
    + replace z with ((z + 2 ^ 32) - 1 * 2 ^ 32) in Hm by lia.
      rewrite Zminus_mod, Z_mod_mult, Z.sub_0_r, Z.mod_mod in Hm by lia.
      rewrite Z.mod_small in Hm by lia. lia.
Qed.

Lemma ToInt32_range x : - 2 ^ 31 ≤ ToInt32 x < 2 ^ 31.
Proof.
  destruct x as [s|s| |s m e]; simpl; try lia.
  set (t := if s then _ else _).
  pose proof (Z.mod_pos_bound t (2 ^ 32)).
  destruct (Z.leb_spec (2 ^ 31) (t `mod` 2 ^ 32)); lia.
Qed.

Lemma ToInt32_num z : - 2 ^ 31 ≤ z < 2 ^ 31 → ToInt32 (num z) = z.
Proof.
  intros Hz. destruct (decide (z = 0)) as [->|Hnz]; [done|].
  destruct (num_finite_value z Hnz ltac:(lia)) as (m & e & -> & He & Hv).
  unfold ToInt32.
  assert (0 < 2 ^ (- e)) by (apply Z.pow_pos_nonneg; lia).
  assert (Ht : (if z <? 0 then - Z.shiftl (Z.pos m) e
                else Z.shiftl (Z.pos m) e) = z).
  { rewrite Z.shiftl_div_pow2 by lia.
    destruct (Z.ltb_spec z 0); simpl in Hv.
    - replace (Z.pos m) with ((- z) * 2 ^ (- e)) by lia.
      rewrite Z.div_mul by lia. lia.
    - rewrite Hv, Z.div_mul by lia. done. }
  cbv zeta. rewrite Ht. by apply wrap32_small.
Qed.

End Exact.

(** ** Dispatch in capture order *)

Lemma absorb_kinds c q x :
  queue_of <$> absorb c q x
  = (queue_of <$> q)
      ++ (if is_merge (queue_of <$> last q) x then [] else [kind_of x]).
Proof.
  destruct x; simpl absorb; unfold is_merge; simpl;
    rewrite ?fmap_app; try done.
  - destruct (last q) as [[]|] eqn:E; simpl; rewrite ?fmap_app; try done.
    rewrite (last_snoc_inv q _ E) at 2. rewrite fmap_app, app_nil_r. done.
  - destruct (last q) as [[]|] eqn:E; simpl; rewrite ?fmap_app; try done.
    rewrite (last_snoc_inv q _ E) at 2. rewrite fmap_app, app_nil_r. done.
Qed.

Lemma absorb_last c q x : queue_of <$> last (absorb c q x) = Some (kind_of x).
Proof.
  destruct x; simpl absorb; rewrite ?last_snoc; try done.
  - destruct (last q) as [[]|]; by rewrite last_snoc.
  - destruct (last q) as [[]|]; by rewrite last_snoc.
Qed.

Lemma absorb_all_kinds c cs q :
  queue_of <$> absorb_all c q cs
  = (queue_of <$> q)
      ++ (kind_of <$> unmerged_after (queue_of <$> last q) cs).
Proof.
  revert q. induction cs as [|x cs IH]; intros q; simpl.
  - by rewrite app_nil_r.
  - unfold absorb_all in *. rewrite IH, absorb_kinds, absorb_last.
    rewrite <- app_assoc. f_equal. rewrite fmap_app.
    by destruct (is_merge _ x).
Qed.

Lemma unmerged_merges p cs :
  length (unmerged_after p cs) + merges_after p cs = length cs.
Proof.
  revert p. induction cs as [|x cs IH]; intros p; simpl; [done|].
  rewrite length_app. specialize (IH (Some (kind_of x))).
  destruct (is_merge p x); simpl; lia.
Qed.

Lemma handler_kind_calls q :
  omap handler_kind (q ≫= calls_of) = queue_of <$> q.
Proof.
  induction q as [|x q IH]; [done|].
  rewrite bind_cons, omap_app, IH. by destruct x.
Qed.

Lemma notification_kind_calls q :
  omap notification_kind (q ≫= calls_of) = queue_of <$> q.
Proof.
  induction q as [|x q IH]; [done|].
  rewrite bind_cons, omap_app, IH. by destruct x.
Qed.

Lemma since_app before w l : log w = before ++ l → since before w = l.
Proof. intros E. unfold since. rewrite E. by rewrite drop_app_length. Qed.

Lemma absorb_all_length c cs :
  length (absorb_all c [] cs) = length cs - merges cs.
Proof.
  rewrite <- (length_fmap queue_of), absorb_all_kinds. simpl.
  rewrite length_fmap. pose proof (unmerged_merges None cs).
  unfold merges. lia.
Qed.

(** A frame from empty buffers dispatches what [absorb_all] queued. *)
Lemma frame_refines cs w :
  Inv w [] → deferred w →
  length (absorb_all (this w) [] cs) ≤ RB._maxSize →
  ∃ w', frame cs w = Some w' ∧ Inv w' [] ∧
        log w' = log w ++ (absorb_all (this w) [] cs ≫= calls_of) ∧
        surroundings w' = surroundings w ∧
        previous (this w')
        = previous_after (this w) (absorb_all (this w) [] cs).
Proof.
  intros HI Hd Hroom.
  destruct (captures_refines cs w [] HI Hd) as (w1 & Hc & HI1 & Hs1 & Hp1 & Hl1).
  { done. }
  destruct (checkInputs_refines w1 _ HI1) as (w2 & Hd2 & HI2 & Hl2 & Hs2 & Hp2).
  exists w2. unfold frame. rewrite Hc, Hd2.
  split_and!; [done|done|congruence|congruence|].
  rewrite Hp2. unfold previous_after.
  destruct (last _); [done|]. apply Hp1.
Qed.

(** C1, within the capacity of the ring buffers.  From empty buffers and
    with deferred callbacks, a frame of [N] capture calls of which at most
    [_maxSize] = 50 are not merged into the event queued before them ends
    normally, and its drain calls the handler of each kind, and notifies its
    observers, [N] minus the number of merges times, kind by kind in the order
    of the capture calls that were not merged.  The calls logged are exactly
    those of the queue the capture calls build up. *)
Theorem dispatch_in_capture_order (w : World) (cs : list Capture) :
  Inv w [] → deferred w →
  length cs - merges cs ≤ RB._maxSize →
  dispatches_in_capture_order w cs ∧
  ∃ w', frame cs w = Some w' ∧
        log w' = log w ++ (absorb_all (this w) [] cs ≫= calls_of).
Proof.
  intros HI Hd Hroom.
  destruct (frame_refines cs w HI Hd) as (w' & Hf & HI' & Hl & _).
  { by rewrite absorb_all_length. }
  split; [|by exists w'].
  exists w'. split; [done|].
  rewrite (since_app _ _ _ Hl).
  rewrite handler_kind_calls, notification_kind_calls.
  rewrite absorb_all_kinds. simpl.
  rewrite !length_fmap. pose proof (unmerged_merges None cs).
  unfold merges, unmerged. split_and!; try done; lia.
Qed.

Lemma Inv_attach npd el : Inv (attachControl npd el) [].
Proof. constructor; try apply rb_wf_new; done. Qed.

(** C1 fails beyond the capacity: of 51 [ButtonDown] capture calls in one
    frame the oldest is dropped, and the drain calls [onButtonDown] 50
    times. *)
Lemma dispatch_in_capture_order_overflow :
  ¬ dispatches_in_capture_order (attachControl false None)
      (replicate 51 (ButtonDown blank_PointerEvent)).
Proof.
  intros (w' & Hf & Hn & _).
  vm_compute in Hf. injection Hf as <-.
  vm_compute in Hn. discriminate.
Qed.

(** ** Overflow and [clear()] *)

Lemma newest_app_newest {A} n (l l' : list A) :
  newest n (newest n l ++ l') = newest n (l ++ l').
Proof.
  unfold newest. rewrite !length_app, length_drop.
  destruct (decide (length l ≤ n)) as [Hle|Hgt].
  - replace (length l - n) with 0 by lia. simpl. f_equal. lia.
  - replace (length l - (length l - n) + length l' - n) with (length l') by lia.
    replace (length l + length l' - n) with ((length l - n) + length l') by lia.
    rewrite <- drop_drop. f_equal.
    rewrite drop_app_le by lia. done.
Qed.

Section RingQueue.
Context {T : Type} `{Blank T}.
Implicit Types rb : RB.t T.

Lemma rb_set_pushed_wf upd rb rb' :
  rb_wf rb → RB.set_pushed upd rb = Ok rb' → rb_wf rb'.
Proof.
  intros (H1 & H2 & H3 & H4 & H5 & H6).
  destruct rb as [h t len c p lbl]. unfold RB.set_pushed. rb_simpl.
  destruct p as [|i|v]; intros [= <-]; unfold rb_wf; rb_simpl.
  - rewrite length_alter. split_and!; done.
  - split_and!; try done. intros Hn. by specialize (H6 Hn).
Qed.

Lemma rb_reachable_wf rb : rb_reachable rb → rb_wf rb.
Proof.
  induction 1.
  - apply rb_wf_new.
  - by apply rb_push_wf.
  - by apply rb_pop_wf.
  - apply rb_wf_clear.
  - by eapply rb_set_pushed_wf.
Qed.

Lemma rb_push_item_spec v rb :
  rb_wf rb →
  ∃ rb', rb_push_item v rb = Ok rb' ∧ rb_wf rb' ∧
         rb_contents rb' = newest RB._maxSize (rb_contents rb ++ [v]).
Proof.
  intros Hwf.
  destruct (rb_push_spec rb Hwf) as (Hwf1 & Hlen1 & v0 & Hc1).
  destruct (rb_set_pushed_spec (λ _, v) (RB.push rb) Hwf1)
    as (rb' & Hset & Hwf' & Hlen' & Hc'); [by apply rb_push_length_pos|].
  exists rb'. split_and!; [done..|].
  assert (Hl : length (rb_contents rb) = RB._length rb).
  { apply rb_contents_length, Hwf. }
  assert (Hle : RB._length rb ≤ RB._maxSize) by apply Hwf.
  rewrite Hc', Hc1, Hlen1. unfold newest. rewrite length_app. simpl.
  destruct (Nat.ltb_spec (RB._length rb) RB._maxSize) as [Hroom|Hfull].
  - replace (length (rb_contents rb) + 1 - RB._maxSize) with 0 by lia.
    simpl.
    replace ((RB._length rb + 1) `min` RB._maxSize - 1)
      with (length (rb_contents rb) + 0) by lia.
    by rewrite alter_app_r.
  - replace (length (rb_contents rb) + 1 - RB._maxSize) with 1 by lia.
    destruct (rb_contents rb) as [|x l] eqn:E.
    { unfold RB._maxSize in *. simpl in *. lia. }
    simpl in *.
    replace ((RB._length rb + 1) `min` RB._maxSize - 1)
      with (length l + 0) by lia.
    by rewrite alter_app_r.
Qed.

Lemma rb_push_items_spec vs rb :
  rb_wf rb →
  ∃ rb', rb_push_items vs rb = Ok rb' ∧ rb_wf rb' ∧
         rb_contents rb' = newest RB._maxSize (rb_contents rb ++ vs).
Proof.
  revert rb. induction vs as [|v vs IH]; intros rb Hwf; simpl.
  - exists rb. split_and!; [done..|].
    rewrite app_nil_r. unfold newest.
    replace (length (rb_contents rb) - RB._maxSize) with 0; [done|].
    rewrite rb_contents_length by apply Hwf.
    assert (RB._length rb ≤ RB._maxSize) by apply Hwf. lia.
  - destruct (rb_push_item_spec v rb Hwf) as (rb1 & Hp & Hwf1 & Hc1).
    destruct (IH rb1 Hwf1) as (rb' & Hps & Hwf' & Hc').
    exists rb'. rewrite Hp. simpl. split_and!; [done..|].
    rewrite Hc', Hc1, newest_app_newest, <- app_assoc. done.
Qed.

Lemma rb_pop_n_spec n rb :
  rb_wf rb → n ≤ RB._length rb →
  (rb_pop_n n rb).1 = Some <$> take n (rb_contents rb) ∧
  rb_contents (rb_pop_n n rb).2 = drop n (rb_contents rb) ∧
  rb_wf (rb_pop_n n rb).2 ∧
  RB._length (rb_pop_n n rb).2 = RB._length rb - n.
Proof.
  revert rb. induction n as [|n IH]; intros rb Hwf Hn; simpl.
  - split_and!; try done. lia.
  - destruct (rb_pop_contents rb Hwf) as [Hhd Htl].
    pose proof (rb_pop_wf rb Hwf) as Hwf1.
    pose proof (rb_pop_length rb) as Hlen1.
    destruct (RB.pop rb) as [o rb1] eqn:E. simpl in *.
    destruct (IH rb1 Hwf1) as (IH1 & IH2 & IH3 & IH4); [lia|].
    destruct (rb_pop_n n rb1) as [os rb2]. simpl in *.
    assert (Hl : length (rb_contents rb) = RB._length rb).
    { apply rb_contents_length, Hwf. }
    destruct (rb_contents rb) as [|x l]; [simpl in Hl; lia|].
    simpl in *. subst. split_and!; try done. lia.
Qed.

Lemma rb_pop_empty rb : RB._length rb = 0 → RB.pop rb = (None, rb).
Proof. intros E. unfold RB.pop. by rewrite E. Qed.
End RingQueue.

(** C3.  On any ring buffer the public methods can produce, pushing more
    than [_maxSize] = 50 items and popping none in between leaves 50 items
    queued; 50 calls of [pop()] then return the 50 newest of the items
    pushed, oldest first, and the next [pop()] returns [undefined]. *)
Theorem overflow_keeps_newest {T : Type} `{Blank T}
    (rb : RB.t T) (vs : list T) :
  rb_reachable rb → RB._maxSize < length vs →
  ∃ rb', rb_push_items vs rb = Ok rb' ∧
         RB.length rb' = RB._maxSize ∧
         (rb_pop_n RB._maxSize rb').1
         = Some <$> drop (length vs - RB._maxSize) vs ∧
         (RB.pop (rb_pop_n RB._maxSize rb').2).1 = None.
Proof.
  intros Hr Hvs. pose proof (rb_reachable_wf rb Hr) as Hwf.
  destruct (rb_push_items_spec vs rb Hwf) as (rb' & Hp & Hwf' & Hc').
  assert (Hc : rb_contents rb' = drop (length vs - RB._maxSize) vs).
  { rewrite Hc'. unfold newest. rewrite length_app.
    rewrite drop_app_ge by lia. f_equal. lia. }
  assert (Hlen : RB._length rb' = RB._maxSize).
  { rewrite <- (rb_contents_length rb') by apply Hwf'.
    rewrite Hc, length_drop. lia. }
  exists rb'. split_and!; [done|done| |].
  - destruct (rb_pop_n_spec RB._maxSize rb' Hwf') as (-> & _); [lia|].
    rewrite Hc. rewrite take_ge; [done|]. rewrite length_drop. lia.
  - destruct (rb_pop_n_spec RB._maxSize rb' Hwf') as (_ & _ & _ & Hl); [lia|].
    rewrite rb_pop_empty; [done|]. lia.
Qed.

(** A push at the maximum length drops the oldest item and queues the new
    one behind the others. *)
Lemma push_at_capacity {T : Type} `{Blank T} (rb : RB.t T) (v : T) :
  rb_wf rb → RB.length rb = RB._maxSize →
  ∃ rb', rb_push_item v rb = Ok rb' ∧ RB.length rb' = RB._maxSize ∧
         rb_contents rb' = tail (rb_contents rb) ++ [v].
Proof.
  intros Hwf Hfull. unfold RB.length in *.
  destruct (rb_push_item_spec v rb Hwf) as (rb' & Hp & Hwf' & Hc').
  assert (Hl : length (rb_contents rb) = RB._maxSize).
  { rewrite rb_contents_length; [done|apply Hwf]. }
  assert (Hc : rb_contents rb' = tail (rb_contents rb) ++ [v]).
  { rewrite Hc'. unfold newest. rewrite length_app, Hl. simpl.
    replace (RB._maxSize + 1 - RB._maxSize) with 1 by lia.
    destruct (rb_contents rb); [done|]. done. }
  exists rb'. split_and!; [done| |done].
  rewrite <- (rb_contents_length rb') by apply Hwf'.
  rewrite Hc, length_app. destruct (rb_contents rb); simpl in *;
    unfold RB._maxSize in *; lia.
Qed.

(** C7.  [clear()] does not keep the backing array, against the claim and
    against the comment of the class ("will grow in size ... but never
    shrink; when elements are popped, the allocated memory is retained for
    reuse later"): after one [push()] the backing array holds one slot, and
    [clear()] leaves an empty array, so that the next [push()] allocates a
    slot again. *)
Lemma clear_keeps_storage_fails :
  length (RB._container
            (RB.push (RB.new "Touch" : RB.t ICameraInputTouchEvent.t))) = 1 ∧
  length (RB._container
            (RB.clear
               (RB.push (RB.new "Touch" : RB.t ICameraInputTouchEvent.t))))
  = 0 ∧
  ¬ clear_keeps_storage
      (RB.push (RB.new "Touch" : RB.t ICameraInputTouchEvent.t)).
Proof.
  split_and!; [done|done|].
  intros (_ & _ & _ & Hc). vm_compute in Hc. discriminate.
Qed.

(** ** Coalescing of [Touch] events *)

(** *** Runs of [Touch] capture calls *)

Lemma absorb_touch_run c q e ts :
  absorb_all c (q ++ [QTouch e]) (touch_of <$> ts)
  = q ++ [QTouch (fold_left merge_touch ts e)].
Proof.
  revert e. induction ts as [|t ts IH]; intros e; simpl; [done|].
  rewrite last_snoc, removelast_last. apply IH.
Qed.

Lemma accumulate_cons x y l : accumulate x (y :: l) = accumulate (x + y) l.
Proof. done. Qed.

Lemma accumulate_snoc x l y :
  accumulate x (l ++ [y]) = (accumulate x l + y)%num.
Proof. unfold accumulate. by rewrite fold_left_app. Qed.

Lemma merge_touch_run_offsetX ts e :
  ICameraInputTouchEvent.offsetX (fold_left merge_touch ts e)
  = accumulate (ICameraInputTouchEvent.offsetX e) (offsetsX ts).
Proof.
  revert e. induction ts as [|t ts IH]; intros e; [done|].
  simpl fold_left. rewrite IH. done.
Qed.

Lemma merge_touch_run_offsetY ts e :
  ICameraInputTouchEvent.offsetY (fold_left merge_touch ts e)
  = accumulate (ICameraInputTouchEvent.offsetY e) (offsetsY ts).
Proof.
  revert e. induction ts as [|t ts IH]; intros e; [done|].
  simpl fold_left. rewrite IH. done.
Qed.

Lemma merge_touch_run_point ts e :
  ICameraInputTouchEvent.point (fold_left merge_touch ts e)
  = match last ts with
    | Some t => t.1.1
    | None => ICameraInputTouchEvent.point e
    end.
Proof.
  revert e. induction ts as [|t ts IH]; intros e; simpl; [done|].
  rewrite IH. rewrite last_cons. by destruct (last ts).
Qed.

Lemma merge_touch_run t ts :
  fold_left merge_touch ts (ICameraInputTouchEvent.Build t.1.1 t.1.2 t.2)
  = ICameraInputTouchEvent.Build (default t (last ts)).1.1
      (accumulate t.1.2 (offsetsX ts)) (accumulate t.2 (offsetsY ts)).
Proof.
  set (e := ICameraInputTouchEvent.Build t.1.1 t.1.2 t.2).
  pose proof (merge_touch_run_point ts e) as Hp.
  pose proof (merge_touch_run_offsetX ts e) as Hx.
  pose proof (merge_touch_run_offsetY ts e) as Hy.
  destruct (fold_left merge_touch ts e) as [p x y]. simpl in *.
  subst. by destruct (last ts).
Qed.

Lemma absorb_first c x :
  ∃ y, absorb c [] x = [y] ∧ queue_of y = kind_of x.
Proof. destruct x; simpl; eauto. Qed.

Lemma absorb_other c l y x :
  last l = Some y →
  kind_of x ≠ queue_of y ∨ coalescing (kind_of x) = false →
  ∃ z, absorb c l x = l ++ [z] ∧ queue_of z = kind_of x.
Proof.
  intros Hl Hk. destruct x; simpl; eauto; rewrite Hl.
  - destruct y; simpl in *; eauto. destruct Hk; done.
  - destruct y; simpl in *; eauto. destruct Hk; done.
Qed.

Lemma absorb_all_app c q cs cs' :
  absorb_all c q (cs ++ cs') = absorb_all c (absorb_all c q cs) cs'.
Proof. apply fold_left_app. Qed.

Lemma is_onTouch_calls y :
  filter is_onTouch (calls_of y)
  = match y with
    | QTouch e =>
        [onTouch (ICameraInputTouchEvent.point e)
           (ICameraInputTouchEvent.offsetX e)
           (ICameraInputTouchEvent.offsetY e)]
    | _ => []
    end.
Proof. by destruct y. Qed.

(** *** Only the newest queued event is ever merged into *)

Lemma absorb_nonempty c q x : absorb c q x ≠ [].
Proof.
  destruct x; simpl; try by destruct q.
  - destruct (last q) as [[]|]; by destruct (removelast q), q.
  - destruct (last q) as [[]|]; by destruct (removelast q), q.
Qed.

Lemma last_app_nonempty {A} (q l : list A) : l ≠ [] → last (q ++ l) = last l.
Proof.
  intros Hl. destruct (exists_last Hl) as (l' & y & ->).
  by rewrite app_assoc, !last_snoc.
Qed.

Lemma absorb_prefix c q l x :
  l ≠ [] → absorb c (q ++ l) x = q ++ absorb c l x.
Proof.
  intros Hl. destruct x; simpl; rewrite ?app_assoc; try done.
  - rewrite (last_app_nonempty q l Hl).
    destruct (last l) as [[]|]; rewrite ?app_assoc; try done.
    by rewrite removelast_app.
  - rewrite (last_app_nonempty q l Hl).
    destruct (last l) as [[]|]; rewrite ?app_assoc; try done.
    by rewrite removelast_app.
Qed.

Lemma absorb_all_prefix c q l cs :
  l ≠ [] → absorb_all c (q ++ l) cs = q ++ absorb_all c l cs.
Proof.
  revert l. induction cs as [|x cs IH]; intros l Hl; [done|].
  unfold absorb_all in *. simpl.
  rewrite absorb_prefix by done. apply IH, absorb_nonempty.
Qed.

(** A capture call that is not merged starts a part of the queue that the
    events queued before it have no influence on. *)
Lemma absorb_all_fresh c q y x cs :
  last q = Some y →
  kind_of x ≠ queue_of y ∨ coalescing (kind_of x) = false →
  absorb_all c q (x :: cs) = q ++ absorb_all c [] (x :: cs).
Proof.
  intros Hl Hk.
  destruct (absorb_other c q y x Hl Hk) as (z & Hz & Hkz).
  destruct (absorb_first c x) as (z' & Hz' & _).
  assert (z' = z) as ->.
  { destruct x; simpl in Hz, Hz'; rewrite ?Hl in Hz.
    - apply app_inv_head in Hz. congruence.
    - apply app_inv_head in Hz. congruence.
    - apply app_inv_head in Hz. congruence.
    - destruct y; simpl in Hk; try (apply app_inv_head in Hz; congruence).
      by destruct Hk.
    - destruct y; simpl in Hk; try (apply app_inv_head in Hz; congruence).
      by destruct Hk. }
  change (absorb_all c q (x :: cs)) with (absorb_all c (absorb c q x) cs).
  change (absorb_all c [] (x :: cs)) with (absorb_all c (absorb c [] x) cs).
  rewrite Hz, Hz'. by apply (absorb_all_prefix c q [z] cs).
Qed.

(** C2, within the capacity of the ring buffers.  In a frame captured on
    empty buffers with deferred callbacks, of whose capture calls at most
    [_maxSize] = 50 are not merged, [K] = 1 + [length ts] consecutive [Touch]
    capture calls between a capture call [a] and a capture call [b] of other
    kinds make the drain call [onTouch] exactly once, between the calls for
    [a] and for [b]: with the contact of the latest of the [K] calls, and
    with their [offsetX] and their [offsetY] added up in capture order. *)
Theorem touch_run_coalesces (w : World) (pre : list Capture) (a : Capture)
    (t : option Ref * number * number)
    (ts : list (option Ref * number * number))
    (b : Capture) (post : list Capture) :
  Inv w [] → deferred w →
  kind_of a ≠ TouchBuffer → kind_of b ≠ TouchBuffer →
  length (pre ++ a :: (touch_of <$> t :: ts) ++ b :: post)
    - merges (pre ++ a :: (touch_of <$> t :: ts) ++ b :: post)
    ≤ RB._maxSize →
  touch_run_dispatched w pre a t ts b post.
Proof.
  intros HI Hd Ha Hb Hroom.
  set (c := this w).
  set (cs := pre ++ a :: (touch_of <$> t :: ts) ++ b :: post) in *.
  set (q1 := absorb_all c [] (pre ++ [a])).
  set (m := ICameraInputTouchEvent.Build (default t (last ts)).1.1
              (accumulate t.1.2 (offsetsX ts))
              (accumulate t.2 (offsetsY ts))).
  assert (Hlast : ∃ ya, last q1 = Some ya ∧ queue_of ya = kind_of a).
  { subst q1. rewrite absorb_all_app. unfold absorb_all at 1. simpl.
    pose proof (absorb_last c (absorb_all c [] pre) a) as Hla.
    destruct (last (absorb c (absorb_all c [] pre) a)) as [ya|]; [|done].
    exists ya. split; [done|]. simpl in Hla. congruence. }
  destruct Hlast as (ya & Hya & Hka).
  assert (Hq : absorb_all c [] cs
               = q1 ++ [QTouch m] ++ absorb_all c [] (b :: post)).
  { subst cs.
    replace (pre ++ a :: (touch_of <$> t :: ts) ++ b :: post)
      with ((pre ++ [a]) ++ touch_of t :: (touch_of <$> ts) ++ b :: post)
      by (by rewrite <- app_assoc).
    rewrite absorb_all_app. fold q1.
    rewrite (absorb_all_fresh c q1 ya (touch_of t)); [|done|].
    2:{ left. simpl. congruence. }
    change (touch_of t :: (touch_of <$> ts) ++ b :: post)
      with ([touch_of t] ++ (touch_of <$> ts) ++ b :: post).
    rewrite !absorb_all_app.
    change (absorb_all c [] [touch_of t])
      with ([] ++ [QTouch (ICameraInputTouchEvent.Build t.1.1 t.1.2 t.2)]).
    rewrite absorb_touch_run, merge_touch_run. fold m. simpl app at 2.
    rewrite (absorb_all_fresh c [QTouch m] (QTouch m) b); [|done|].
    2:{ left. done. }
    done. }
  destruct (frame_refines cs w HI Hd) as (w' & Hf & _ & Hl & _).
  { fold c. by rewrite absorb_all_length. }
  exists w', (q1 ≫= calls_of), (absorb_all c [] (b :: post) ≫= calls_of).
  split; [done|].
  rewrite (since_app _ _ _ Hl). fold c. rewrite Hq.
  rewrite !bind_app, !handler_kind_calls. subst q1.
  rewrite !absorb_all_kinds. split_and!; [|done|done].
  rewrite bind_cons. done.
Qed.

(** C2 fails beyond the capacity: when 51 [ButtonDown] capture calls follow
    three [Touch] capture calls in their frame, the tag of the [Touch] event
    is dropped from [_allEvents] and the drain does not call [onTouch]. *)
Lemma touch_run_coalesces_overflow :
  ¬ touch_run_dispatched (attachControl false None) []
      (ButtonDown blank_PointerEvent)
      (None, num 1, num 0) [(None, num 1, num 0); (None, num 1, num 0)]
      (ButtonDown blank_PointerEvent)
      (replicate 50 (ButtonDown blank_PointerEvent)).
Proof.
  intros (w' & l1 & l2 & Hf & Hl & _).
  vm_compute in Hf. injection Hf as <-.
  apply (f_equal (filter is_onTouch)) in Hl.
  rewrite !filter_app in Hl.
  change (filter is_onTouch (since _ _)) with (@nil Call) in Hl.
  by destruct (filter is_onTouch l1).
Qed.

(** ** Deferred and immediate callbacks *)

(** *** The motion queued is the motion of the handler calls, run by run *)

Lemma removelast_fmap {A B} (f : A → B) (l : list A) :
  removelast (f <$> l) = f <$> removelast l.
Proof.
  induction l as [|x l IH]; [done|].
  destruct l as [|y l]; [done|].
  change (removelast (f <$> x :: y :: l))
    with (f x :: removelast (f <$> y :: l)).
  by rewrite IH.
Qed.

Lemma sum_runs_absorb c q x :
  sum_runs_step (entry <$> q) (call_of x) = entry <$> absorb c q x.
Proof.
  destruct x as [ev|ev|ty|pt dx dy|a b pd d pp p]; simpl;
    rewrite ?fmap_app; try done.
  - rewrite fmap_last.
    destruct (last q) as [[e|e|e|e|e]|]; simpl; rewrite ?fmap_app; try done.
    by rewrite removelast_fmap.
  - rewrite fmap_last.
    destruct (last q) as [[e|e|e|e|e]|]; simpl; rewrite ?fmap_app; try done.
    by rewrite removelast_fmap.
Qed.

Lemma sum_runs_absorb_all c cs q :
  fold_left sum_runs_step (call_of <$> cs) (entry <$> q)
  = entry <$> absorb_all c q cs.
Proof.
  revert q. induction cs as [|x cs IH]; intros q; [done|].
  simpl. rewrite (sum_runs_absorb c). apply IH.
Qed.

Lemma motion_of_calls q : omap motion_of (q ≫= calls_of) = omap entry q.
Proof.
  induction q as [|y q IH]; [done|].
  rewrite bind_cons, omap_app, IH. by destruct y.
Qed.

Lemma omap_id_fmap {A B} (f : A → option B) (l : list A) :
  omap id (f <$> l) = omap f l.
Proof.
  induction l as [|x l IH]; [done|]. csimpl. rewrite IH. by destruct (f x).
Qed.

(** What a frame queues and dispatches is the motion of its capture calls
    summed run by run. *)
Lemma absorb_all_motion c cs :
  omap motion_of (absorb_all c [] cs ≫= calls_of)
  = sum_runs (call_of <$> cs).
Proof.
  rewrite motion_of_calls. unfold sum_runs.
  change (@nil (option Motion)) with (entry <$> @nil Queued).
  by rewrite (sum_runs_absorb_all c), omap_id_fmap.
Qed.

(** *** The pan position delivered last *)

Lemma pan_of_calls q :
  omap pan_of (q ≫= calls_of)
  = omap (λ y, ICameraInputMultiTouchEvent.multiTouchPanPosition
                 <$> the_MultiTouch y) q.
Proof.
  induction q as [|y q IH]; [done|].
  rewrite bind_cons, omap_app, IH. by destruct y.
Qed.

Lemma absorb_pan c q x :
  last (omap pan_of (absorb c q x ≫= calls_of))
  = match pan_of (call_of x) with
    | Some p => Some p
    | None => last (omap pan_of (q ≫= calls_of))
    end.
Proof.
  destruct x as [ev|ev|ty|pt dx dy|a b pd d pp p]; simpl absorb.
  1-3: by rewrite bind_app, omap_app, last_app.
  - destruct (last q) as [[e|e|e|e|e]|] eqn:E;
      try by rewrite bind_app, omap_app, last_app.
    pose proof (last_snoc_inv q _ E) as Hq.
    set (r := removelast q) in *. clearbody r. subst q.
    by rewrite !bind_app, !omap_app, !last_app.
  - destruct (last q) as [[e|e|e|e|e]|] eqn:E;
      by rewrite bind_app, omap_app, last_app.
Qed.

Lemma absorb_all_pan c cs q :
  last (omap pan_of (absorb_all c q cs ≫= calls_of))
  = match last (omap pan_of (call_of <$> cs)) with
    | Some p => Some p
    | None => last (omap pan_of (q ≫= calls_of))
    end.
Proof.
  revert q. induction cs as [|x cs IH]; intros q; [done|].
  change (absorb_all c q (x :: cs)) with (absorb_all c (absorb c q x) cs).
  rewrite IH, absorb_pan.
  change (call_of <$> x :: cs) with ([call_of x] ++ (call_of <$> cs)).
  rewrite omap_app, last_app.
  destruct (last (omap pan_of (call_of <$> cs))); [done|].
  by destruct x.
Qed.

(** *** The immediate configuration *)

Lemma capture_immediate c w :
  immediate w → capture c w = Ok (emit (call_of c) w).
Proof.
  unfold immediate. intros Hi.
  destruct c; simpl; unfold _addEventsButtonDown, _addEventsButtonUp,
    _addEventsDoubleTap, _addEventsTouch, _addEventsMultiTouch;
    by rewrite Hi.
Qed.

Lemma captures_immediate cs w :
  immediate w →
  ∃ w', captures cs w = Ok w' ∧ this w' = this w ∧ scope w' = scope w ∧
        heap w' = heap w ∧ log w' = log w ++ (call_of <$> cs).
Proof.
  revert w. induction cs as [|c cs IH]; intros w Hi; simpl.
  - exists w. by rewrite app_nil_r.
  - rewrite (capture_immediate c w Hi). simpl.
    destruct (IH (emit (call_of c) w)) as (w' & Hc & Ht & Hs & Hh & Hl).
    { done. }
    exists w'. split_and!; try done. rewrite Hl. simpl.
    by rewrite <- app_assoc.
Qed.

Lemma frame_immediate cs w :
  immediate w → RB.length (Controller._allEvents (this w)) = 0 →
  ∃ w', frame cs w = Some w' ∧ this w' = this w ∧
        log w' = log w ++ (call_of <$> cs).
Proof.
  intros Hi Hz.
  destruct (captures_immediate cs w Hi) as (w' & Hc & Ht & Hs & Hh & Hl).
  exists w'. unfold frame. rewrite Hc. unfold checkInputs.
  rewrite Ht, Hz. simpl. rewrite Ht, Hz. done.
Qed.

Lemma Inv_with_this_buffers w w' q :
  buffers w' = buffers w → Inv w q → Inv w' q.
Proof.
  unfold buffers. intros [= E1 E2 E3 E4 E5 E6] HI.
  constructor; rewrite ?E1, ?E2, ?E3, ?E4, ?E5, ?E6; apply HI.
Qed.

(** *** Frame after frame, both ways *)

(** The calls of the frames [fs] in the deferred run from [wd] and in the
    immediate run from [wi]. *)
Lemma frames_both fs wd wi :
  Inv wd [] → deferred wd →
  immediate wi → RB.length (Controller._allEvents (this wi)) = 0 →
  Forall (λ cs, length cs - merges cs ≤ RB._maxSize) fs →
  ∃ wd' wi' qs,
    frames fs wd = Some wd' ∧ frames fs wi = Some wi' ∧
    log wd' = log wd ++ (qs ≫= λ q, q ≫= calls_of) ∧
    log wi' = log wi ++ (fs ≫= λ cs, call_of <$> cs) ∧
    Forall2 (λ q cs, ∃ c, q = absorb_all c [] cs) qs fs.
Proof.
  revert wd wi.
  induction fs as [|cs fs IH]; intros wd wi HI Hd Hi Hz Hfs.
  - exists wd, wi, []. simpl. by rewrite !app_nil_r.
  - inversion Hfs as [|? ? Hcs Hfs']; subst.
    destruct (frame_refines cs wd HI Hd) as (wd1 & Hf & HI1 & Hl1 & Hs1 & _).
    { by rewrite absorb_all_length. }
    destruct (frame_immediate cs wi Hi Hz) as (wi1 & Hfi & Hti & Hli1).
    destruct (IH wd1 wi1) as (wd' & wi' & qs & Hfd & Hfi' & Hld & Hli & Hqs);
      try done.
    + unfold deferred, surroundings, settings in *. congruence.
    + unfold immediate in *. congruence.
    + congruence.
    + exists wd', wi', (absorb_all (this wd) [] cs :: qs).
      split_and!.
      * cbn [frames]. by rewrite Hf.
      * cbn [frames]. by rewrite Hfi.
      * rewrite Hld, Hl1, bind_cons. by rewrite app_assoc.
      * rewrite Hli, Hli1, bind_cons. by rewrite app_assoc.
      * constructor; [by eexists|done].
Qed.

Lemma frames_motion qs fs :
  Forall2 (λ q cs, ∃ c, q = absorb_all c [] cs) qs fs →
  omap motion_of (qs ≫= λ q, q ≫= calls_of)
  = (fs ≫= λ cs, sum_runs (call_of <$> cs)) ∧
  last (omap pan_of (qs ≫= λ q, q ≫= calls_of))
  = last (omap pan_of (fs ≫= λ cs, call_of <$> cs)).
Proof.
  induction 1 as [|q cs qs fs (c & ->) _ [IH1 IH2]]; [done|].
  rewrite !bind_cons, !omap_app, !last_app, IH1, IH2.
  rewrite absorb_all_motion, absorb_all_pan. split; [done|].
  destruct (last (omap pan_of (fs ≫= _))); [done|].
  by destruct (last (omap pan_of (call_of <$> cs))).
Qed.

(** *** Totals of integer deltas *)

Section IntegerTotals.
Local Open Scope Z_scope.

Lemma Z_sum_app l1 l2 : Z_sum (l1 ++ l2) = Z_sum l1 + Z_sum l2.
Proof. induction l1 as [|z l1 IH]; simpl; [done|]. rewrite IH. lia. Qed.

Lemma Z_sum_abs_app l1 l2 :
  Z_sum_abs (l1 ++ l2) = Z_sum_abs l1 + Z_sum_abs l2.
Proof. induction l1 as [|z l1 IH]; simpl; [done|]. rewrite IH. lia. Qed.

Lemma Z_sum_abs_nonneg l : 0 ≤ Z_sum_abs l.
Proof. induction l as [|z l IH]; simpl; lia. Qed.

Lemma Z_sum_le_abs l : Z.abs (Z_sum l) ≤ Z_sum_abs l.
Proof. induction l as [|z l IH]; simpl; lia. Qed.

(** Adding up integers one by one is exact as long as the absolute values
    add up to less than [2 ^ 53]. *)
Lemma accumulate_ints zs a :
  Z.abs a + Z_sum_abs zs < 2 ^ 53 →
  accumulate (num a) (num <$> zs) = num (a + Z_sum zs).
Proof.
  revert a. induction zs as [|z zs IH]; intros a Hb.
  - simpl. by rewrite Z.add_0_r.
  - pose proof (Z_sum_abs_nonneg zs).
    rewrite fmap_cons, accumulate_cons. simpl in Hb.
    rewrite num_add by lia.
    rewrite IH by lia. f_equal. simpl. lia.
Qed.

Lemma chan_app k acc acc' : chan k (acc ++ acc') = chan k acc ++ chan k acc'.
Proof. apply omap_app. Qed.

Lemma snoc_ints (l : list number) v za z :
  l = num <$> za → v = num z →
  ∃ z', l ++ [v] = num <$> z' ∧ Z_sum z' = Z_sum za + z ∧
        Z_sum_abs z' = Z_sum_abs za + Z.abs z.
Proof.
  intros -> ->. exists (za ++ [z]).
  rewrite fmap_app, Z_sum_app, Z_sum_abs_app. simpl. split_and!; [done|lia..].
Qed.

Lemma merge_ints (l : list number) x0 v za z :
  l ++ [x0] = num <$> za → v = num z →
  Z_sum_abs za + Z.abs z < 2 ^ 53 →
  ∃ z', l ++ [(x0 + v)%num] = num <$> z' ∧ Z_sum z' = Z_sum za + z ∧
        Z_sum_abs z' ≤ Z_sum_abs za + Z.abs z.
Proof.
  intros Hl -> Hb. symmetry in Hl.
  apply fmap_app_inv in Hl as (za1 & za2 & Hl1 & Hl2 & ->).
  destruct za2 as [|z0 [|? ?]]; try done. injection Hl2 as ->.
  rewrite Z_sum_app, Z_sum_abs_app in *. simpl in *.
  pose proof (Z_sum_abs_nonneg za1).
  exists (za1 ++ [z0 + z]).
  rewrite fmap_app, Z_sum_app, Z_sum_abs_app, Hl1. simpl.
  rewrite num_add by lia. split_and!; [done|lia..].
Qed.

Lemma chan_last k acc o :
  last acc = Some o → chan k acc = chan k (removelast acc) ++ chan k [o].
Proof.
  intros Hl. rewrite (last_snoc_inv acc o Hl) at 1. apply chan_app.
Qed.

(** One more handler call: its delta, an integer, is added to the delta of
    the call before it or appended. *)
Lemma sum_runs_step_ints k acc c za :
  chan k acc = num <$> za →
  match delta_of k c with
  | Some v =>
      ∀ z, v = num z → Z_sum_abs za + Z.abs z < 2 ^ 53 →
           ∃ z', chan k (sum_runs_step acc c) = num <$> z' ∧
                 Z_sum z' = Z_sum za + z ∧
                 Z_sum_abs z' ≤ Z_sum_abs za + Z.abs z
  | None => chan k (sum_runs_step acc c) = chan k acc
  end.
Proof.
  intros Ha.
  destruct c; try (by destruct k; simpl; rewrite ?chan_app, ?app_nil_r).
  - (* onTouch *)
    unfold delta_of. simpl motion_of. simpl sum_runs_step.
    destruct (last acc) as [[[p0 x0 y0|a0 b0 d0 pan0]|]|] eqn:El.
    + rewrite (chan_last k _ _ El) in Ha.
      destruct k; simpl; rewrite chan_app; simpl chan at 2.
      * intros z Hz Hb. by apply (merge_ints _ x0 _ za z).
      * intros z Hz Hb. by apply (merge_ints _ y0 _ za z).
      * by rewrite (chan_last _ _ _ El).
    + destruct k; simpl; rewrite chan_app; simpl chan at 2;
        rewrite ?app_nil_r; try done.
      * intros z Hz Hb.
        destruct (snoc_ints _ _ za z Ha Hz) as (z' & ? & ? & ?).
        exists z'. split_and!; [done|done|lia].
      * intros z Hz Hb.
        destruct (snoc_ints _ _ za z Ha Hz) as (z' & ? & ? & ?).
        exists z'. split_and!; [done|done|lia].
    + destruct k; simpl; rewrite chan_app; simpl chan at 2;
        rewrite ?app_nil_r; try done.
      * intros z Hz Hb.
        destruct (snoc_ints _ _ za z Ha Hz) as (z' & ? & ? & ?).
        exists z'. split_and!; [done|done|lia].
      * intros z Hz Hb.
        destruct (snoc_ints _ _ za z Ha Hz) as (z' & ? & ? & ?).
        exists z'. split_and!; [done|done|lia].
    + destruct k; simpl; rewrite chan_app; simpl chan at 2;
        rewrite ?app_nil_r; try done.
      * intros z Hz Hb.
        destruct (snoc_ints _ _ za z Ha Hz) as (z' & ? & ? & ?).
        exists z'. split_and!; [done|done|lia].
      * intros z Hz Hb.
        destruct (snoc_ints _ _ za z Ha Hz) as (z' & ? & ? & ?).
        exists z'. split_and!; [done|done|lia].
  - (* onMultiTouch *)
    unfold delta_of. simpl motion_of. simpl sum_runs_step.
    destruct (last acc) as [[[p0 x0 y0|a0 b0 d0 pan0]|]|] eqn:El.
    + destruct k; simpl; rewrite chan_app; simpl chan at 2;
        rewrite ?app_nil_r; try done.
      intros z Hz Hb.
      destruct (snoc_ints _ _ za z Ha Hz) as (z' & ? & ? & ?).
      exists z'. split_and!; [done|done|lia].
    + rewrite (chan_last k _ _ El) in Ha.
      destruct k; simpl; rewrite chan_app; simpl chan at 2.
      * by rewrite (chan_last _ _ _ El).
      * by rewrite (chan_last _ _ _ El).
      * intros z Hz Hb. by apply (merge_ints _ d0 _ za z).
    + destruct k; simpl; rewrite chan_app; simpl chan at 2;
        rewrite ?app_nil_r; try done.
      intros z Hz Hb.
      destruct (snoc_ints _ _ za z Ha Hz) as (z' & ? & ? & ?).
      exists z'. split_and!; [done|done|lia].
    + destruct k; simpl; rewrite chan_app; simpl chan at 2;
        rewrite ?app_nil_r; try done.
      intros z Hz Hb.
      destruct (snoc_ints _ _ za z Ha Hz) as (z' & ? & ? & ?).
      exists z'. split_and!; [done|done|lia].
Qed.

Lemma sum_runs_ints k l : ∀ acc za zl,
  chan k acc = num <$> za → omap (delta_of k) l = num <$> zl →
  Z_sum_abs za + Z_sum_abs zl < 2 ^ 53 →
  ∃ z', chan k (fold_left sum_runs_step l acc) = num <$> z' ∧
        Z_sum z' = Z_sum za + Z_sum zl ∧
        Z_sum_abs z' ≤ Z_sum_abs za + Z_sum_abs zl.
Proof.
  induction l as [|c l IH]; intros acc za zl Ha Hl Hb.
  - symmetry in Hl. apply fmap_nil_inv in Hl as ->.
    exists za. simpl. split_and!; [done|lia..].
  - pose proof (sum_runs_step_ints k acc c za Ha) as Hstep.
    simpl in Hl. destruct (delta_of k c) as [v|].
    + destruct zl as [|z zl]; [done|].
      rewrite fmap_cons in Hl. injection Hl as Hv Hl. simpl in Hb.
      pose proof (Z_sum_abs_nonneg zl).
      destruct (Hstep z Hv ltac:(lia)) as (z1 & H1 & H2 & H3).
      destruct (IH _ z1 zl H1 Hl ltac:(lia)) as (z' & H1' & H2' & H3').
      exists z'. simpl. split_and!; [done|lia..].
    + rewrite <- Hstep in Ha.
      destruct (IH _ za zl Ha Hl Hb) as (z' & H1' & H2' & H3').
      by exists z'.
Qed.

Lemma chan_omap_id k acc : omap (component k) (omap id acc) = chan k acc.
Proof.
  induction acc as [|o acc IH]; [done|]. unfold chan in *.
  destruct o as [m|]; csimpl; by rewrite IH.
Qed.

Lemma frames_ints k fs : ∀ zs,
  omap (delta_of k) (fs ≫= λ cs, call_of <$> cs) = num <$> zs →
  Z_sum_abs zs < 2 ^ 53 →
  ∃ z', omap (component k) (fs ≫= λ cs, sum_runs (call_of <$> cs))
        = num <$> z' ∧
        Z_sum z' = Z_sum zs ∧ Z_sum_abs z' ≤ Z_sum_abs zs.
Proof.
  induction fs as [|cs fs IH]; intros zs Hzs Hb.
  - exists []. symmetry in Hzs. apply fmap_nil_inv in Hzs as ->. done.
  - rewrite bind_cons, omap_app in Hzs. symmetry in Hzs.
    apply fmap_app_inv in Hzs as (z1 & z2 & H1 & H2 & ->).
    rewrite Z_sum_app, Z_sum_abs_app in *.
    pose proof (Z_sum_abs_nonneg z1). pose proof (Z_sum_abs_nonneg z2).
    destruct (sum_runs_ints k (call_of <$> cs) [] [] z1 eq_refl H1)
      as (z1' & E1 & S1 & A1); [simpl; lia|].
    destruct (IH z2 H2 ltac:(lia)) as (z2' & E2 & S2 & A2).
    exists (z1' ++ z2').
    rewrite bind_cons, omap_app, fmap_app, Z_sum_app, Z_sum_abs_app, E2.
    unfold sum_runs. rewrite chan_omap_id, E1. simpl in *.
    split_and!; [done|lia..].
Qed.

Lemma delta_of_motion k (l : list Call) :
  omap (delta_of k) l = omap (component k) (omap motion_of l).
Proof.
  induction l as [|c l IH]; [done|]. csimpl. rewrite IH.
  unfold delta_of. by destruct (motion_of c).
Qed.

Lemma omap_pointwise {A B} (f g : A → option B) (l : list A) :
  (∀ x, f x = g x) → omap f l = omap g l.
Proof.
  intros Hfg. induction l as [|x l IH]; [done|]. csimpl.
  by rewrite IH, Hfg.
Qed.

Lemma totals_deltas (l : list Call) :
  totals l
  = (accumulate (num 0) (omap (delta_of DeltaX) l),
     accumulate (num 0) (omap (delta_of DeltaY) l),
     accumulate (num 0) (omap (delta_of DeltaPinch) l),
     last (omap pan_of l)).
Proof.
  unfold totals.
  rewrite (omap_pointwise offsetX_of (delta_of DeltaX)) by (by intros []).
  rewrite (omap_pointwise offsetY_of (delta_of DeltaY)) by (by intros []).
  rewrite (omap_pointwise pinch_of (delta_of DeltaPinch)) by (by intros []).
  done.
Qed.

(** With integer deltas small enough for their additions to be exact, the
    motion summed run by run adds up to the same totals as the motion of
    the single calls. *)
Lemma integral_totals fs ld li :
  integral_deltas fs →
  li = (fs ≫= λ cs, call_of <$> cs) →
  omap motion_of ld = (fs ≫= λ cs, sum_runs (call_of <$> cs)) →
  last (omap pan_of ld) = last (omap pan_of li) →
  totals ld = totals li.
Proof.
  intros Hint -> Hm Hpan.
  assert (Hk : ∀ k, accumulate (num 0) (omap (delta_of k) ld)
                    = accumulate (num 0)
                        (omap (delta_of k) (fs ≫= λ cs, call_of <$> cs))).
  { intros k. destruct (Hint k) as (zs & Hzs & Hb).
    destruct (frames_ints k fs zs Hzs Hb) as (z' & Hz' & Hs & Ha).
    rewrite (delta_of_motion k ld), Hm, Hz', Hzs.
    pose proof (Z_sum_abs_nonneg z').
    rewrite !accumulate_ints by (simpl; lia). by rewrite Hs. }
  rewrite !totals_deltas, !Hk, Hpan. done.
Qed.
End IntegerTotals.

(** C4, within the capacity of the ring buffers.  From empty buffers, for
    frames in each of which at most [_maxSize] = 50 capture calls are not
    merged, the run with callbacks deferred to the drain and the run with
    callbacks made at capture time both end normally.  The immediate run
    calls one handler per capture call.  The deferred run delivers the same
    motion summed run by run: for each frame, the offsets of consecutive
    [onTouch] calls, and the pinch distances of consecutive [onMultiTouch]
    calls, of the immediate run are added up in the order of the calls, and
    the sum comes with the contacts and the pan position of the last call of
    its run.  The pan position delivered last is the same in both runs.  When
    the deltas are integers whose absolute values add up to less than
    [2 ^ 53], the totals of [offsetX], of [offsetY] and of
    [pinchSquaredDistance] over the calls of either run are the same. *)
Theorem deferred_matches_immediate (w : World) (fs : list (list Capture)) :
  Inv w [] →
  Forall (λ cs, length cs - merges cs ≤ RB._maxSize) fs →
  same_motion_per_run w fs ∧ (integral_deltas fs → same_totals w fs).
Proof.
  intros HI Hfs.
  destruct (frames_both fs (with_defferCallback true w)
              (with_defferCallback false w))
    as (wd & wi & qs & Hd & Hi & Hld & Hli & Hqs); try done.
  { by apply (Inv_with_this_buffers w). }
  { simpl. apply (inv_all_length w [] HI). }
  change (log (with_defferCallback true w)) with (log w) in Hld.
  change (log (with_defferCallback false w)) with (log w) in Hli.
  pose proof (frames_motion qs fs Hqs) as [Hm Hp].
  assert (Hsd : since (log w) wd = (qs ≫= λ q, q ≫= calls_of))
    by apply (since_app _ _ _ Hld).
  assert (Hsi : since (log w) wi = (fs ≫= λ cs, call_of <$> cs))
    by apply (since_app _ _ _ Hli).
  split.
  - exists wd, wi. split_and!; try done; by rewrite Hsd, ?Hsi.
  - intros Hint. exists wd, wi. split_and!; try done.
    apply (integral_totals fs); [done|done|by rewrite Hsd|by rewrite Hsd, Hsi].
Qed.

(** C4 fails as stated.  Beyond the capacity: in a frame that alternates 26
    [Touch] with 25 [ButtonDown] capture calls [_allEvents] drops its oldest
    tag, the drain delivers 25 of the 26 [Touch] events, and the deferred
    run delivers a smaller [offsetX] in total than the immediate one.
    Within the capacity: of the moves by 0.1, 0.1, 0.1 and 0.4, the first two
    and the last two merged, the deferred run delivers 0.2 and 0.5, in total
    0.7, and the immediate run 0.7000000000000001, its additions being
    rounded one by one; and of two [MultiTouch] capture calls with the pinch
    distances 5 and 7 the last call of the deferred run carries their sum 12,
    that of the immediate run 7. *)
Lemma deferred_matches_immediate_fails :
  ¬ same_totals (attachControl false None) [dropped_touch_frame] ∧
  ¬ same_totals (attachControl false None) [rounding_frame] ∧
  ¬ same_final_pinch (attachControl false None) [merged_pinch_frame].
Proof.
  split_and!; intros (wd & wi & Hd & Hi & Ht).
  all: vm_compute in Hd; injection Hd as <-.
  all: vm_compute in Hi; injection Hi as <-.
  all: vm_compute in Ht; discriminate.
Qed.

(** ** Merging of [MultiTouch] events *)

Section Pushed.
Context {T : Type} `{Blank T}.
Implicit Types rb : RB.t T.

(** Whatever the state of the buffer, [push()] leaves [pushed] on a slot
    of the backing array. *)
Lemma rb_push_pushed rb :
  ∃ i v0, RB.pushed (RB.push rb) = RB.Slot i ∧
          RB._container (RB.push rb) !! i = Some v0 ∧
          0 < RB._length (RB.push rb).
Proof.
  unfold RB.push.
  set (rb1 := if RB._maxSize <=? RB._length rb then (RB.pop rb).2 else rb).
  set (rb2 := RB._wrapPointers rb1).
  assert (Hh : RB._head rb2 < length (RB._container rb2)
               ∨ (RB._head rb2 = 0 ∧ RB._tail rb2 = 0
                  ∧ length (RB._container rb2) = 0)).
  { subst rb2. unfold RB._wrapPointers. rb_simpl. nat_cases; lia. }
  destruct ((RB._head rb2 =? RB._tail rb2)
            && ((0 <? RB._length rb2) || (length (RB._container rb2) =? 0)))
    eqn:E; rb_simpl.
  - exists (RB._head rb2), blank. split_and!; [done| |lia].
    apply list_lookup_middle. rewrite length_take. lia.
  - assert (Hlt : RB._head rb2 < length (RB._container rb2)).
    { destruct Hh as [|(E1 & E2 & E3)]; [done|].
      rewrite E1, E2, E3 in E. simpl in E. rewrite orb_true_r in E. done. }
    destruct (lookup_lt_is_Some_2 _ _ Hlt) as [v0 Hv0].
    exists (RB._head rb2), v0.
    destruct (Nat.ltb_spec (RB._head rb2) (length (RB._container rb2)));
      [|lia].
    split_and!; [done|done|lia].
Qed.

Lemma rb_push_set_get upd rb :
  ∃ rb' v0, RB.set_pushed upd (RB.push rb) = Ok rb' ∧
            RB.get_pushed rb' = Ok (upd v0) ∧ 0 < RB._length rb'.
Proof.
  destruct (rb_push_pushed rb) as (i & v0 & Hp & Hv & Hl).
  destruct (RB.push rb) as [h t len c p lbl]. rb_simpl. subst p.
  unfold RB.set_pushed, RB.get_pushed. rb_simpl.
  eexists _, v0. split; [done|]. rb_simpl.
  rewrite list_lookup_alter_eq, Hv. done.
Qed.

Lemma rb_set_get upd rb v :
  RB.get_pushed rb = Ok v →
  ∃ rb', RB.set_pushed upd rb = Ok rb' ∧ RB.get_pushed rb' = Ok (upd v) ∧
         RB._length rb' = RB._length rb.
Proof.
  destruct rb as [h t len c p lbl].
  unfold RB.set_pushed, RB.get_pushed. rb_simpl.
  destruct p as [|i|v']; [done| |].
  - destruct (c !! i) as [v'|] eqn:Hv; [|done].
    intros [= ->]. eexists. split; [done|]. rb_simpl.
    rewrite list_lookup_alter_eq, Hv. done.
  - intros [= ->]. eexists. split; [done|]. rb_simpl. done.
Qed.
End Pushed.

(** The first sample of a run takes a new slot. *)
Lemma multiTouch_first w m :
  deferred w → last_pushed_is MultiTouchBuffer w = Ok false →
  ∃ w1, capture (multiTouch_of m) w = Ok w1 ∧ deferred w1 ∧
        previous (this w1) = previous (this w) ∧
        last_pushed_is MultiTouchBuffer w1 = Ok true ∧
        RB.get_pushed (Controller._eventsMultiTouch (this w1))
        = Ok (ICameraInputMultiTouchEvent.Build m.1.1.1.1.1 m.1.1.1.1.2
                (Controller._previousPinchSquaredDistance (this w)) m.1.1.2
                (Controller._previousMultiTouchPanPosition (this w)) m.2).
Proof.
  intros Hd Hlast. unfold multiTouch_of. simpl capture.
  unfold _addEventsMultiTouch. rewrite Hd. simpl negb. cbv iota.
  unfold COALESCE. rewrite Hlast. simpl mbind. cbv iota.
  destruct (rb_push_set_get
              (λ _, ICameraInputMultiTouchEvent.Build m.1.1.1.1.1 m.1.1.1.1.2
                      (Controller._previousPinchSquaredDistance (this w))
                      m.1.1.2
                      (Controller._previousMultiTouchPanPosition (this w))
                      m.2)
              (Controller._eventsMultiTouch (this w)))
    as (b & v0 & Hb & Hgb & Hlb).
  rewrite Hb. simpl.
  destruct (rb_push_set_get (IEvent.set_buffer MultiTouchBuffer)
              (Controller._allEvents (this w))) as (a & e0 & Ha & Hga & Hla).
  unfold push_allEvents. simpl. rewrite Ha. simpl.
  eexists. split; [done|]. split_and!; try done.
  unfold last_pushed_is, RB.length. simpl.
  destruct (Nat.ltb_spec 0 (RB._length a)); [|lia].
  rewrite Hga. simpl. done.
Qed.

(** Every further sample is merged into that slot. *)
Lemma multiTouch_merge w m e :
  deferred w → last_pushed_is MultiTouchBuffer w = Ok true →
  RB.get_pushed (Controller._eventsMultiTouch (this w)) = Ok e →
  ∃ w1, capture (multiTouch_of m) w = Ok w1 ∧ deferred w1 ∧
        previous (this w1) = previous (this w) ∧
        last_pushed_is MultiTouchBuffer w1 = Ok true ∧
        RB.get_pushed (Controller._eventsMultiTouch (this w1))
        = Ok (merge_multiTouch e m) ∧
        Controller._allEvents (this w1) = Controller._allEvents (this w) ∧
        RB.length (Controller._eventsMultiTouch (this w1))
        = RB.length (Controller._eventsMultiTouch (this w)).
Proof.
  intros Hd Hlast Hget. unfold multiTouch_of. simpl capture.
  unfold _addEventsMultiTouch. rewrite Hd. simpl negb. cbv iota.
  unfold COALESCE. rewrite Hlast. simpl mbind. cbv iota.
  destruct (rb_set_get
              (λ e0, ICameraInputMultiTouchEvent.Build m.1.1.1.1.1 m.1.1.1.1.2
                  (ICameraInputMultiTouchEvent.previousPinchSquaredDistance e0)
                  (ICameraInputMultiTouchEvent.pinchSquaredDistance e0
                     + m.1.1.2)%num
                  (ICameraInputMultiTouchEvent.previousMultiTouchPanPosition e0)
                  m.2)
              (Controller._eventsMultiTouch (this w)) e Hget)
    as (b & Hb & Hgb & Hlb).
  rewrite Hb. simpl.
  eexists. split; [done|]. split_and!; try done.
Qed.

Lemma multiTouch_run ms w e :
  deferred w → last_pushed_is MultiTouchBuffer w = Ok true →
  RB.get_pushed (Controller._eventsMultiTouch (this w)) = Ok e →
  ∃ w', captures (multiTouch_of <$> ms) w = Ok w' ∧
        RB.get_pushed (Controller._eventsMultiTouch (this w'))
        = Ok (fold_left merge_multiTouch ms e) ∧
        Controller._allEvents (this w') = Controller._allEvents (this w) ∧
        RB.length (Controller._eventsMultiTouch (this w'))
        = RB.length (Controller._eventsMultiTouch (this w)).
Proof.
  revert w e. induction ms as [|m ms IH]; intros w e Hd Hlast Hget.
  - exists w. by simpl.
  - destruct (multiTouch_merge w m e Hd Hlast Hget)
      as (w1 & Hc & Hd1 & _ & Hlast1 & Hget1 & Ha1 & Hl1).
    destruct (IH w1 _ Hd1 Hlast1 Hget1) as (w' & Hcs & Hget' & Ha' & Hl').
    exists w'. rewrite fmap_cons. cbn [captures]. rewrite Hc. simpl.
    split_and!; [done|done|congruence|congruence].
Qed.

Lemma merge_multiTouch_run ms e :
  let e' := fold_left merge_multiTouch ms e in
  ICameraInputMultiTouchEvent.pointA e'
    = from_option (λ m, m.1.1.1.1.1) (ICameraInputMultiTouchEvent.pointA e)
        (last ms) ∧
  ICameraInputMultiTouchEvent.pointB e'
    = from_option (λ m, m.1.1.1.1.2) (ICameraInputMultiTouchEvent.pointB e)
        (last ms) ∧
  ICameraInputMultiTouchEvent.previousPinchSquaredDistance e'
    = ICameraInputMultiTouchEvent.previousPinchSquaredDistance e ∧
  ICameraInputMultiTouchEvent.pinchSquaredDistance e'
    = accumulate (ICameraInputMultiTouchEvent.pinchSquaredDistance e)
        ((λ m, m.1.1.2) <$> ms) ∧
  ICameraInputMultiTouchEvent.previousMultiTouchPanPosition e'
    = ICameraInputMultiTouchEvent.previousMultiTouchPanPosition e ∧
  ICameraInputMultiTouchEvent.multiTouchPanPosition e'
    = from_option (λ m, m.2)
        (ICameraInputMultiTouchEvent.multiTouchPanPosition e) (last ms).
Proof.
  revert e. induction ms as [|m ms IH]; intros e.
  - cbn [fold_left last from_option]. cbv zeta.
    rewrite fmap_nil. split_and!; done.
  - simpl fold_left. destruct (IH (merge_multiTouch e m))
      as (H1 & H2 & H3 & H4 & H5 & H6).
    cbv zeta. rewrite H1, H2, H3, H4, H5, H6, last_cons, fmap_cons.
    simpl. split_and!; try done; by destruct (last ms).
Qed.

(** C5.  A [MultiTouch] capture call [m] that takes a new slot (the newest
    tag of [_allEvents] is not [MultiTouch]), followed by the [MultiTouch]
    capture calls [ms], which all merge into that slot, leaves in the slot:
    the two contacts and the pan position of the latest call, the sum of the
    [pinchSquaredDistance] of all the calls (each added to the slot in its
    turn), and the previous pinch distance and previous pan position the slot
    took at the first call.  The merged calls queue nothing. *)
Theorem multiTouch_run_merges (w : World)
    (m : option Ref * option Ref * number * number * option Ref * option Ref)
    (ms : list (option Ref * option Ref * number * number * option Ref * option Ref)) :
  deferred w → last_pushed_is MultiTouchBuffer w = Ok false →
  ∃ w1 w',
    capture (multiTouch_of m) w = Ok w1 ∧
    captures (multiTouch_of <$> ms) w1 = Ok w' ∧
    RB.get_pushed (Controller._eventsMultiTouch (this w'))
    = Ok (ICameraInputMultiTouchEvent.Build
            (default m (last ms)).1.1.1.1.1
            (default m (last ms)).1.1.1.1.2
            (Controller._previousPinchSquaredDistance (this w))
            (accumulate m.1.1.2 ((λ m, m.1.1.2) <$> ms))
            (Controller._previousMultiTouchPanPosition (this w))
            (default m (last ms)).2) ∧
    RB.length (Controller._allEvents (this w'))
    = RB.length (Controller._allEvents (this w1)) ∧
    RB.length (Controller._eventsMultiTouch (this w'))
    = RB.length (Controller._eventsMultiTouch (this w1)).
Proof.
  intros Hd Hlast.
  destruct (multiTouch_first w m Hd Hlast)
    as (w1 & Hc & Hd1 & Hp1 & Hlast1 & Hget1).
  destruct (multiTouch_run ms w1 _ Hd1 Hlast1 Hget1)
    as (w' & Hcs & Hget' & Ha' & Hl').
  exists w1, w'. split_and!; [done|done| |by rewrite Ha'|done].
  rewrite Hget'. f_equal.
  destruct (merge_multiTouch_run ms
              (ICameraInputMultiTouchEvent.Build m.1.1.1.1.1 m.1.1.1.1.2
                 (Controller._previousPinchSquaredDistance (this w)) m.1.1.2
                 (Controller._previousMultiTouchPanPosition (this w)) m.2))
    as (H1 & H2 & H3 & H4 & H5 & H6).
  destruct (fold_left merge_multiTouch ms _) as [a b pd d pp p].
  cbn [ICameraInputMultiTouchEvent.pointA ICameraInputMultiTouchEvent.pointB
       ICameraInputMultiTouchEvent.previousPinchSquaredDistance
       ICameraInputMultiTouchEvent.pinchSquaredDistance
       ICameraInputMultiTouchEvent.previousMultiTouchPanPosition
       ICameraInputMultiTouchEvent.multiTouchPanPosition] in *.
  subst. by destruct (last ms).
Qed.

(** ** [_allEvents] against the per-kind buffers *)

(** *** Counting tags *)

Lemma count_app b l1 l2 : count b (l1 ++ l2) = count b l1 + count b l2.
Proof. unfold count. by rewrite filter_app, length_app. Qed.

Lemma count_cons b x l :
  count b (x :: l) = (if decide (Some b = x) then 1 else 0) + count b l.
Proof. unfold count. rewrite filter_cons. by case_decide. Qed.

Lemma count_tail_le b l : count b (tail l) ≤ count b l.
Proof. destruct l as [|x l]; [done|]. simpl. rewrite count_cons. lia. Qed.

Lemma count_le_length b l : count b l ≤ length l.
Proof. apply length_filter. Qed.

Lemma count_last b l : last l = Some (Some b) → 0 < count b l.
Proof.
  intros Hl. rewrite (last_snoc_inv l _ Hl), count_app, count_cons.
  case_decide; [lia|done].
Qed.

Section Push.
Context {T : Type} `{Blank T}.

Lemma push_slot_sound (rb : RB.t T) v :
  rb_wf rb →
  ∃ rb', RB.set_pushed (λ _, v) (RB.push rb) = Ok rb' ∧ rb_wf rb' ∧
         RB._length rb' = (RB._length rb + 1) `min` RB._maxSize.
Proof.
  intros Hwf.
  destruct (rb_push_spec rb Hwf) as (Hwf1 & Hlen1 & _).
  destruct (rb_set_pushed_spec (λ _, v) (RB.push rb) Hwf1)
    as (rb' & Hset & Hwf' & Hlen' & _); [by apply rb_push_length_pos|].
  exists rb'. split_and!; [done|done|congruence].
Qed.

Lemma merge_slot_sound (rb : RB.t T) upd :
  rb_wf rb → 0 < RB._length rb →
  ∃ rb', RB.set_pushed upd rb = Ok rb' ∧ rb_wf rb' ∧
         RB._length rb' = RB._length rb.
Proof.
  intros Hwf Hpos.
  destruct (rb_set_pushed_spec upd rb Hwf Hpos)
    as (rb' & Hset & Hwf' & Hlen' & _).
  by exists rb'.
Qed.
End Push.

Lemma push_order_sound (a : RB.t IEvent.t) b :
  rb_wf a → Forall is_Some (IEvent.buffer <$> rb_contents a) →
  ∃ a', RB.set_pushed (IEvent.set_buffer b) (RB.push a) = Ok a' ∧
        rb_wf a' ∧
        Forall is_Some (IEvent.buffer <$> rb_contents a') ∧
        (∀ k, count k (IEvent.buffer <$> rb_contents a')
              ≤ count k (IEvent.buffer <$> rb_contents a)
                + (if decide (k = b) then 1 else 0)) ∧
        (∀ k, count k (IEvent.buffer <$> rb_contents a') ≤ RB._maxSize).
Proof.
  intros Hwf Htags.
  destruct (rb_push_spec a Hwf) as (Hwf1 & Hlen1 & v0 & Hc1).
  destruct (rb_set_pushed_spec (IEvent.set_buffer b) (RB.push a) Hwf1)
    as (a' & Hset & Hwf' & Hlen' & Hc'); [by apply rb_push_length_pos|].
  exists a'. split_and!; [done|done|..].
  - rewrite Hc', Hc1.
    set (base := if RB._length a <? RB._maxSize then rb_contents a
                 else tail (rb_contents a)) in *.
    assert (Hb : length base + 1 = RB._length (RB.push a)).
    { rewrite <- (rb_contents_length (RB.push a)) by apply Hwf1.
      rewrite Hc1, length_app. done. }
    replace (RB._length (RB.push a) - 1) with (length base + 0) by lia.
    rewrite alter_app_r. simpl. rewrite fmap_app. apply Forall_app. split.
    + subst base. destruct (_ <? _); [done|].
      destruct (rb_contents a); [done|]. simpl in *.
      by apply Forall_cons in Htags as [_ ?].
    + simpl. by repeat constructor.
  - intros k. rewrite Hc', Hc1.
    set (base := if RB._length a <? RB._maxSize then rb_contents a
                 else tail (rb_contents a)) in *.
    assert (Hb : length base + 1 = RB._length (RB.push a)).
    { rewrite <- (rb_contents_length (RB.push a)) by apply Hwf1.
      rewrite Hc1, length_app. done. }
    replace (RB._length (RB.push a) - 1) with (length base + 0) by lia.
    rewrite alter_app_r. simpl. rewrite fmap_app, count_app. simpl.
    rewrite count_cons. unfold count at 2. simpl.
    assert (count k (IEvent.buffer <$> base)
            ≤ count k (IEvent.buffer <$> rb_contents a)).
    { subst base. destruct (_ <? _); [done|].
      rewrite fmap_tail. apply count_tail_le. }
    repeat case_decide; try congruence; lia.
  - intros k. etrans; [apply count_le_length|].
    rewrite length_fmap, rb_contents_length by apply Hwf'. apply Hwf'.
Qed.

Lemma tags_length w :
  rb_wf (Controller._allEvents (this w)) →
  length (tags w) = RB._length (Controller._allEvents (this w)).
Proof.
  intros Hwf. unfold tags. rewrite length_fmap. apply rb_contents_length, Hwf.
Qed.

Lemma last_pushed_is_sound b w :
  Sound w →
  ∃ r, last_pushed_is b w = Ok r ∧ (r = true → 0 < count b (tags w)).
Proof.
  intros HS. unfold last_pushed_is, RB.length.
  destruct (Nat.ltb_spec 0 (RB._length (Controller._allEvents (this w))))
    as [Hpos|Hz]; [|by exists false].
  destruct (rb_get_pushed_spec (Controller._allEvents (this w)))
    as (v & Hget & Hlast); [apply HS|done|].
  rewrite Hget. simpl. eexists. split; [done|].
  intros Hb. apply bool_decide_eq_true in Hb.
  apply count_last. unfold tags. by rewrite fmap_last, Hlast, <- Hb.
Qed.

Ltac sound_fields HS :=
  pose proof (sound_wf_all _ HS) as Hwf_all;
  pose proof (sound_wf_bd _ HS) as Hwf_bd;
  pose proof (sound_wf_bu _ HS) as Hwf_bu;
  pose proof (sound_wf_dt _ HS) as Hwf_dt;
  pose proof (sound_wf_t _ HS) as Hwf_t;
  pose proof (sound_wf_mt _ HS) as Hwf_mt;
  pose proof (sound_tags _ HS) as Htags;
  pose proof (sound_count _ HS) as Hcount.

Ltac sound_counts Hcnt Hmax Hcount :=
  let k := fresh "k" in
  intros k; specialize (Hcnt k); specialize (Hmax k);
  specialize (Hcount k); unfold count in *;
  unfold tags in *; simpl in *;
  destruct k; simpl in *; unfold RB.length in *;
  repeat case_decide; try congruence; try lia.

Lemma capture_sound c w : Sound w → ∃ w', capture c w = Ok w' ∧ Sound w'.
Proof.
  intros HS. sound_fields HS.
  destruct (Controller._defferCallback (this w)) eqn:Hd.
  2: { exists (emit (call_of c) w). split.
       - destruct c; simpl; unfold _addEventsButtonDown, _addEventsButtonUp,
           _addEventsDoubleTap, _addEventsTouch, _addEventsMultiTouch;
           by rewrite Hd.
       - by destruct HS. }
  destruct c as [ev|ev|ty|pt dx dy|a b pd d pp p]; simpl capture.
  - unfold _addEventsButtonDown. rewrite Hd. simpl negb. cbv iota.
    destruct (push_slot_sound (Controller._eventsButtonDown (this w))
                (ICameraInputButtonDownEvent.Build ev) Hwf_bd)
      as (s' & Hs & Hwfs & Hls).
    destruct (push_order_sound _ ButtonDownBuffer Hwf_all Htags)
      as (a' & Ha & Hwfa & Htags' & Hcnt & Hmax).
    rewrite Hs. simpl. unfold push_allEvents. simpl. rewrite Ha. simpl.
    eexists. split; [done|]. constructor; simpl; try done.
    sound_counts Hcnt Hmax Hcount.
  - unfold _addEventsButtonUp. rewrite Hd. simpl negb. cbv iota.
    destruct (push_slot_sound (Controller._eventsButtonUp (this w))
                (ICameraInputButtonUpEvent.Build ev) Hwf_bu)
      as (s' & Hs & Hwfs & Hls).
    destruct (push_order_sound _ ButtonUpBuffer Hwf_all Htags)
      as (a' & Ha & Hwfa & Htags' & Hcnt & Hmax).
    rewrite Hs. simpl. unfold push_allEvents. simpl. rewrite Ha. simpl.
    eexists. split; [done|]. constructor; simpl; try done.
    sound_counts Hcnt Hmax Hcount.
  - unfold _addEventsDoubleTap. rewrite Hd. simpl negb. cbv iota.
    destruct (push_slot_sound (Controller._eventsDoubleTap (this w))
                (ICameraInputDoubleTapEvent.Build ty) Hwf_dt)
      as (s' & Hs & Hwfs & Hls).
    destruct (push_order_sound _ DoubleTapBuffer Hwf_all Htags)
      as (a' & Ha & Hwfa & Htags' & Hcnt & Hmax).
    rewrite Hs. simpl. unfold push_allEvents. simpl. rewrite Ha. simpl.
    eexists. split; [done|]. constructor; simpl; try done.
    sound_counts Hcnt Hmax Hcount.
  - unfold _addEventsTouch. rewrite Hd. simpl negb. cbv iota.
    unfold COALESCE.
    destruct (last_pushed_is_sound TouchBuffer w HS) as (r & Hr & Hpos).
    rewrite Hr. simpl mbind. destruct r.
    + destruct (merge_slot_sound (Controller._eventsTouch (this w))
                  (λ e, ICameraInputTouchEvent.Build pt
                          (ICameraInputTouchEvent.offsetX e + dx)%num
                          (ICameraInputTouchEvent.offsetY e + dy)%num) Hwf_t)
        as (s' & Hs & Hwfs & Hls).
      { specialize (Hpos eq_refl). specialize (Hcount TouchBuffer).
        unfold count in *. simpl in Hcount.
        unfold RB.length in Hcount. lia. }
      rewrite Hs. simpl.
      eexists. split; [done|]. constructor; simpl; try done.
      intros k. specialize (Hcount k). unfold tags in *. simpl.
      destruct k; simpl in *; unfold RB.length in *; lia.
    + destruct (push_slot_sound (Controller._eventsTouch (this w))
                  (ICameraInputTouchEvent.Build pt dx dy) Hwf_t)
        as (s' & Hs & Hwfs & Hls).
      destruct (push_order_sound _ TouchBuffer Hwf_all Htags)
        as (a' & Ha & Hwfa & Htags' & Hcnt & Hmax).
      rewrite Hs. simpl. unfold push_allEvents. simpl. rewrite Ha. simpl.
      eexists. split; [done|]. constructor; simpl; try done.
      sound_counts Hcnt Hmax Hcount.
  - unfold _addEventsMultiTouch. rewrite Hd. simpl negb. cbv iota.
    unfold COALESCE.
    destruct (last_pushed_is_sound MultiTouchBuffer w HS) as (r & Hr & Hpos).
    rewrite Hr. simpl mbind. destruct r.
    + destruct (merge_slot_sound (Controller._eventsMultiTouch (this w))
                  (λ e, ICameraInputMultiTouchEvent.Build a b
                    (ICameraInputMultiTouchEvent.previousPinchSquaredDistance e)
                    (ICameraInputMultiTouchEvent.pinchSquaredDistance e + d)%num
                    (ICameraInputMultiTouchEvent.previousMultiTouchPanPosition e)
                    p) Hwf_mt)
        as (s' & Hs & Hwfs & Hls).
      { specialize (Hpos eq_refl). specialize (Hcount MultiTouchBuffer).
        unfold count in *. simpl in Hcount.
        unfold RB.length in Hcount. lia. }
      rewrite Hs. simpl.
      eexists. split; [done|]. constructor; simpl; try done.
      intros k. specialize (Hcount k). unfold tags in *. simpl.
      destruct k; simpl in *; unfold RB.length in *; lia.
    + destruct (push_slot_sound (Controller._eventsMultiTouch (this w))
                  (ICameraInputMultiTouchEvent.Build a b
                     (Controller._previousPinchSquaredDistance (this w)) d
                     (Controller._previousMultiTouchPanPosition (this w)) p)
                  Hwf_mt)
        as (s' & Hs & Hwfs & Hls).
      destruct (push_order_sound _ MultiTouchBuffer Hwf_all Htags)
        as (a' & Ha & Hwfa & Htags' & Hcnt & Hmax).
      rewrite Hs. simpl. unfold push_allEvents. simpl. rewrite Ha. simpl.
      eexists. split; [done|]. constructor; simpl; try done.
      sound_counts Hcnt Hmax Hcount.
Qed.

Lemma captures_sound cs w : Sound w → ∃ w', captures cs w = Ok w' ∧ Sound w'.
Proof.
  revert w. induction cs as [|c cs IH]; intros w HS; simpl.
  - by exists w.
  - destruct (capture_sound c w HS) as (w1 & Hc & HS1).
    destruct (IH w1 HS1) as (w' & Hcs & HS').
    exists w'. by rewrite Hc.
Qed.

Section Pop.
Context {T : Type} `{Blank T}.

Lemma pop_nonempty (rb : RB.t T) :
  rb_wf rb → 0 < RB._length rb →
  ∃ v rb', RB.pop rb = (Some v, rb') ∧ rb_wf rb' ∧
           RB._length rb' = RB._length rb - 1 ∧
           rb_contents rb = v :: rb_contents rb'.
Proof.
  intros Hwf Hpos.
  destruct (rb_pop_contents rb Hwf) as [Hhd Htl].
  pose proof (rb_pop_wf rb Hwf) as Hwf'.
  pose proof (rb_pop_length rb) as Hlen'.
  assert (Hl : length (rb_contents rb) = RB._length rb).
  { apply rb_contents_length, Hwf. }
  destruct (rb_contents rb) as [|v l]; [simpl in Hl; lia|].
  destruct (RB.pop rb) as [o rb']. simpl in *. subst.
  by exists v, rb'.
Qed.
End Pop.

(** One turn of the drain, whatever overflowed before. *)
Lemma checkInputs_body_sound w :
  Sound w → 0 < RB.length (Controller._allEvents (this w)) →
  ∃ e b w',
    (RB.pop (Controller._allEvents (this w))).1 = Some e ∧
    IEvent.buffer e = Some b ∧ 0 < buffer_length b w ∧
    checkInputs_body w = Ok w' ∧ Sound w' ∧
    RB.length (Controller._allEvents (this w'))
    = RB.length (Controller._allEvents (this w)) - 1.
Proof.
  intros HS Hpos. sound_fields HS. unfold RB.length in *.
  destruct (pop_nonempty _ Hwf_all Hpos) as (e & a' & Hpop & Hwfa & Hla & Hca).
  assert (Ht : tags w = IEvent.buffer e :: (IEvent.buffer <$> rb_contents a')).
  { unfold tags. by rewrite Hca. }
  rewrite Ht in Htags. apply Forall_cons in Htags as [[b Hb] Htags'].
  assert (Hcb : 0 < buffer_length b w).
  { specialize (Hcount b). rewrite Ht, Hb in Hcount.
    rewrite filter_cons in Hcount. case_decide; [|done]. simpl in Hcount. lia. }
  assert (Hcnt : ∀ k, count k (IEvent.buffer <$> rb_contents a')
                      + (if decide (k = b) then 1 else 0)
                      ≤ buffer_length k w).
  { intros k. specialize (Hcount k). rewrite Ht, Hb in Hcount.
    change (count k (Some b :: (IEvent.buffer <$> rb_contents a'))
            ≤ buffer_length k w) in Hcount.
    rewrite count_cons in Hcount.
    repeat case_decide; try congruence; lia. }
  exists e, b. unfold checkInputs_body. rewrite Hpop, Hb. simpl fst.
  destruct b; simpl in Hcb; unfold RB.length in Hcb; cbv iota.
  - destruct (pop_nonempty _ Hwf_bd Hcb) as (v & s' & Hs & Hwfs & Hls & _).
    simpl. rewrite Hs. simpl.
    eexists. split_and!; try done. constructor; simpl; try done.
    intros k. specialize (Hcnt k). unfold tags, count in *. simpl.
    destruct k; simpl in *; unfold RB.length in *;
      repeat case_decide; try congruence; lia.
  - destruct (pop_nonempty _ Hwf_bu Hcb) as (v & s' & Hs & Hwfs & Hls & _).
    simpl. rewrite Hs. simpl.
    eexists. split_and!; try done. constructor; simpl; try done.
    intros k. specialize (Hcnt k). unfold tags, count in *. simpl.
    destruct k; simpl in *; unfold RB.length in *;
      repeat case_decide; try congruence; lia.
  - destruct (pop_nonempty _ Hwf_dt Hcb) as (v & s' & Hs & Hwfs & Hls & _).
    simpl. rewrite Hs. simpl.
    eexists. split_and!; try done. constructor; simpl; try done.
    intros k. specialize (Hcnt k). unfold tags, count in *. simpl.
    destruct k; simpl in *; unfold RB.length in *;
      repeat case_decide; try congruence; lia.
  - destruct (pop_nonempty _ Hwf_t Hcb) as (v & s' & Hs & Hwfs & Hls & _).
    simpl. rewrite Hs. simpl.
    eexists. split_and!; try done. constructor; simpl; try done.
    intros k. specialize (Hcnt k). unfold tags, count in *. simpl.
    destruct k; simpl in *; unfold RB.length in *;
      repeat case_decide; try congruence; lia.
  - destruct (pop_nonempty _ Hwf_mt Hcb) as (v & s' & Hs & Hwfs & Hls & _).
    simpl. rewrite Hs. simpl.
    eexists. split_and!; try done. constructor; simpl; try done.
    intros k. specialize (Hcnt k). unfold tags, count in *. simpl.
    destruct k; simpl in *; unfold RB.length in *;
      repeat case_decide; try congruence; lia.
Qed.

Lemma Sound_drains_cleanly w : Sound w → drains_cleanly w.
Proof.
  intros HS.
  remember (RB.length (Controller._allEvents (this w))) as n eqn:Hn.
  revert w HS Hn. induction n as [|n IH]; intros w HS Hn.
  - by apply drains_done.
  - destruct (checkInputs_body_sound w HS) as (e & b & w' & ? & ? & ? & ? & ? & Hl);
      [lia|].
    eapply drains_turn; try done; [lia|].
    apply IH; [done|lia].
Qed.

Lemma Inv_nil_Sound w : Inv w [] → Sound w.
Proof.
  intros HI. inv_fields HI.
  assert (Ht : tags w = []) by (unfold tags; by rewrite Hq_all).
  constructor; try done.
  - by rewrite Ht.
  - intros b. rewrite Ht. simpl. lia.
Qed.

Lemma Inv_drains_cleanly w q : Inv w q → drains_cleanly w.
Proof.
  revert w. induction q as [|x q IH]; intros w HI.
  - apply drains_done. unfold RB.length. by rewrite (inv_all_length w [] HI).
  - inv_fields HI.
    destruct (pop_all_sel _ x q Hwf_all Hq_all)
      as (e & a' & Hpop & He & Hwfa & Hca).
    destruct (checkInputs_body_refines w x q HI) as (w1 & Hbody & HI1 & _).
    apply (drains_turn w e (queue_of x) w1); try done.
    + unfold RB.length. rewrite (inv_all_length w _ HI). simpl. lia.
    + by rewrite Hpop.
    + assert (Hsel : ∀ {T} `{Blank T} (sel : Queued → option T) (rb : RB.t T) v,
                 rb_wf rb → rb_contents rb = omap sel (x :: q) →
                 sel x = Some v → 0 < RB._length rb).
      { intros T ? sel rb v Hwf Hc Hx.
        rewrite <- (rb_contents_length rb) by apply Hwf. rewrite Hc.
        change (omap sel (x :: q)) with
          (match sel x with Some y => y :: omap sel q | None => omap sel q end).
        rewrite Hx. simpl. lia. }
      destruct x; simpl; unfold RB.length; eapply Hsel; done.
    + by apply IH.
Qed.

Lemma slots_length_Inv w q : Inv w q → slots_length w = length q.
Proof.
  intros HI. inv_fields HI. unfold slots_length, buffer_length, RB.length.
  rewrite <- (rb_contents_length (Controller._eventsButtonDown (this w)))
    by apply Hwf_bd.
  rewrite <- (rb_contents_length (Controller._eventsButtonUp (this w)))
    by apply Hwf_bu.
  rewrite <- (rb_contents_length (Controller._eventsDoubleTap (this w)))
    by apply Hwf_dt.
  rewrite <- (rb_contents_length (Controller._eventsTouch (this w)))
    by apply Hwf_t.
  rewrite <- (rb_contents_length (Controller._eventsMultiTouch (this w)))
    by apply Hwf_mt.
  rewrite Hq_bd, Hq_bu, Hq_dt, Hq_t, Hq_mt.
  clear. induction q as [|x q IH]; [done|].
  unfold omap in *. destruct x; simpl in *; lia.
Qed.

(** C6, the length equation within the capacity of the ring buffers.  After
    capture calls [cs] on empty buffers with deferred callbacks: if at most
    [_maxSize] = 50 of them are not merged, [_allEvents] is as long as the
    five per-kind buffers together, which is the number of capture calls not
    merged; and, however many there are, every tag the drain pops from
    [_allEvents] names a per-kind buffer that is not empty. *)
Theorem order_buffer_matches_slots (w : World) (cs : list Capture) :
  Inv w [] → deferred w →
  (length cs - merges cs ≤ RB._maxSize → order_matches_slots w cs) ∧
  (∃ w1, captures cs w = Ok w1 ∧ drains_cleanly w1).
Proof.
  intros HI Hd. split.
  - intros Hroom.
    destruct (captures_refines cs w [] HI Hd) as (w1 & Hc & HI1 & _).
    { by rewrite absorb_all_length. }
    exists w1. split; [done|]. unfold RB.length.
    rewrite (inv_all_length _ _ HI1), (slots_length_Inv _ _ HI1).
    split_and!; [done|apply absorb_all_length|].
    by eapply Inv_drains_cleanly.
  - destruct (captures_sound cs w (Inv_nil_Sound w HI)) as (w1 & Hc & HS1).
    exists w1. split; [done|]. by apply Sound_drains_cleanly.
Qed.

(** C6 fails beyond the capacity: after 50 [ButtonDown] and one [ButtonUp]
    capture calls [_allEvents] has dropped a tag and holds 50, and the
    per-kind buffers hold 51 events. *)
Lemma order_buffer_matches_slots_overflow :
  ¬ order_matches_slots (attachControl false None)
      (replicate 50 (ButtonDown blank_PointerEvent)
         ++ [ButtonUp blank_PointerEvent]).
Proof.
  intros (w1 & Hc & Hl & _).
  vm_compute in Hc. injection Hc as <-.
  vm_compute in Hl. discriminate.
Qed.

(** ** The drain always completes *)

(** *** The drain loop on any buffers whose tags are defined *)

Lemma rb_pop_any {T} (rb : RB.t T) :
  0 < RB._length rb →
  RB._length (RB.pop rb).2 = RB._length rb - 1 ∧
  RB._container (RB.pop rb).2 = RB._container rb ∧
  ∀ v, (RB.pop rb).1 = Some v → v ∈ RB._container rb.
Proof.
  intros Hpos. unfold RB.pop.
  destruct (Nat.leb_spec (RB._length rb) 0); [lia|]. rb_simpl.
  split_and!; [done|done|].
  intros v Hv. unfold RB._wrapPointers in Hv. rb_simpl.
  by eapply list_elem_of_lookup_2.
Qed.

Lemma checkInputs_body_total w :
  tags_defined w → 0 < RB.length (Controller._allEvents (this w)) →
  ∃ w', checkInputs_body w = Ok w' ∧ tags_defined w' ∧
        RB.length (Controller._allEvents (this w'))
        = RB.length (Controller._allEvents (this w)) - 1.
Proof.
  unfold tags_defined, RB.length. intros Ht Hpos.
  destruct (rb_pop_any _ Hpos) as (Hl & Hc & Hin).
  unfold checkInputs_body.
  destruct (RB.pop (Controller._allEvents (this w))) as [o a'].
  simpl in Hl, Hc, Hin.
  destruct o as [e|].
  - assert (He : is_Some (IEvent.buffer e)).
    { eapply Forall_forall in Ht; [apply Ht|]. by apply Hin. }
    destruct He as [b ->].
    destruct b; simpl.
    + destruct (RB.pop (Controller._eventsButtonDown (this w))) as [[v|] s'];
        simpl; eexists; (split; [done|]); simpl; rewrite Hc, Hl; done.
    + destruct (RB.pop (Controller._eventsButtonUp (this w))) as [[v|] s'];
        simpl; eexists; (split; [done|]); simpl; rewrite Hc, Hl; done.
    + destruct (RB.pop (Controller._eventsDoubleTap (this w))) as [[v|] s'];
        simpl; eexists; (split; [done|]); simpl; rewrite Hc, Hl; done.
    + destruct (RB.pop (Controller._eventsTouch (this w))) as [[v|] s'];
        simpl; eexists; (split; [done|]); simpl; rewrite Hc, Hl; done.
    + destruct (RB.pop (Controller._eventsMultiTouch (this w))) as [[v|] s'];
        simpl; eexists; (split; [done|]); simpl; rewrite Hc, Hl; done.
  - eexists. split; [done|]. simpl. rewrite Hc, Hl. done.
Qed.

Lemma checkInputs_loop_total fuel w :
  tags_defined w → RB.length (Controller._allEvents (this w)) ≤ fuel →
  ∃ w', checkInputs_loop fuel w = Some (Ok w') ∧ tags_defined w' ∧
        RB.length (Controller._allEvents (this w')) = 0.
Proof.
  revert w. induction fuel as [|fuel IH]; intros w Ht Hfuel.
  - exists w. simpl.
    destruct (Nat.ltb_spec 0 (RB.length (Controller._allEvents (this w))));
      [lia|]. split_and!; [done|done|lia].
  - simpl.
    destruct (Nat.ltb_spec 0 (RB.length (Controller._allEvents (this w))))
      as [Hpos|Hz].
    + destruct (checkInputs_body_total w Ht Hpos) as (w1 & Hb & Ht1 & Hl1).
      rewrite Hb. apply IH; [done|lia].
    + exists w. split_and!; [done|done|lia].
Qed.

(** A tag with nothing behind it is passed over: the turn calls no handler
    and takes the tag off [_allEvents]. *)
Lemma checkInputs_body_skips w e b :
  0 < RB.length (Controller._allEvents (this w)) →
  (RB.pop (Controller._allEvents (this w))).1 = Some e →
  IEvent.buffer e = Some b → buffer_length b w = 0 →
  ∃ w1, checkInputs_body w = Ok w1 ∧ log w1 = log w ∧
        RB.length (Controller._allEvents (this w1))
        = RB.length (Controller._allEvents (this w)) - 1.
Proof.
  unfold RB.length. intros Hpos He Hb Hz.
  destruct (rb_pop_any _ Hpos) as (Hl & _ & _).
  unfold checkInputs_body.
  destruct (RB.pop (Controller._allEvents (this w))) as [o a'].
  simpl in He, Hl. subst o. rewrite Hb.
  destruct b; simpl in Hz; unfold RB.length in Hz; simpl.
  - unfold RB.pop. rewrite Hz. simpl. by eexists.
  - unfold RB.pop. rewrite Hz. simpl. by eexists.
  - unfold RB.pop. rewrite Hz. simpl. by eexists.
  - unfold RB.pop. rewrite Hz. simpl. by eexists.
  - unfold RB.pop. rewrite Hz. simpl. by eexists.
Qed.

(** C8.  When every slot of [_allEvents] names a buffer, as it does in every
    world the controller reaches ([reachable_tags_defined]), [checkInputs]
    returns normally and leaves [_allEvents] empty; and a turn of its loop
    that pops a tag whose buffer is empty calls no handler, takes the tag
    off [_allEvents] and goes on. *)
Theorem checkInputs_never_throws (w : World) :
  tags_defined w →
  (∃ w', checkInputs w = Some (Ok w') ∧
         RB.length (Controller._allEvents (this w')) = 0) ∧
  (∀ e b,
     0 < RB.length (Controller._allEvents (this w)) →
     (RB.pop (Controller._allEvents (this w))).1 = Some e →
     IEvent.buffer e = Some b → buffer_length b w = 0 →
     ∃ w1, checkInputs_body w = Ok w1 ∧ log w1 = log w ∧
           RB.length (Controller._allEvents (this w1))
           = RB.length (Controller._allEvents (this w)) - 1).
Proof.
  intros Ht. split.
  - destruct (checkInputs_loop_total
                (RB.length (Controller._allEvents (this w))) w Ht)
      as (w' & Hloop & _ & Hl); [done|].
    by exists w'.
  - intros e b. apply checkInputs_body_skips.
Qed.

(** *** Every reachable world has its tags defined *)

Lemma push_set_container_Forall {T} `{Blank T} (P : T → Prop)
    (rb rb' : RB.t T) upd :
  Forall P (RB._container rb) → (∀ v, P (upd v)) →
  RB.set_pushed upd (RB.push rb) = Ok rb' →
  Forall P (RB._container rb').
Proof.
  intros Hc Hupd.
  assert (Hpush : ∀ i, RB.pushed (RB.push rb) = RB.Slot i →
            Forall P (alter upd i (RB._container (RB.push rb)))).
  { unfold RB.push.
    set (rb1 := if RB._maxSize <=? RB._length rb then (RB.pop rb).2 else rb).
    assert (Hc1 : RB._container rb1 = RB._container rb).
    { subst rb1. destruct (_ <=? _); [|done]. unfold RB.pop.
      by destruct (_ <=? _). }
    clearbody rb1.
    set (rb2 := RB._wrapPointers rb1).
    assert (Hc2 : RB._container rb2 = RB._container rb) by done.
    assert (Hh : RB._head rb2 ≤ length (RB._container rb2)).
    { subst rb2. unfold RB._wrapPointers. rb_simpl. nat_cases; lia. }
    clearbody rb2.
    destruct ((RB._head rb2 =? RB._tail rb2) && _); rb_simpl.
    - intros i [= <-].
      rewrite alter_app_r_alt by (rewrite length_take; lia).
      rewrite length_take, Nat.min_l, Nat.sub_diag by lia. simpl.
      rewrite Hc2.
      apply Forall_app. split; [by apply Forall_take|].
      apply Forall_cons. split; [done|by apply Forall_drop].
    - intros i _. rewrite Hc2. apply Forall_alter; [done|]. intros; done. }
  unfold RB.set_pushed.
  destruct (RB.pushed (RB.push rb)) as [|i|v] eqn:Hp; [done| |].
  - intros [= <-]. rb_simpl. by apply Hpush.
  - exfalso. destruct (rb_push_pushed rb) as (i & v0 & Hp' & _). congruence.
Qed.

Lemma capture_tags_defined c w w' :
  capture c w = Ok w' → tags_defined w → tags_defined w'.
Proof.
  unfold tags_defined. intros Hc Ht.
  assert (Hpush : ∀ b w0 w1,
            Controller._allEvents (this w0) = Controller._allEvents (this w) →
            push_allEvents b w0 = Ok w1 →
            Forall (λ e, is_Some (IEvent.buffer e))
              (RB._container (Controller._allEvents (this w1)))).
  { intros b w0 w1 E. unfold push_allEvents. rewrite E.
    destruct (RB.set_pushed _ _) as [a'|] eqn:Ha; [|done].
    intros [= <-]. simpl.
    eapply push_set_container_Forall; [exact Ht| |exact Ha].
    intros v. simpl. eauto. }
  destruct c as [ev|ev|ty|pt dx dy|a b pd d pp p]; simpl in Hc.
  - unfold _addEventsButtonDown in Hc.
    destruct (negb _); [by injection Hc as <-|].
    destruct (RB.set_pushed _ _) as [s'|]; [|done]. simpl in Hc.
    eapply Hpush; [|exact Hc]; done.
  - unfold _addEventsButtonUp in Hc.
    destruct (negb _); [by injection Hc as <-|].
    destruct (RB.set_pushed _ _) as [s'|]; [|done]. simpl in Hc.
    eapply Hpush; [|exact Hc]; done.
  - unfold _addEventsDoubleTap in Hc.
    destruct (negb _); [by injection Hc as <-|].
    destruct (RB.set_pushed _ _) as [s'|]; [|done]. simpl in Hc.
    eapply Hpush; [|exact Hc]; done.
  - unfold _addEventsTouch in Hc.
    destruct (negb _); [by injection Hc as <-|].
    destruct (if COALESCE then _ else _) as [[]|]; [| |done]; simpl in Hc.
    + destruct (RB.set_pushed _ _) as [s'|]; [|done]. simpl in Hc.
      by injection Hc as <-.
    + destruct (RB.set_pushed _ _) as [s'|]; [|done]. simpl in Hc.
      eapply Hpush; [|exact Hc]; done.
  - unfold _addEventsMultiTouch in Hc.
    destruct (negb _); [by injection Hc as <-|].
    destruct (if COALESCE then _ else _) as [[]|]; [| |done]; simpl in Hc.
    + destruct (RB.set_pushed _ _) as [s'|]; [|done]. simpl in Hc.
      by injection Hc as <-.
    + destruct (RB.set_pushed _ _) as [s'|]; [|done]. simpl in Hc.
      eapply Hpush; [|exact Hc]; done.
Qed.

(** *** What [_pointerInput] preserves *)

Lemma release_point_buffers engine evt w w' :
  release_point engine evt w = Ok w' →
  buffers w' = buffers w ∧ scope w' = scope w ∧ heap w' = heap w ∧
  log w' = log w ∧
  Controller._defferCallback (this w') = Controller._defferCallback (this w) ∧
  previous (this w') = previous (this w).
Proof.
  unfold release_point. intros Hr.
  repeat match type of Hr with
  | Ok _ = Ok _ => injection Hr as <-
  | TypeError = Ok _ => discriminate
  | context [if ?b then _ else _] => destruct b
  | context [match ?x with _ => _ end] => destruct x eqn:?
  | mbind _ ?r = Ok _ => destruct r eqn:?; simpl in Hr
  end;
  repeat match goal with
  | |- context [if ?b then _ else _] => destruct b
  end; done.
Qed.

Ltac destruct_run H :=
  repeat match type of H with
  | context [alloc] => progress cbn [alloc] in H
  | Ok _ = Ok _ => injection H as <-
  | TypeError = Ok _ => discriminate
  | context [if ?b then _ else _] => destruct b eqn:?
  | context [match ?x with _ => _ end] => destruct x eqn:?
  | mbind _ ?r = Ok _ => destruct r eqn:?; simpl in H
  end.

Ltac destruct_binds :=
  repeat match goal with
  | H : mbind _ ?r = Ok _ |- _ => destruct r eqn:?; simpl in H
  | H : Ok _ = Ok _ |- _ => injection H as <-
  | H : TypeError = Ok _ |- _ => discriminate
  end.

Section Preserved.
Variable P : World → Prop.
Hypothesis P_buffers : ∀ w w', buffers w' = buffers w → P w → P w'.
Hypothesis P_capture : ∀ c w w', capture c w = Ok w' → P w → P w'.

Ltac solveP :=
  first
    [ assumption
    | match goal with
      | HP : P ?w |- P ?w' => apply (P_buffers w w' eq_refl HP)
      end ].

Ltac grow :=
  repeat match goal with
  | E : _addEventsButtonDown ?a ?w0 = Ok ?w1 |- _ =>
      assert (P w1) by (apply (P_capture (ButtonDown a) w0 w1 E); solveP);
      clear E
  | E : _addEventsButtonUp ?a ?w0 = Ok ?w1 |- _ =>
      assert (P w1) by (apply (P_capture (ButtonUp a) w0 w1 E); solveP);
      clear E
  | E : _addEventsDoubleTap ?a ?w0 = Ok ?w1 |- _ =>
      assert (P w1) by (apply (P_capture (DoubleTap a) w0 w1 E); solveP);
      clear E
  | E : _addEventsTouch ?a ?b ?c ?w0 = Ok ?w1 |- _ =>
      assert (P w1) by (apply (P_capture (Touch a b c) w0 w1 E); solveP);
      clear E
  | E : _addEventsMultiTouch ?a ?b ?c ?d ?e ?f ?w0 = Ok ?w1 |- _ =>
      assert (P w1)
        by (apply (P_capture (MultiTouch a b c d e f) w0 w1 E); solveP);
      clear E
  | E : release_point ?en ?ev ?w0 = Ok ?w1 |- _ =>
      assert (P w1)
        by (apply (P_buffers w0 w1
                     (proj1 (release_point_buffers en ev w0 w1 E)));
            solveP);
      clear E
  end.

Lemma pointerInput_preserves engine p w w' :
  _pointerInput engine p w = Ok w' → P w → P w'.
Proof.
  unfold _pointerInput. intros Hr HP.
  destruct_run Hr; destruct_binds; grow;
    repeat match goal with
    | |- context [match ?x with _ => _ end] => destruct x
    | |- context [if ?b then _ else _] => destruct b
    end; solveP.
Qed.

Lemma inputs_preserves ps w w' : inputs ps w = Ok w' → P w → P w'.
Proof.
  revert w. induction ps as [|[engine p] ps IH]; intros w Hr HP; simpl in Hr.
  - by injection Hr as <-.
  - destruct (_pointerInput engine p w) as [w1|] eqn:E; [|done].
    simpl in Hr. eapply IH; [done|]. by eapply pointerInput_preserves.
Qed.
End Preserved.

Lemma checkInputs_tags_defined w w' :
  checkInputs w = Some (Ok w') → tags_defined w → tags_defined w'.
Proof.
  intros Hc Ht. unfold checkInputs in Hc.
  destruct (checkInputs_loop_total _ w Ht (le_n _)) as (w1 & Hl & Ht1 & _).
  congruence.
Qed.

Lemma reachable_tags_defined w : reachable w → tags_defined w.
Proof.
  induction 1 as [npd el|engine p w w' _ IH Hp|w _ IH|w w' _ IH Hc|d w _ IH].
  - by apply Forall_nil.
  - revert IH. apply pointerInput_preserves with (engine := engine) (p := p);
      try done.
    + unfold tags_defined, buffers. intros w1 w2 [= -> _]. done.
    + intros c w1 w2. apply capture_tags_defined.
  - done.
  - by eapply checkInputs_tags_defined.
  - done.
Qed.

(** ** Loss of focus *)

Lemma filter_motion_snoc l c :
  handler_kind c = None → filter is_motion (l ++ [c]) = filter is_motion l.
Proof.
  intros Hc. rewrite filter_app, filter_cons_False, filter_nil, app_nil_r.
  - done.
  - unfold is_motion. rewrite Hc. simpl. tauto.
Qed.

(** A move outside pointer lock, with no contact tracked, reaches no
    capture call. *)
Lemma plain_move_untracked engine p w :
  is_plain_move (engine, p) → Controller._pointA (this w) = None →
  ∃ w', _pointerInput engine p w = Ok w' ∧
        buffers w' = buffers w ∧ scope w' = scope w ∧ heap w' = heap w ∧
        Controller._pointA (this w') = None ∧
        Controller._pointB (this w') = Controller._pointB (this w) ∧
        filter is_motion (log w') = filter is_motion (log w).
Proof.
  intros [Hmove Hlock] HA. simpl in Hmove, Hlock.
  unfold _pointerInput. rewrite Hmove, Hlock.
  destruct (Engine.isInVRExclusivePointerMode engine).
  { by exists w. }
  simpl.
  destruct (negb (Scope.noPreventDefault (scope w))); simpl; rewrite HA.
  - eexists. split; [done|]. split_and!; try done.
    simpl. by apply filter_motion_snoc.
  - eexists. split; [done|]. split_and!; done.
Qed.

Lemma plain_moves_untracked ps w :
  Forall is_plain_move ps → Controller._pointA (this w) = None →
  ∃ w', inputs ps w = Ok w' ∧
        buffers w' = buffers w ∧ scope w' = scope w ∧ heap w' = heap w ∧
        Controller._pointA (this w') = None ∧
        Controller._pointB (this w') = Controller._pointB (this w) ∧
        filter is_motion (log w') = filter is_motion (log w).
Proof.
  intros Hps. revert w. induction Hps as [|[engine p] ps Hp _ IH]; intros w HA.
  - by exists w.
  - destruct (plain_move_untracked engine p w Hp HA)
      as (w1 & Hr & Hb & Hs & Hh & HA1 & HB1 & Hl).
    destruct (IH w1 HA1) as (w' & Hr' & Hb' & Hs' & Hh' & HA' & HB' & Hl').
    exists w'. simpl. rewrite Hr. simpl.
    split_and!; [done|congruence..].
Qed.



(** What [_onLostFocus] resets of the previous-pinch state, and what it
    leaves: the variables [previousPinchSquaredDistance] and
    [previousMultiTouchPanPosition] of [attachControl] become 0 and null, the
    fields [_previousPinchSquaredDistance] and
    [_previousMultiTouchPanPosition], from which a queued [MultiTouch] event
    takes its previous distance and pan position, keep their values. *)
Lemma lostFocus_previous w :
  Scope.previousPinchSquaredDistance (scope (_onLostFocus w)) = num 0 ∧
  Scope.previousMultiTouchPanPosition (scope (_onLostFocus w)) = None ∧
  previous (this (_onLostFocus w)) = previous (this w).
Proof. done. Qed.

(** On a sample run: the focus is lost in the middle of a pinch whose last
    [onMultiTouch] call carried the distance 79601 and the pan position 2.
    The first [onMultiTouch] call of the next pinch then carries them as its
    previous distance and previous pan position, where a controller that was
    just attached delivers 0 and null. *)
Lemma lostFocus_keeps_dispatched_pinch :
  (∃ w,
     checkInputs (after next_pinch (_onLostFocus mid_pinch)) = Some (Ok w) ∧
     filter is_onMultiTouch (since (log (_onLostFocus mid_pinch)) w)
     = [onMultiTouch (Some 3) (Some 4) (num 79601) (num 81)
          (Some 2) (Some 5)]) ∧
  (∃ w,
     checkInputs (after next_pinch (attachControl false (Some "canvas")))
     = Some (Ok w) ∧
     filter is_onMultiTouch (log w)
     = [onMultiTouch (Some 0) (Some 1) (num 0) (num 81) None (Some 2)]).
Proof. split; eexists; split; by vm_compute. Qed.

(** ** The end of a pinch *)

Ltac not_multiTouch :=
  let H := fresh in
  unfold is_onMultiTouch; intros H; apply bool_decide_unpack in H;
  simpl in H; discriminate.

(** [_addEventsButtonUp] leaves the MultiTouch buffer alone and calls no
    [onMultiTouch]. *)
Lemma addEventsButtonUp_no_multiTouch evt w w' :
  _addEventsButtonUp evt w = Ok w' →
  Controller._eventsMultiTouch (this w')
    = Controller._eventsMultiTouch (this w) ∧
  filter is_onMultiTouch (log w') = filter is_onMultiTouch (log w) ∧
  scope w' = scope w ∧ heap w' = heap w.
Proof.
  unfold _addEventsButtonUp, push_allEvents. intros Hr.
  destruct (negb _).
  - injection Hr as <-. simpl. split_and!; try done.
    rewrite filter_app, filter_cons_False, filter_nil, app_nil_r; [done|].
    not_multiTouch.
  - destruct_binds. simpl in *. destruct_binds. done.
Qed.

Lemma capture_scope_heap c w w' :
  capture c w = Ok w' → scope w' = scope w ∧ heap w' = heap w.
Proof.
  intros Hc.
  destruct c; simpl in Hc;
    unfold _addEventsButtonDown, _addEventsButtonUp, _addEventsDoubleTap,
      _addEventsTouch, _addEventsMultiTouch, push_allEvents, COALESCE in Hc;
    destruct (negb _); destruct_run Hc; destruct_binds; done.
Qed.

Lemma buttonUp_captures (engine : Engine.t) (p : PointerInfo.t)
    (w w' : World) :
  is_buttonUp engine p w →
  _pointerInput engine p w = Ok w' →
  let evt := PointerInfo.event p in
  ∃ w1 w2,
    release_point engine evt
      (emit (releasePointerCapture (PointerEvent.pointerId evt))
         (with_this
            (Controller.set_keys
               (PointerEvent.altKey evt) (PointerEvent.ctrlKey evt)
               (PointerEvent.metaKey evt) (PointerEvent.shiftKey evt)
               (PointerEvent.buttons evt)) w)) = Ok w1 ∧
    captures
      ((if pinch_populated w
        then [MultiTouch
                (Controller._pointA (this w1)) (Controller._pointB (this w1))
                (Scope.previousPinchSquaredDistance (scope w)) (num 0)
                (Scope.previousMultiTouchPanPosition (scope w)) None]
        else []) ++ [ButtonUp evt]) w1 = Ok w2 ∧
    this w' = this w2 ∧ heap w' = heap w2 ∧
    log w'
    = log w2
        ++ (if Scope.noPreventDefault (scope w) then [] else [preventDefault]) ∧
    is_zero (Scope.previousPinchSquaredDistance (scope w')) = true ∧
    Scope.previousMultiTouchPanPosition (scope w') = None ∧
    (pinch_populated w = false →
     Controller._eventsMultiTouch (this w')
       = Controller._eventsMultiTouch (this w) ∧
     filter is_onMultiTouch (log w') = filter is_onMultiTouch (log w)).
Proof.
  intros (Hup & Hvr & Hlock & Hbtn & Hsrc) Hr evt.
  unfold _pointerInput in Hr. fold evt in Hr.
  rewrite Hvr, Hlock, Hup in Hr.
  rewrite (bool_decide_eq_true_2 _ Hbtn) in Hr.
  assert (Hs : bool_decide
                 (is_Some match PointerEvent.srcElement evt with
                          | Some e => Some e
                          | None => PointerEvent.target evt
                          end) = true).
  { apply bool_decide_eq_true_2. subst evt.
    destruct (PointerEvent.srcElement _); [eauto|].
    destruct Hsrc as [[? [=]]|?]; done. }
  rewrite Hs in Hr. simpl in Hr.
  destruct (release_point engine evt _) as [w1|] eqn:Hrel; [|done].
  simpl in Hr.
  destruct (release_point_buffers _ _ _ _ Hrel)
    as (Hb1 & Hs1 & Hh1 & Hl1 & Hd1 & Hp1).
  simpl in Hs1.
  exists w1.
  assert (Hpop : pinch_populated w
                 = negb (is_zero
                           (Scope.previousPinchSquaredDistance (scope w1)))
                   || bool_decide
                        (is_Some
                           (Scope.previousMultiTouchPanPosition (scope w1)))).
  { unfold pinch_populated. by rewrite Hs1. }
  rewrite <- Hpop in Hr.
  destruct (pinch_populated w) eqn:Hpp.
  - destruct (_addEventsMultiTouch _ _ _ _ _ _ w1) as [wm|] eqn:Hm;
      [|done].
    simpl in Hr.
    destruct (_addEventsButtonUp evt _) as [wu|] eqn:Hu; [|done].
    simpl in Hr. injection Hr as <-.
    destruct (capture_scope_heap (MultiTouch _ _ _ _ _ _) _ _ Hm)
      as [Hsm Hhm].
    (* the pinch variables do not matter to [_addEventsButtonUp] *)
    assert (Hu' : ∃ w2, _addEventsButtonUp evt wm = Ok w2 ∧
                    this wu = this w2 ∧ heap wu = heap w2 ∧ log wu = log w2 ∧
                    scope wu = Scope.set_previous (num 0) None (scope wm)).
    { revert Hu. unfold _addEventsButtonUp, push_allEvents. simpl.
      destruct (negb (Controller._defferCallback (this wm))).
      - intros Hu. injection Hu as <-. eexists. split; [done|]. done.
      - intros Hu. destruct_binds. simpl in *. destruct_binds.
        eexists. split; [done|]. done. }
    destruct Hu' as (w2 & Hu2 & Ht2 & Hh2 & Hl2 & Hsc2).
    exists w2. simpl captures. rewrite <- Hs1. rewrite Hm. simpl.
    rewrite Hu2.
    assert (Hnpd : Scope.noPreventDefault (scope wu)
                   = Scope.noPreventDefault (scope w)).
    { rewrite Hsc2. simpl. by rewrite Hsm, Hs1. }
    rewrite Hnpd, ?Hs1.
    destruct (Scope.noPreventDefault (scope w)); simpl;
      rewrite ?app_nil_r, ?Hsc2; split_and!; try done; congruence.
  - simpl in Hr.
    destruct (_addEventsButtonUp evt w1) as [wu|] eqn:Hu; [|done].
    simpl in Hr. injection Hr as <-.
    destruct (addEventsButtonUp_no_multiTouch _ _ _ Hu)
      as (Hmt & Hfl & Hsu & Hhu).
    exists wu. simpl captures. rewrite Hu. simpl.
    assert (Hprev : is_zero (Scope.previousPinchSquaredDistance (scope w))
                    = true
                    ∧ Scope.previousMultiTouchPanPosition (scope w) = None).
    { unfold pinch_populated in Hpp.
      apply orb_false_iff in Hpp as [H1 H2].
      apply negb_false_iff in H1.
      apply bool_decide_eq_false in H2.
      split; [done|]. destruct (Scope.previousMultiTouchPanPosition _);
        [exfalso; eauto|done]. }
    destruct Hprev as [Hp0 Hpn].
    assert (Hnpd : Scope.noPreventDefault (scope wu)
                   = Scope.noPreventDefault (scope w)).
    { by rewrite Hsu, Hs1. }
    unfold buffers in Hb1. injection Hb1 as _ _ _ _ _ Hmt1.
    assert (Hlw : filter is_onMultiTouch (log wu)
                  = filter is_onMultiTouch (log w)).
    { rewrite Hfl, Hl1. simpl.
      rewrite filter_app, filter_cons_False, filter_nil, app_nil_r;
        [done|].
      not_multiTouch. }
    rewrite Hnpd.
    destruct (Scope.noPreventDefault (scope w)); simpl;
      rewrite ?app_nil_r; split_and!; try done; try congruence.
    + intros _. split; [congruence|done].
    + intros _. split; [congruence|].
      rewrite filter_app, filter_cons_False, filter_nil, app_nil_r; [done|].
      not_multiTouch.
Qed.

(** ** Every notification is taken *)

Lemma Sound_buffers w w' : buffers w' = buffers w → Sound w → Sound w'.
Proof.
  unfold buffers. intros [= E1 E2 E3 E4 E5 E6] HS.
  destruct HS as [? ? ? ? ? ? Ht Hc].
  constructor; rewrite ?E1, ?E2, ?E3, ?E4, ?E5, ?E6; try done.
  - unfold tags in *. by rewrite E1.
  - intros b. specialize (Hc b). unfold tags, buffer_length in *.
    rewrite E1. destruct b; rewrite ?E2, ?E3, ?E4, ?E5, ?E6; done.
Qed.

Lemma capture_Sound c w w' : capture c w = Ok w' → Sound w → Sound w'.
Proof.
  intros Hc HS. destruct (capture_sound c w HS) as (w1 & Hc1 & HS1).
  congruence.
Qed.

Lemma capture_settings c w w' :
  capture c w = Ok w' → surroundings w' = surroundings w.
Proof.
  intros Hc.
  destruct c; simpl in Hc;
    unfold _addEventsButtonDown, _addEventsButtonUp, _addEventsDoubleTap,
      _addEventsTouch, _addEventsMultiTouch, push_allEvents, COALESCE in Hc;
    destruct (negb _); destruct_run Hc; destruct_binds; done.
Qed.

Lemma bind_capture c w (k : World → Result World) (Q : World → Prop) :
  Sound w →
  (∀ w1, Sound w1 → surroundings w1 = surroundings w →
         ∃ w', k w1 = Ok w' ∧ Q w') →
  ∃ w', (capture c w ≫= k) = Ok w' ∧ Q w'.
Proof.
  intros HS Hk. destruct (capture_sound c w HS) as (w1 & Hc & HS1).
  rewrite Hc. simpl. apply Hk; [done|]. by eapply capture_settings.
Qed.

Lemma bind_deref r w (k : PointerTouch.t → Result World) (Q : World → Prop) :
  r < length (heap w) →
  (∀ pt, ∃ w', k pt = Ok w' ∧ Q w') →
  ∃ w', (deref r w ≫= k) = Ok w' ∧ Q w'.
Proof.
  intros Hr Hk. unfold deref.
  destruct (heap w !! r) as [pt|] eqn:E; [simpl; apply Hk|].
  apply lookup_ge_None in E. lia.
Qed.

Ltac stable_leaf :=
  match goal with
  | HS : Sound ?w1 |- ∃ w', Ok ?X = Ok w' ∧ Stable w' =>
      exists X; split; [reflexivity|]; split;
      [ apply (Sound_buffers w1 X eq_refl HS) | ]
  end.

Lemma release_point_total engine evt w :
  tracked w →
  ∃ w', release_point engine evt w = Ok w' ∧ tracked w' ∧
        buffers w' = buffers w ∧ scope w' = scope w.
Proof.
  intros Ht. unfold release_point.
  set (w0 := if negb _ then _ else w).
  assert (Ht0 : tracked w0).
  { subst w0. destruct (negb _); [|done].
    intros r [E|E]; simpl in E; [|done]. apply Ht. by left. }
  assert (Hb0 : buffers w0 = buffers w ∧ scope w0 = scope w).
  { subst w0. by destruct (negb _). }
  destruct Hb0 as [Hb0 Hs0]. clearbody w0.
  destruct (Engine._badOS engine).
  { eexists. split; [done|]. split_and!; try done. intros r [E|E]; done. }
  destruct (Controller._pointA (this w0)) as [a|] eqn:HA;
    [destruct (Controller._pointB (this w0)) as [b|] eqn:HB|].
  - apply bind_deref. { apply Ht0. by left. }
    intros pa. case_bool_decide.
    + eexists. split; [done|]. split_and!; try done.
      intros r [E|E]; simpl in E; [|done]. apply Ht0. right. congruence.
    + apply bind_deref. { apply Ht0. by right. }
      intros pb. case_bool_decide.
      * eexists. split; [done|]. split_and!; try done.
        intros r [E|E]; simpl in E; [|done]. apply Ht0. left. congruence.
      * eexists. split; [done|]. split_and!; try done. intros r [E|E]; done.
  - eexists. split; [done|]. split_and!; try done. intros r [E|E]; done.
  - eexists. split; [done|]. split_and!; try done. intros r [E|E]; done.
Qed.

Lemma tracked_surroundings w w' :
  surroundings w' = surroundings w → tracked w → tracked w'.
Proof.
  unfold surroundings, settings, tracked.
  intros [= _ _ _ _ _ _ _ EA EB _ Eh] Ht r. rewrite EA, EB, Eh. apply Ht.
Qed.

(** [_pointerInput] returns normally in every stable world, and leaves it
    stable. *)
Lemma pointerInput_total engine p w :
  Stable w → ∃ w', _pointerInput engine p w = Ok w' ∧ Stable w'.
Proof.
  intros [HS Ht]. unfold _pointerInput.
  set (evt := PointerInfo.event p).
  destruct (Engine.isInVRExclusivePointerMode engine); [by exists w|].
  destruct (negb _ && _) eqn:Hf; [by exists w|].
  set (w0 := with_this _ w).
  assert (HS0 : Sound w0) by apply (Sound_buffers w w0 eq_refl HS).
  assert (Ht0 : tracked w0) by (intros r; apply Ht).
  clearbody w0. clear Hf.
  destruct (Engine.isPointerLock engine).
  { change (_addEventsTouch ?a ?b ?c ?w) with (capture (Touch a b c) w).
    apply bind_capture; [done|]. intros w1 HS1 Hs1.
    stable_leaf. intros r [E|E]; done. }
  destruct (bool_decide (PointerInfo.type p = POINTERDOWN) && _) eqn:Hdown.
  { (* POINTERDOWN *)
    set (point := PointerTouch.Build _ _ _ _).
    set (w1 := match Controller._pointA _ with Some _ => _ | None => _ end).
    assert (H1 : Sound w1 ∧ tracked w1).
    { subst w1. simpl.
      destruct (Controller._pointA (this w0)) as [a|] eqn:HA;
        [destruct (Controller._pointB (this w0)) as [b|] eqn:HB|].
      - split; [(eapply Sound_buffers; [|exact HS0]; reflexivity)|].
        intros r. simpl. rewrite HA, HB. intros H. apply Ht0.
        by rewrite HA, HB.
      - split; [(eapply Sound_buffers; [|exact HS0]; reflexivity)|].
        intros r. simpl. rewrite length_app. simpl.
        intros [[= <-]|[= <-]]; [|lia].
        assert (a < length (heap w0)) by (apply Ht0; by left). lia.
      - split; [(eapply Sound_buffers; [|exact HS0]; reflexivity)|].
        intros r. simpl. rewrite length_app. simpl.
        intros [[= <-]|E]; [lia|].
        assert (r < length (heap w0)) by (apply Ht0; by right). lia. }
    destruct H1 as [HS1 Ht1]. clearbody w1.
    change (_addEventsButtonDown ?a ?w) with (capture (ButtonDown a) w).
    apply bind_capture; [done|]. intros w2 HS2 Hs2.
    pose proof (tracked_surroundings _ _ Hs2 Ht1) as Ht2.
    destruct (negb _); [destruct (Scope.element _)|];
      stable_leaf; intros r; apply Ht2. }
  destruct (bool_decide (PointerInfo.type p = POINTERDOUBLETAP)).
  { change (_addEventsDoubleTap ?a ?w) with (capture (DoubleTap a) w).
    replace (capture (DoubleTap (PointerEvent.pointerType evt)) w0)
      with (capture (DoubleTap (PointerEvent.pointerType evt)) w0 ≫= Ok).
    2: { by destruct (capture _ _). }
    apply bind_capture; [done|]. intros w1 HS1 Hs1.
    exists w1. split; [done|]. split; [done|].
    by apply (tracked_surroundings _ _ Hs1). }
  clear Hdown.
  destruct (bool_decide (PointerInfo.type p = POINTERUP) && _) eqn:Hup.
  { (* POINTERUP *)
    set (w1 := emit _ w0).
    assert (HS1 : Sound w1) by apply (Sound_buffers w0 w1 eq_refl HS0).
    assert (Ht1 : tracked w1) by (intros r; apply Ht0).
    clearbody w1.
    destruct (release_point_total engine evt w1 Ht1)
      as (w2 & Hrel & Ht2 & Hb2 & Hs2).
    rewrite Hrel. simpl.
    pose proof (Sound_buffers _ _ Hb2 HS1) as HS2.
    destruct (_ || _).
    - change (_addEventsMultiTouch ?a ?b ?c ?d ?e ?f ?w)
        with (capture (MultiTouch a b c d e f) w).
      destruct (capture_sound (MultiTouch (Controller._pointA (this w2))
                  (Controller._pointB (this w2))
                  (Scope.previousPinchSquaredDistance (scope w2)) (num 0)
                  (Scope.previousMultiTouchPanPosition (scope w2)) None)
                  w2 HS2) as (w3 & Hc3 & HS3).
      rewrite Hc3. simpl.
      pose proof (tracked_surroundings _ _ (capture_settings _ _ _ Hc3) Ht2)
        as Ht3.
      set (w4 := with_scope _ w3).
      assert (HS4 : Sound w4) by apply (Sound_buffers w3 w4 eq_refl HS3).
      assert (Ht4 : tracked w4) by (intros r; apply Ht3).
      clearbody w4.
      change (_addEventsButtonUp ?a ?w) with (capture (ButtonUp a) w).
      apply bind_capture; [done|]. intros w5 HS5 Hs5.
      pose proof (tracked_surroundings _ _ Hs5 Ht4) as Ht5.
      destruct (negb _); stable_leaf; intros r; apply Ht5.
    - simpl.
      change (_addEventsButtonUp ?a ?w) with (capture (ButtonUp a) w).
      apply bind_capture; [done|]. intros w5 HS5 Hs5.
      pose proof (tracked_surroundings _ _ Hs5 Ht2) as Ht5.
      destruct (negb _); stable_leaf; intros r; apply Ht5. }
  destruct (bool_decide (PointerInfo.type p = POINTERMOVE)); [|by exists w0].
  set (w1 := if negb _ then _ else w0).
  assert (H1 : Sound w1 ∧ tracked w1
               ∧ Controller._pointA (this w1) = Controller._pointA (this w0)
               ∧ Controller._pointB (this w1) = Controller._pointB (this w0)).
  { subst w1. destruct (negb _); [|done].
    split_and!; try done. (eapply Sound_buffers; [|exact HS0]; reflexivity). }
  destruct H1 as (HS1 & Ht1 & _ & _). clearbody w1.
  destruct (Controller._pointA (this w1)) as [a|] eqn:HA;
    [destruct (Controller._pointB (this w1)) as [b|] eqn:HB|].
  - (* pinch *)
    assert (Ha : a < length (heap w1)) by (apply Ht1; by left).
    assert (Hb : b < length (heap w1)) by (apply Ht1; by right).
    apply bind_deref; [done|]. intros pa.
    set (ed := if bool_decide _ then a else b).
    assert (Hed : ed < length (heap w1)).
    { subst ed.
      destruct (bool_decide
                  (PointerTouch.pointerId pa = PointerEvent.pointerId evt));
        [exact Ha|exact Hb]. }
    apply bind_deref; [done|]. intros _.
    set (w2 := assign_xy ed _ _ w1).
    assert (Hh2 : length (heap w2) = length (heap w1)).
    { subst w2. simpl. apply length_alter. }
    apply bind_deref; [lia|]. intros pa'.
    apply bind_deref; [lia|]. intros pb'.
    cbn [alloc].
    set (w3 := MkWorld _ _ _ _).
    assert (HS3 : Sound w3) by apply (Sound_buffers w1 w3 eq_refl HS1).
    assert (Ht3 : tracked w3).
    { intros r Hr. subst w3 w2. simpl in *. rewrite length_app, length_alter.
      assert (r < length (heap w1)) by (by apply Ht1). lia. }
    clearbody w3.
    change (_addEventsMultiTouch ?a ?b ?c ?d ?e ?f ?w)
      with (capture (MultiTouch a b c d e f) w).
    apply bind_capture; [done|]. intros w4 HS4 Hs4.
    pose proof (tracked_surroundings _ _ Hs4 Ht3) as Ht4.
    stable_leaf. intros r; apply Ht4.
  - (* one contact *)
    assert (Ha : a < length (heap w1)) by (apply Ht1; by left).
    apply bind_deref; [done|]. intros pa.
    change (_addEventsTouch ?a ?b ?c ?w) with (capture (Touch a b c) w).
    apply bind_capture; [done|]. intros w2 HS2 Hs2.
    pose proof (tracked_surroundings _ _ Hs2 Ht1) as Ht2.
    stable_leaf. intros r Hr. simpl in *. rewrite length_alter.
    by apply Ht2.
  - by exists w1.
Qed.

Lemma checkInputs_body_surroundings w w' :
  checkInputs_body w = Ok w' → surroundings w' = surroundings w.
Proof.
  unfold checkInputs_body.
  destruct (RB.pop (Controller._allEvents (this w))) as [[e|] a'];
    [|by intros [= <-]].
  destruct (IEvent.buffer e) as [[]|]; [| | | | |done]; simpl.
  - destruct (RB.pop (Controller._eventsButtonDown (this w))) as [[v|] s'];
      by intros [= <-].
  - destruct (RB.pop (Controller._eventsButtonUp (this w))) as [[v|] s'];
      by intros [= <-].
  - destruct (RB.pop (Controller._eventsDoubleTap (this w))) as [[v|] s'];
      by intros [= <-].
  - destruct (RB.pop (Controller._eventsTouch (this w))) as [[v|] s'];
      by intros [= <-].
  - destruct (RB.pop (Controller._eventsMultiTouch (this w))) as [[v|] s'];
      by intros [= <-].
Qed.

Lemma checkInputs_loop_Stable fuel w :
  Stable w → RB.length (Controller._allEvents (this w)) ≤ fuel →
  ∃ w', checkInputs_loop fuel w = Some (Ok w') ∧ Stable w'.
Proof.
  revert w. induction fuel as [|fuel IH]; intros w [HS Ht] Hfuel.
  - exists w. simpl.
    destruct (Nat.ltb_spec 0 (RB.length (Controller._allEvents (this w))));
      [lia|]. done.
  - simpl.
    destruct (Nat.ltb_spec 0 (RB.length (Controller._allEvents (this w))))
      as [Hpos|Hz]; [|by exists w].
    destruct (checkInputs_body_sound w HS Hpos)
      as (e & b & w1 & _ & _ & _ & Hb & HS1 & Hl1).
    rewrite Hb. apply IH; [|lia].
    split; [done|].
    eapply tracked_surroundings; [|exact Ht].
    by apply checkInputs_body_surroundings.
Qed.

Lemma checkInputs_Stable w :
  Stable w → ∃ w', checkInputs w = Some (Ok w') ∧ Stable w'.
Proof. intros HS. by apply checkInputs_loop_Stable. Qed.

Lemma reachable_Stable w : reachable w → Stable w.
Proof.
  induction 1 as [npd el|engine p w w' _ IH Hp|w _ IH|w w' _ IH Hc|d w _ IH].
  - split; [apply Inv_nil_Sound, Inv_attach|]. intros r [E|E]; done.
  - destruct (pointerInput_total engine p w IH) as (w1 & H1 & HS1).
    congruence.
  - destruct IH as [HS Ht]. split.
    + eapply Sound_buffers; [|exact HS]. reflexivity.
    + intros r [E|E]; done.
  - destruct (checkInputs_Stable w IH) as (w1 & H1 & HS1). congruence.
  - destruct IH as [HS Ht]. split.
    + eapply Sound_buffers; [|exact HS]. reflexivity.
    + intros r. apply Ht.
Qed.

(** Every notification is taken, and every frame drained, in any world the
    controller can reach. *)
Lemma reachable_pointerInput engine p w :
  reachable w → ∃ w', _pointerInput engine p w = Ok w' ∧ reachable w'.
Proof.
  intros Hr.
  destruct (pointerInput_total engine p w (reachable_Stable w Hr))
    as (w' & Hp & _).
  exists w'. split; [done|]. by eapply reach_pointerInput.
Qed.





(** ** The theorems on sample runs *)

Lemma inputs_reachable ps w w' :
  reachable w → inputs ps w = Ok w' → reachable w'.
Proof.
  revert w. induction ps as [|[engine p] ps IH]; intros w Hr Hi; simpl in Hi.
  - by injection Hi as <-.
  - destruct (_pointerInput engine p w) as [w1|] eqn:Hp; [|done].
    simpl in Hi. eapply IH; [|done]. by eapply reach_pointerInput.
Qed.

Lemma reachable_after ps w : reachable w → reachable (after ps w).
Proof.
  intros Hr. unfold after.
  destruct (inputs ps w) as [w'|] eqn:Hi; [|done].
  by eapply inputs_reachable.
Qed.

Lemma reachable_mid_pinch : reachable mid_pinch.
Proof.
  unfold mid_pinch.
  destruct (checkInputs _) as [[w|]|] eqn:Hc; try apply reach_attach.
  eapply reach_checkInputs; [|exact Hc].
  apply reachable_after, reach_attach.
Qed.

(** C1 on the frame ButtonDown, Touch, ButtonDown, ButtonUp. *)
Lemma dispatch_in_capture_order_witness :
  Inv (attachControl false None) [] ∧ deferred (attachControl false None) ∧
  length sample_frame - merges sample_frame ≤ RB._maxSize ∧
  dispatches_in_capture_order (attachControl false None) sample_frame.
Proof.
  assert (HI := Inv_attach false None).
  assert (Hroom : length sample_frame - merges sample_frame ≤ RB._maxSize)
    by (vm_compute; lia).
  split_and!; [exact HI|reflexivity|exact Hroom|].
  exact (proj1 (dispatch_in_capture_order _ _ HI eq_refl Hroom)).
Defined.

(** C2 on three [Touch] capture calls between a [ButtonDown] and a
    [ButtonUp]. *)
Lemma touch_run_coalesces_witness :
  Inv (attachControl false None) [] ∧ deferred (attachControl false None) ∧
  kind_of (ButtonDown (sample_event "mouse" 1 0 100 200)) ≠ TouchBuffer ∧
  kind_of (ButtonUp (sample_event "mouse" 1 0 102 198)) ≠ TouchBuffer ∧
  length ([] ++ ButtonDown (sample_event "mouse" 1 0 100 200)
          :: (touch_of <$> (Some 0, num 1, num 0)
                :: [(Some 0, num 1, num 0); (Some 1, num 0, num (-2))])
          ++ ButtonUp (sample_event "mouse" 1 0 102 198) :: [])
    - merges ([] ++ ButtonDown (sample_event "mouse" 1 0 100 200)
              :: (touch_of <$> (Some 0, num 1, num 0)
                    :: [(Some 0, num 1, num 0); (Some 1, num 0, num (-2))])
              ++ ButtonUp (sample_event "mouse" 1 0 102 198) :: [])
    ≤ RB._maxSize ∧
  touch_run_dispatched (attachControl false None) []
    (ButtonDown (sample_event "mouse" 1 0 100 200))
    (Some 0, num 1, num 0)
    [(Some 0, num 1, num 0); (Some 1, num 0, num (-2))]
    (ButtonUp (sample_event "mouse" 1 0 102 198)) [].
Proof.
  assert (HI := Inv_attach false None).
  assert (Hroom :
    length ([] ++ ButtonDown (sample_event "mouse" 1 0 100 200)
            :: (touch_of <$> (Some 0, num 1, num 0)
                  :: [(Some 0, num 1, num 0); (Some 1, num 0, num (-2))])
            ++ ButtonUp (sample_event "mouse" 1 0 102 198) :: [])
      - merges ([] ++ ButtonDown (sample_event "mouse" 1 0 100 200)
                :: (touch_of <$> (Some 0, num 1, num 0)
                      :: [(Some 0, num 1, num 0); (Some 1, num 0, num (-2))])
                ++ ButtonUp (sample_event "mouse" 1 0 102 198) :: [])
      ≤ RB._maxSize) by (vm_compute; lia).
  split_and!; [exact HI|reflexivity|discriminate|discriminate|exact Hroom|].
  exact (touch_run_coalesces (attachControl false None) []
           (ButtonDown (sample_event "mouse" 1 0 100 200))
           (Some 0, num 1, num 0)
           [(Some 0, num 1, num 0); (Some 1, num 0, num (-2))]
           (ButtonUp (sample_event "mouse" 1 0 102 198)) []
           HI eq_refl ltac:(discriminate) ltac:(discriminate) Hroom).
Defined.

(** C3 on 51 pushes to a new buffer. *)
Lemma overflow_keeps_newest_witness :
  rb_reachable (RB.new "Touch" : RB.t ICameraInputTouchEvent.t) ∧
  RB._maxSize < length sample_items ∧
  ∃ rb',
    rb_push_items sample_items (RB.new "Touch") = Ok rb' ∧
    RB.length rb' = RB._maxSize ∧
    (rb_pop_n RB._maxSize rb').1 = Some <$> drop 1 sample_items ∧
    (RB.pop (rb_pop_n RB._maxSize rb').2).1 = None.
Proof.
  assert (Hr : rb_reachable (RB.new "Touch" : RB.t ICameraInputTouchEvent.t))
    by apply reach_new.
  assert (Hl : RB._maxSize < length sample_items) by (vm_compute; lia).
  split_and!; [exact Hr|exact Hl|].
  exact (overflow_keeps_newest _ sample_items Hr Hl).
Defined.

(** C4 on three frames. *)
Lemma deferred_matches_immediate_witness :
  Inv (attachControl false None) [] ∧
  Forall (λ cs, length cs - merges cs ≤ RB._maxSize)
    [sample_frame; touch_of <$> sample_touches;
     multiTouch_of <$> sample_pinches] ∧
  integral_deltas
    [sample_frame; touch_of <$> sample_touches;
     multiTouch_of <$> sample_pinches] ∧
  same_motion_per_run (attachControl false None)
    [sample_frame; touch_of <$> sample_touches;
     multiTouch_of <$> sample_pinches] ∧
  same_totals (attachControl false None)
    [sample_frame; touch_of <$> sample_touches;
     multiTouch_of <$> sample_pinches].
Proof.
  assert (HI := Inv_attach false None).
  assert (Hf : Forall (λ cs, length cs - merges cs ≤ RB._maxSize)
                 [sample_frame; touch_of <$> sample_touches;
                  multiTouch_of <$> sample_pinches]).
  { repeat (constructor; [vm_compute; lia|]). constructor. }
  assert (Hint : integral_deltas
                   [sample_frame; touch_of <$> sample_touches;
                    multiTouch_of <$> sample_pinches]).
  { intros [].
    - exists [1; 1; 1; 0]%Z. split; [reflexivity|vm_compute; reflexivity].
    - exists [0; 0; 0; -2]%Z. split; [reflexivity|vm_compute; reflexivity].
    - exists [100; 121]%Z. split; [reflexivity|vm_compute; reflexivity]. }
  split_and!; [exact HI|exact Hf|exact Hint| |].
  - exact (proj1 (deferred_matches_immediate _ _ HI Hf)).
  - exact (proj2 (deferred_matches_immediate _ _ HI Hf) Hint).
Defined.

(** C5 on two [MultiTouch] capture calls of one frame. *)
Lemma multiTouch_run_merges_witness :
  deferred (attachControl false None) ∧
  last_pushed_is MultiTouchBuffer (attachControl false None) = Ok false ∧
  ∃ w1 w',
    capture (MultiTouch (Some 0) (Some 1) (num 0) (num 100) None (Some 2))
      (attachControl false None) = Ok w1 ∧
    captures
      [MultiTouch (Some 0) (Some 1) (num 100) (num 121) (Some 2) (Some 3)] w1
    = Ok w' ∧
    RB.get_pushed (Controller._eventsMultiTouch (this w'))
    = Ok (ICameraInputMultiTouchEvent.Build (Some 0) (Some 1) (num 0)
            (accumulate (num 100) [num 121]) None (Some 3)) ∧
    RB.length (Controller._allEvents (this w'))
    = RB.length (Controller._allEvents (this w1)) ∧
    RB.length (Controller._eventsMultiTouch (this w'))
    = RB.length (Controller._eventsMultiTouch (this w1)).
Proof.
  split_and!; [reflexivity|reflexivity|].
  exact (multiTouch_run_merges (attachControl false None)
           (Some 0, Some 1, num 0, num 100, None, Some 2)
           [(Some 0, Some 1, num 100, num 121, Some 2, Some 3)]
           eq_refl eq_refl).
Defined.

(** C6 on the frame ButtonDown, Touch, ButtonDown, ButtonUp. *)
Lemma order_buffer_matches_slots_witness :
  Inv (attachControl false None) [] ∧ deferred (attachControl false None) ∧
  length sample_frame - merges sample_frame ≤ RB._maxSize ∧
  order_matches_slots (attachControl false None) sample_frame.
Proof.
  assert (HI := Inv_attach false None).
  assert (Hroom : length sample_frame - merges sample_frame ≤ RB._maxSize)
    by (vm_compute; lia).
  split_and!; [exact HI|reflexivity|exact Hroom|].
  exact (proj1 (order_buffer_matches_slots _ sample_frame HI eq_refl) Hroom).
Defined.

(** C8 on a world whose only tag has nothing behind it. *)
Lemma checkInputs_never_throws_witness :
  tags_defined orphaned ∧
  0 < RB.length (Controller._allEvents (this orphaned)) ∧
  buffer_length TouchBuffer orphaned = 0 ∧
  ∃ w', checkInputs orphaned = Some (Ok w') ∧
        RB.length (Controller._allEvents (this w')) = 0.
Proof.
  assert (Ht : tags_defined orphaned).
  { vm_compute. constructor; [by eexists|constructor]. }
  split_and!; [exact Ht|vm_compute; lia|reflexivity|].
  exact (proj1 (checkInputs_never_throws orphaned Ht)).
Defined.



(** ** More on the ring buffer *)

Section Storage.
Context {T : Type} `{Blank T}.
Implicit Types rb : RB.t T.

(** [push()] allocates a slot exactly when every slot is in use and
    fewer than [_maxSize] exist. *)
Lemma rb_push_container_length rb :
  rb_wf rb → length (RB._container rb) ≤ RB._maxSize →
  length (RB._container (RB.push rb))
  = if (RB._length rb =? length (RB._container rb))
       && (length (RB._container rb) <? RB._maxSize)
    then length (RB._container rb) + 1
    else length (RB._container rb).
Proof.
  intros (H1 & H2 & H3 & H4 & H5 & _) Hn.
  destruct rb as [h t len c p lbl]. rb_simpl.
  unfold RB.push. rb_simpl.
  destruct (Nat.leb_spec RB._maxSize len) as [Hfull|Hroom].
  - (* at the maximum: the oldest item goes first *)
    assert (len = RB._maxSize ∧ length c = RB._maxSize) as [-> Hc] by lia.
    unfold RB.pop, RB._wrapPointers; rb_simpl.
    change (RB._maxSize <=? 0) with false. cbv iota. rb_simpl.
    fold (wrap (length c) h) (wrap (length c) t) in *.
    rewrite Hc in *. unfold wrap, RB._maxSize in *.
    revert H5. nat_cases; simpl; rewrite ?length_app, ?length_take;
      simpl; rewrite ?length_drop; lia.
  - unfold RB._wrapPointers; rb_simpl.
    fold (wrap (length c) h) (wrap (length c) t) in *.
    unfold wrap in *. revert H5.
    nat_cases; simpl; rewrite ?length_app, ?length_take;
      simpl; rewrite ?length_drop; lia.
Qed.

Lemma rb_reachable_bounded rb :
  rb_reachable rb → length (RB._container rb) ≤ RB._maxSize.
Proof.
  induction 1 as [l|rb Hr IH|rb Hr IH|rb Hr IH|rb upd rb' Hr IH Hset].
  - simpl. lia.
  - rewrite rb_push_container_length by (by try apply rb_reachable_wf).
    nat_cases; simpl; lia.
  - by rewrite rb_pop_container.
  - simpl. lia.
  - unfold RB.set_pushed in Hset.
    destruct (RB.pushed rb); [done|injection Hset as <-..];
      simpl; by rewrite ?length_alter.
Qed.
End Storage.

(** X1.  The backing array of a ring buffer never holds more than [_maxSize]
    slots and never fewer than the items queued; [push()] adds one slot
    exactly when every slot holds a queued item and fewer than [_maxSize]
    exist, and reuses a slot otherwise; [pop()] leaves the array as it is. *)
Theorem ring_storage_policy {T : Type} `{Blank T} (rb : RB.t T) :
  rb_reachable rb →
  RB.length rb ≤ length (RB._container rb) ∧
  length (RB._container rb) ≤ RB._maxSize ∧
  length (RB._container (RB.push rb))
  = (if (RB.length rb =? length (RB._container rb))
        && (length (RB._container rb) <? RB._maxSize)
     then length (RB._container rb) + 1
     else length (RB._container rb)) ∧
  RB._container (RB.pop rb).2 = RB._container rb.
Proof.
  intros Hr. pose proof (rb_reachable_wf rb Hr) as Hwf.
  pose proof (rb_reachable_bounded rb Hr) as Hb.
  split_and!; [apply Hwf|done| |apply rb_pop_container].
  by apply rb_push_container_length.
Qed.

(** X2.  Within the capacity the buffer is a queue: after pushing [vs], the
    buffer returns what it would have returned before, then [vs] in the order
    pushed, then [undefined]. *)
Theorem ring_fifo {T : Type} `{Blank T} (rb : RB.t T) (vs : list T) :
  rb_reachable rb → RB.length rb + length vs ≤ RB._maxSize →
  ∃ rb',
    rb_push_items vs rb = Ok rb' ∧
    RB.length rb' = RB.length rb + length vs ∧
    (rb_pop_n (RB.length rb') rb').1
    = (rb_pop_n (RB.length rb) rb).1 ++ (Some <$> vs) ∧
    (RB.pop (rb_pop_n (RB.length rb') rb').2).1 = None.
Proof.
  intros Hr Hroom. pose proof (rb_reachable_wf rb Hr) as Hwf.
  unfold RB.length in *.
  destruct (rb_push_items_spec vs rb Hwf) as (rb' & Hp & Hwf' & Hc).
  pose proof (rb_contents_length rb (proj1 Hwf)) as Hl.
  pose proof (rb_contents_length rb' (proj1 Hwf')) as Hl'.
  assert (Hc' : rb_contents rb' = rb_contents rb ++ vs).
  { rewrite Hc. unfold newest. rewrite length_app.
    replace (_ - _) with 0 by lia. done. }
  assert (Hlen : RB._length rb' = RB._length rb + length vs).
  { rewrite <- Hl', Hc', length_app. lia. }
  exists rb'. split_and!; [done|done| |].
  - destruct (rb_pop_n_spec (RB._length rb') rb' Hwf' (le_n _)) as (-> & _).
    destruct (rb_pop_n_spec (RB._length rb) rb Hwf (le_n _)) as (-> & _).
    rewrite <- Hl', <- Hl, !firstn_all, Hc'. by rewrite fmap_app.
  - destruct (rb_pop_n_spec (RB._length rb') rb' Hwf' (le_n _))
      as (_ & _ & _ & Hz).
    rewrite rb_pop_empty; [done|lia].
Qed.

(** X3.  [pushed] is the newest item queued: the last one a run of [pop()]
    returns. *)
Theorem pushed_is_newest {T : Type} `{Blank T} (rb : RB.t T) :
  rb_reachable rb → 0 < RB.length rb →
  ∃ v, RB.get_pushed rb = Ok v ∧
       last (rb_pop_n (RB.length rb) rb).1 = Some (Some v).
Proof.
  intros Hr Hpos. pose proof (rb_reachable_wf rb Hr) as Hwf.
  destruct (rb_get_pushed_spec rb Hwf Hpos) as (v & Hg & Hlast).
  exists v. split; [done|]. unfold RB.length.
  destruct (rb_pop_n_spec (RB._length rb) rb Hwf (le_n _)) as (-> & _).
  rewrite <- (rb_contents_length rb (proj1 Hwf)), firstn_all.
  by rewrite fmap_last, Hlast.
Qed.

(** ** More on capture and drain *)

(** *** Callbacks at capture time *)

Lemma call_of_no_notification cs :
  omap notification_kind (call_of <$> cs) = [].
Proof.
  induction cs as [|c cs IH]; [done|].
  rewrite fmap_cons. unfold omap in *. simpl. rewrite IH. by destruct c.
Qed.

(** X4.  With callbacks not deferred, every capture call calls its handler at
    once, no observer is notified, and nothing is queued. *)
Theorem immediate_calls_handlers (w : World) (cs : list Capture) :
  immediate w →
  ∃ w', captures cs w = Ok w' ∧ buffers w' = buffers w ∧
        log w' = log w ++ (call_of <$> cs) ∧
        omap notification_kind (since (log w) w') = [].
Proof.
  intros Hi.
  destruct (captures_immediate cs w Hi) as (w' & Hc & Ht & _ & _ & Hl).
  exists w'. split_and!; [done| |done|].
  - unfold buffers. by rewrite Ht.
  - unfold since. rewrite Hl, drop_app_length. apply call_of_no_notification.
Qed.

(** *** The previous-pinch fields after a drain *)

Lemma last_multiTouch_app l1 l2 :
  last_multiTouch (l1 ++ l2)
  = match last_multiTouch l2 with
    | Some x => Some x
    | None => last_multiTouch l1
    end.
Proof.
  unfold last_multiTouch. rewrite omap_app, last_app.
  by destruct (last (omap _ l2)).
Qed.

Lemma checkInputs_body_previous w w1 :
  checkInputs_body w = Ok w1 →
  ∃ l, log w1 = log w ++ l ∧
       previous (this w1) = default (previous (this w)) (last_multiTouch l).
Proof.
  unfold checkInputs_body.
  destruct (RB.pop (Controller._allEvents (this w))) as [[e|] a'].
  2: { intros [= <-]. exists []. by rewrite app_nil_r. }
  destruct (IEvent.buffer e) as [[]|]; [| | | | |done]; simpl.
  - destruct (RB.pop (Controller._eventsButtonDown (this w))) as [[v|] s'];
      intros [= <-]; simpl.
    + eexists [_; _]. by rewrite <- app_assoc.
    + exists []. by rewrite app_nil_r.
  - destruct (RB.pop (Controller._eventsButtonUp (this w))) as [[v|] s'];
      intros [= <-]; simpl.
    + eexists [_; _]. by rewrite <- app_assoc.
    + exists []. by rewrite app_nil_r.
  - destruct (RB.pop (Controller._eventsDoubleTap (this w))) as [[v|] s'];
      intros [= <-]; simpl.
    + eexists [_; _]. by rewrite <- app_assoc.
    + exists []. by rewrite app_nil_r.
  - destruct (RB.pop (Controller._eventsTouch (this w))) as [[v|] s'];
      intros [= <-]; simpl.
    + eexists [_; _]. by rewrite <- app_assoc.
    + exists []. by rewrite app_nil_r.
  - destruct (RB.pop (Controller._eventsMultiTouch (this w))) as [[v|] s'];
      intros [= <-]; simpl.
    + eexists [_; _]. by rewrite <- app_assoc.
    + exists []. by rewrite app_nil_r.
Qed.

Lemma checkInputs_loop_previous fuel w w' :
  checkInputs_loop fuel w = Some (Ok w') →
  ∃ l, log w' = log w ++ l ∧
       previous (this w') = default (previous (this w)) (last_multiTouch l).
Proof.
  revert w. induction fuel as [|fuel IH]; intros w; simpl.
  - destruct (0 <? _); [done|]. intros [= <-]. exists [].
    by rewrite app_nil_r.
  - destruct (0 <? _).
    2: { intros [= <-]. exists []. by rewrite app_nil_r. }
    destruct (checkInputs_body w) as [w1|] eqn:Hb; [|done].
    intros Hl. destruct (checkInputs_body_previous w w1 Hb) as (l1 & Hl1 & Hp1).
    destruct (IH w1 Hl) as (l2 & Hl2 & Hp2).
    exists (l1 ++ l2). split.
    + by rewrite Hl2, Hl1, app_assoc.
    + rewrite Hp2, Hp1, last_multiTouch_app.
      by destruct (last_multiTouch l2).
Qed.

(** X5.  After a drain the fields [_previousPinchSquaredDistance] and
    [_previousMultiTouchPanPosition] hold the pinch distance and the pan
    position of the last [onMultiTouch] call the drain made; a drain that made
    none leaves them as they were. *)
Theorem drain_records_last_pinch (w : World) :
  tags_defined w →
  ∃ w' l, checkInputs w = Some (Ok w') ∧ log w' = log w ++ l ∧
          previous (this w')
          = default (previous (this w)) (last_multiTouch l).
Proof.
  intros Ht.
  destruct (checkInputs_loop_total _ w Ht (le_n _)) as (w' & Hl & _).
  destruct (checkInputs_loop_previous _ w w' Hl) as (l & Hlog & Hp).
  by exists w', l.
Qed.

(** *** Every notification and every drain completes *)

(** X6.  In no world the controller reaches does a notification or a drain
    read a property of [null] or [undefined]: every run of notifications is
    taken to its end, and so is the drain that follows. *)
Theorem notifications_always_taken (w : World)
    (ps : list (Engine.t * PointerInfo.t)) :
  reachable w →
  ∃ w' w'', inputs ps w = Ok w' ∧ checkInputs w' = Some (Ok w'') ∧
            reachable w''.
Proof.
  intros Hr.
  assert (Hin : ∃ w', inputs ps w = Ok w' ∧ reachable w').
  { revert w Hr. induction ps as [|[engine p] ps IH]; intros w Hr.
    - by exists w.
    - destruct (reachable_pointerInput engine p w Hr) as (w1 & Hp & Hr1).
      destruct (IH w1 Hr1) as (w' & Hi & Hr').
      exists w'. simpl. by rewrite Hp. }
  destruct Hin as (w' & Hi & Hr').
  destruct (checkInputs_Stable w' (reachable_Stable w' Hr')) as (w'' & Hc & _).
  exists w', w''. split_and!; [done|done|].
  by eapply reach_checkInputs.
Qed.

(** *** The tracked contacts *)

Lemma contacts_surroundings w w' :
  surroundings w' = surroundings w → contacts_ok w → contacts_ok w'.
Proof.
  unfold surroundings, settings, contacts_ok.
  intros [= _ _ _ _ _ _ _ EA EB _ Eh]. by rewrite EA, EB, Eh.
Qed.

Lemma release_point_contacts engine evt w w' :
  contacts_ok w → release_point engine evt w = Ok w' →
  contacts_ok w' ∧ Controller._pointB (this w') = None ∧
  (String.eqb (PointerEvent.pointerType evt) "touch" = false →
   Controller._pointA (this w') = None).
Proof.
  unfold contacts_ok, release_point. intros Hc Hr.
  destruct (String.eqb (PointerEvent.pointerType evt) "touch"); simpl in Hr.
  - destruct (Engine._badOS engine); [by injection Hr as <-|].
    destruct (Controller._pointA (this w)) as [a|];
      [destruct (Controller._pointB (this w)) as [b|]|];
      destruct_run Hr; simpl; unfold contacts_wf in *;
      (split_and!; [tauto|done|done]).
  - destruct (Engine._badOS engine); [by injection Hr as <-|].
    destruct (Controller._pointA (this w)) as [a|];
      simpl in Hr; by injection Hr as <-.
Qed.

Lemma capture_contacts c w w' :
  capture c w = Ok w' → contacts_ok w → contacts_ok w'.
Proof.
  intros Hc. apply contacts_surroundings. by eapply capture_settings.
Qed.

Ltac contacts_grow :=
  repeat match goal with
  | E : _addEventsButtonDown ?a ?w0 = Ok ?w1 |- _ =>
      apply (capture_settings (ButtonDown a)) in E
  | E : _addEventsButtonUp ?a ?w0 = Ok ?w1 |- _ =>
      apply (capture_settings (ButtonUp a)) in E
  | E : _addEventsDoubleTap ?a ?w0 = Ok ?w1 |- _ =>
      apply (capture_settings (DoubleTap a)) in E
  | E : _addEventsTouch ?a ?b ?c ?w0 = Ok ?w1 |- _ =>
      apply (capture_settings (Touch a b c)) in E
  | E : _addEventsMultiTouch ?a ?b ?c ?d ?e ?f ?w0 = Ok ?w1 |- _ =>
      apply (capture_settings (MultiTouch a b c d e f)) in E
  end.

Ltac contacts_close :=
  repeat match goal with
  | E : surroundings ?w1 = surroundings ?w0, H : contacts_ok ?w0 |- _ =>
      assert (contacts_ok w1) by exact (contacts_surroundings w0 w1 E H);
      clear E
  end;
  repeat match goal with
  | |- context [match ?x with _ => _ end] => destruct x
  | |- context [if ?b then _ else _] => destruct b
  end;
  first [assumption | done].

Lemma pointerInput_contacts engine p w w' :
  _pointerInput engine p w = Ok w' → contacts_ok w → contacts_ok w'.
Proof.
  unfold _pointerInput. intros Hr Hc.
  destruct (Engine.isInVRExclusivePointerMode engine);
    [by injection Hr as <-|].
  destruct (negb _ && negb _); [by injection Hr as <-|].
  cbv zeta in Hr.
  match type of Hr with
  | context [with_this (Controller.set_keys ?a ?b ?c ?d ?e) w] =>
      set (wk := with_this (Controller.set_keys a b c d e) w) in Hr
  end.
  assert (Hck : contacts_ok wk) by exact Hc.
  clearbody wk. clear w Hc.
  destruct (Engine.isPointerLock engine).
  { destruct_binds. by unfold contacts_ok. }
  destruct (bool_decide (PointerInfo.type p = POINTERDOWN) && _).
  { (* POINTERDOWN *)
    set (we := emit _ wk) in Hr.
    assert (Hce : contacts_ok we) by exact Hck.
    clearbody we.
    match type of Hr with
    | mbind _ (_addEventsButtonDown _ ?w0) = _ => set (wd := w0) in Hr
    end.
    assert (Hc0 : contacts_ok wd).
    { subst wd. unfold contacts_ok, contacts_wf in *.
      destruct (Controller._pointA (this we)) as [a|] eqn:HA;
        destruct (Controller._pointB (this we)) as [b|] eqn:HB;
        simpl; rewrite ?HA, ?HB; simpl; rewrite ?length_app; simpl;
        first [done | lia]. }
    clearbody wd.
    destruct (_addEventsButtonDown _ wd) as [w1|] eqn:E; [|done].
    simpl in Hr. contacts_grow. destruct_run Hr; contacts_close. }
  destruct (bool_decide (PointerInfo.type p = POINTERDOUBLETAP)).
  { contacts_grow. contacts_close. }
  destruct (bool_decide (PointerInfo.type p = POINTERUP) && _).
  { (* POINTERUP *)
    simpl in Hr.
    destruct (release_point engine _ _) as [w1|] eqn:Hrel; [|done].
    simpl in Hr.
    apply release_point_contacts in Hrel as (Hc1 & _ & _); [|done].
    destruct (_ || _).
    - destruct_binds. contacts_grow.
      repeat match goal with
      | E : surroundings ?w1 = surroundings ?w0, H : contacts_ok ?w0 |- _ =>
          assert (contacts_ok w1) by exact (contacts_surroundings w0 w1 E H);
          clear E
      | E : surroundings ?w1 = surroundings (with_scope ?f ?w0),
        H : contacts_ok ?w0 |- _ =>
          assert (contacts_ok w1)
            by exact (contacts_surroundings (with_scope f w0) w1 E H);
          clear E
      end.
      contacts_close.
    - simpl in Hr. destruct_binds. contacts_grow. contacts_close. }
  destruct (bool_decide (PointerInfo.type p = POINTERMOVE));
    [|by injection Hr as <-].
  match type of Hr with
  | context [Controller._pointA (this ?w0)] => set (wm := w0) in Hr
  end.
  assert (Hcm : contacts_ok wm) by (subst wm; by destruct (negb _)).
  clearbody wm.
  destruct (Controller._pointA (this wm)) as [a|] eqn:HA;
    [destruct (Controller._pointB (this wm)) as [b|] eqn:HB|];
    [| |by injection Hr as <-].
  - (* pinch *)
    destruct_run Hr; destruct_binds; contacts_grow;
      unfold contacts_ok, contacts_wf, surroundings, settings in *;
      simpl in *;
      match goal with
      | E : (_, _, _) = _ |- _ => injection E as _ _ _ _ _ _ _ EA EB _ Eh
      end;
      rewrite EA, EB, Eh, HA, HB in *;
      rewrite length_app, length_alter; simpl; lia.
  - destruct_binds. contacts_grow.
    unfold contacts_ok, contacts_wf, surroundings, settings in *.
    simpl in *.
    match goal with
    | E : (_, _, _) = _ |- _ => injection E as _ _ _ _ _ _ _ EA EB _ Eh
    end.
    rewrite length_alter, EA, EB, Eh, HA, HB in *. done.
Qed.

Lemma checkInputs_loop_surroundings fuel w w' :
  checkInputs_loop fuel w = Some (Ok w') → surroundings w' = surroundings w.
Proof.
  revert w. induction fuel as [|fuel IH]; intros w; simpl.
  - destruct (0 <? _); [done|]. by intros [= <-].
  - destruct (0 <? _); [|by intros [= <-]].
    destruct (checkInputs_body w) as [w1|] eqn:Hb; [|done].
    intros Hl. rewrite (IH w1 Hl). by apply checkInputs_body_surroundings.
Qed.

Lemma reachable_contacts w : reachable w → contacts_ok w.
Proof.
  induction 1 as [npd el|engine p w w' _ IH Hp|w _ IH|w w' _ IH Hc|d w _ IH].
  - done.
  - by eapply pointerInput_contacts.
  - done.
  - eapply contacts_surroundings; [|exact IH].
    by eapply checkInputs_loop_surroundings.
  - exact IH.
Qed.

Lemma captures_settings cs w w' :
  captures cs w = Ok w' → surroundings w' = surroundings w.
Proof.
  revert w. induction cs as [|c cs IH]; intros w; simpl.
  - by intros [= <-].
  - destruct (capture c w) as [w1|] eqn:Hc; [|done]. simpl.
    intros Hcs. rewrite (IH w1 Hcs). by eapply capture_settings.
Qed.

(** X7.  In every world the controller reaches the tracked contacts are
    objects of the heap, and a secondary contact is tracked only beside a
    primary one, which is another object. *)
Theorem secondary_contact_beside_primary (w : World) :
  reachable w →
  (∀ a, Controller._pointA (this w) = Some a → is_Some (heap w !! a)) ∧
  (∀ b, Controller._pointB (this w) = Some b →
        is_Some (heap w !! b) ∧
        ∃ a, Controller._pointA (this w) = Some a ∧ a ≠ b).
Proof.
  intros Hr. pose proof (reachable_contacts w Hr) as Hc.
  unfold contacts_ok, contacts_wf in Hc.
  destruct (Controller._pointA (this w)) as [a|];
    destruct (Controller._pointB (this w)) as [b|]; try done.
  - destruct Hc as (Ha & Hb & Hab). split.
    + intros ? [= <-]. by apply lookup_lt_is_Some_2.
    + intros ? [= <-]. split; [by apply lookup_lt_is_Some_2|eauto].
  - split; [|done]. intros ? [= <-]. by apply lookup_lt_is_Some_2.
Qed.

(** X8.  A [POINTERUP] notification that reaches the release branch of
    [_pointerInput] (outside pointer lock and the exclusive VR pointer mode,
    for one of the buttons the controller handles, on an event with a source
    element) ends the tracking of a secondary contact; when it is of a mouse
    or a pen it ends the tracking of every contact, and the moves that follow
    outside pointer lock queue nothing and call neither [onTouch] nor
    [onMultiTouch]. *)
Theorem buttonUp_ends_drag (engine : Engine.t) (p : PointerInfo.t)
    (w : World) :
  reachable w → is_buttonUp engine p w →
  ∃ w', _pointerInput engine p w = Ok w' ∧
        Controller._pointB (this w') = None ∧
        (PointerEvent.pointerType (PointerInfo.event p) ≠ "touch" →
         Controller._pointA (this w') = None ∧
         ∀ ps, Forall is_plain_move ps →
               ∃ w'', inputs ps w' = Ok w'' ∧ buffers w'' = buffers w' ∧
                      filter is_motion (log w'')
                      = filter is_motion (log w')).
Proof.
  intros Hr Hup.
  destruct (reachable_pointerInput engine p w Hr) as (w' & Hp & _).
  destruct (buttonUp_captures engine p w w' Hup Hp)
    as (w1 & w2 & Hrel & Hcs & Hthis & _).
  apply release_point_contacts in Hrel as (_ & HB1 & HA1).
  2: { exact (reachable_contacts w Hr). }
  apply captures_settings in Hcs.
  unfold surroundings, settings in Hcs.
  injection Hcs as _ _ _ _ _ _ _ EA EB _ _.
  exists w'. split; [done|].
  split; [by rewrite Hthis, EB|].
  intros Hty.
  assert (HA' : Controller._pointA (this w') = None).
  { rewrite Hthis, EA. apply HA1. by apply String.eqb_neq. }
  split; [done|]. intros ps Hps.
  destruct (plain_moves_untracked ps w' Hps HA')
    as (w'' & Hi & Hb & _ & _ & _ & _ & Hl).
  by exists w''.
Qed.

(** *** A drag of one contact *)

(** One move of the only tracked contact: a [Touch] capture call with the
    offset from the contact's position, which then becomes the pointer's. *)
Lemma drag_step engine p w q a pt :
  is_drag_move (engine, p) →
  Controller._pointA (this w) = Some a →
  Controller._pointB (this w) = None →
  heap w !! a = Some pt →
  Inv w q → deferred w →
  let evt := PointerInfo.event p in
  let c := Touch (Some a) (PointerEvent.clientX evt - PointerTouch.x pt)%num
             (PointerEvent.clientY evt - PointerTouch.y pt)%num in
  length (absorb (this w) q c) ≤ RB._maxSize →
  ∃ w' l,
    _pointerInput engine p w = Ok w' ∧
    Inv w' (absorb (this w) q c) ∧ deferred w' ∧
    Controller._pointA (this w') = Some a ∧
    Controller._pointB (this w') = None ∧
    heap w'
    = alter (PointerTouch.set_xy (PointerEvent.clientX evt)
               (PointerEvent.clientY evt)) a (heap w) ∧
    log w' = log w ++ l ∧ filter is_onTouch l = [].
Proof.
  intros (Hmove & Hlock & Hvr) HA HB Hpt HI Hd evt c Hroom.
  simpl in Hmove, Hlock, Hvr.
  unfold _pointerInput. rewrite Hmove, Hlock, Hvr. simpl. fold evt.
  set (wk := with_this _ w).
  set (wm := if negb _ then _ else wk).
  assert (Hm : buffers wm = buffers w ∧ this wm = this wk ∧
               heap wm = heap w ∧ scope wm = scope w ∧
               ∃ l, log wm = log w ++ l ∧ filter is_onTouch l = []).
  { subst wm. destruct (negb _); simpl.
    - split_and!; try done. by exists [preventDefault].
    - split_and!; try done. exists []. by rewrite app_nil_r. }
  destruct Hm as (Hbm & Htm & Hhm & Hsm & l & Hlm & Hfl).
  assert (HAm : Controller._pointA (this wm) = Some a) by (by rewrite Htm).
  assert (HBm : Controller._pointB (this wm) = None) by (by rewrite Htm).
  assert (HIm : Inv wm q) by (by apply (Inv_with_this_buffers w)).
  assert (Hdm : deferred wm) by (unfold deferred; by rewrite Htm).
  assert (Habs : absorb (this wm) q c = absorb (this w) q c) by done.
  clearbody wm. rewrite HAm, HBm.
  unfold deref. rewrite Hhm, Hpt. simpl.
  destruct (capture_Touch_refines wm q (Some a)
              (PointerEvent.clientX evt - PointerTouch.x pt)%num
              (PointerEvent.clientY evt - PointerTouch.y pt)%num HIm Hdm)
    as (w1 & Hc & HI1 & Hs1 & _ & Hl1).
  { change (length (absorb (this wm) q c) ≤ RB._maxSize). by rewrite Habs. }
  change (Inv w1 (absorb (this wm) q c)) in HI1. rewrite Habs in HI1.
  rewrite Hc. simpl.
  unfold surroundings, settings in Hs1.
  injection Hs1 as _ _ _ _ _ _ Hd1 EA EB _ Eh.
  eexists _, l. split; [done|]. simpl.
  split_and!; try done.
  - by apply (Inv_with_this_buffers w1).
  - unfold deferred in *. simpl. by rewrite Hd1.
  - by rewrite EA.
  - by rewrite EB.
  - by rewrite Eh, Hhm.
  - by rewrite Hl1.
Qed.

Lemma last_position_cons ep ps start :
  last_position (ep :: ps) start
  = last_position ps
      (PointerEvent.clientX (PointerInfo.event ep.2),
       PointerEvent.clientY (PointerInfo.event ep.2)).
Proof.
  unfold last_position. rewrite last_cons. by destruct (last ps).
Qed.

Lemma drag_run a ps w pt ox oy :
  Forall is_drag_move ps →
  Controller._pointA (this w) = Some a →
  Controller._pointB (this w) = None →
  heap w !! a = Some pt →
  Inv w [QTouch (ICameraInputTouchEvent.Build (Some a) ox oy)] →
  deferred w →
  let start := (PointerTouch.x pt, PointerTouch.y pt) in
  let pos := last_position ps start in
  ∃ w' l,
    inputs ps w = Ok w' ∧
    heap w' !! a = Some (PointerTouch.set_xy pos.1 pos.2 pt) ∧
    Inv w' [QTouch (ICameraInputTouchEvent.Build (Some a)
                      (accumulate ox (drag_offsets start ps).*1)
                      (accumulate oy (drag_offsets start ps).*2))] ∧
    log w' = log w ++ l ∧ filter is_onTouch l = [].
Proof.
  intros Hps. revert w pt ox oy.
  induction Hps as [|[engine p] ps Hp _ IH]; intros w pt ox oy HA HB Hpt HI Hd.
  - exists w, []. simpl. split_and!; [done| |done|by rewrite app_nil_r|done].
    by destruct pt.
  - destruct (drag_step engine p w _ a pt Hp HA HB Hpt HI Hd)
      as (w1 & l1 & Hp1 & HI1 & Hd1 & HA1 & HB1 & Hh1 & Hl1 & Hf1).
    { unfold RB._maxSize. simpl. lia. }
    simpl in HI1.
    assert (Hpt1 : heap w1 !! a
                   = Some (PointerTouch.set_xy
                             (PointerEvent.clientX (PointerInfo.event p))
                             (PointerEvent.clientY (PointerInfo.event p))
                             pt)).
    { rewrite Hh1, list_lookup_alter_eq, Hpt. done. }
    destruct (IH w1 _ _ _ HA1 HB1 Hpt1 HI1 Hd1)
      as (w' & l2 & Hi & Hpt' & HI' & Hl' & Hf').
    exists w', (l1 ++ l2). cbv zeta. rewrite last_position_cons.
    simpl in *. rewrite Hp1. simpl.
    split_and!; [done|done|done| |].
    + by rewrite Hl', Hl1, app_assoc.
    + by rewrite filter_app, Hf1, Hf'.
Qed.

Section IntegerDrag.
Local Open Scope Z_scope.

(** Between integer positions the offsets of a drag add up, exactly, to the
    displacement. *)
Lemma drag_offsets_ints ps : ∀ zs sx sy cx cy,
  positions ps = (λ z : Z * Z, (num z.1, num z.2)) <$> zs →
  Forall (λ z : Z * Z, Z.abs z.1 < 2 ^ 52 ∧ Z.abs z.2 < 2 ^ 52)
    ((sx, sy) :: (cx, cy) :: zs) →
  accumulate (num (cx - sx)) (drag_offsets (num cx, num cy) ps).*1
  = num ((default (cx, cy) (last zs)).1 - sx) ∧
  accumulate (num (cy - sy)) (drag_offsets (num cx, num cy) ps).*2
  = num ((default (cx, cy) (last zs)).2 - sy).
Proof.
  induction ps as [|ep ps IH]; intros zs sx sy cx cy Hps Hb.
  - symmetry in Hps. apply fmap_nil_inv in Hps as ->. done.
  - destruct zs as [|[x y] zs]; [done|].
    rewrite fmap_cons in Hps. injection Hps as Hx Hy Hps.
    apply Forall_cons in Hb as [[Hsx Hsy] Hb].
    apply Forall_cons in Hb as [[Hcx Hcy] Hb].
    pose proof Hb as Hb'. apply Forall_cons in Hb' as [[Hx' Hy'] _].
    simpl in Hsx, Hsy, Hcx, Hcy, Hx', Hy'.
    cbn [drag_offsets fmap list_fmap fst snd].
    rewrite !accumulate_cons, Hx, Hy. cbn [fst snd].
    rewrite !num_sub, !num_add by lia.
    replace (cx - sx + (x - cx)) with (x - sx) by lia.
    replace (cy - sy + (y - cy)) with (y - sy) by lia.
    destruct (IH zs sx sy x y Hps) as [IHx IHy].
    { constructor; [done|]. done. }
    rewrite IHx, IHy, last_cons. by destruct (last zs).
Qed.
End IntegerDrag.

(** X9.  Outside pointer lock and outside the exclusive VR pointer mode, a
    frame of moves of the only tracked contact is delivered as one [onTouch]
    call.  Each move reports its offset from the position the move before it
    left in the contact (the first one from where the contact was); the call
    carries these offsets added up in capture order, and the contact ends at
    the position of the last move.  Between integer positions below [2 ^ 52]
    in magnitude the offsets add up exactly to the displacement of the
    pointer over the frame. *)
Theorem drag_delivers_displacement (w : World) (a : Ref)
    (pt : PointerTouch.t) (p : Engine.t * PointerInfo.t)
    (ps : list (Engine.t * PointerInfo.t)) :
  Inv w [] → deferred w →
  Controller._pointA (this w) = Some a →
  Controller._pointB (this w) = None →
  heap w !! a = Some pt →
  Forall is_drag_move (p :: ps) →
  let start := (PointerTouch.x pt, PointerTouch.y pt) in
  let first := (PointerEvent.clientX (PointerInfo.event p.2),
                PointerEvent.clientY (PointerInfo.event p.2)) in
  let pos := last_position (p :: ps) start in
  (∃ w1 w2,
     inputs (p :: ps) w = Ok w1 ∧ checkInputs w1 = Some (Ok w2) ∧
     filter is_onTouch (since (log w) w2)
     = [onTouch (Some a)
          (accumulate (first.1 - start.1) (drag_offsets first ps).*1)
          (accumulate (first.2 - start.2) (drag_offsets first ps).*2)] ∧
     heap w2 !! a = Some (PointerTouch.set_xy pos.1 pos.2 pt)) ∧
  ∀ (sx sy : Z) (zs : list (Z * Z)),
    start = (num sx, num sy) →
    positions (p :: ps) = (λ z : Z * Z, (num z.1, num z.2)) <$> zs →
    Forall (λ z : Z * Z, (Z.abs z.1 < 2 ^ 52 ∧ Z.abs z.2 < 2 ^ 52)%Z)
      ((sx, sy) :: zs) →
    accumulate (first.1 - start.1) (drag_offsets first ps).*1
    = num ((default (sx, sy) (last zs)).1 - sx) ∧
    accumulate (first.2 - start.2) (drag_offsets first ps).*2
    = num ((default (sx, sy) (last zs)).2 - sy).
Proof.
  intros HI Hd HA HB Hpt Hps start first pos. split.
  - apply Forall_cons in Hps as [Hp Hps]. destruct p as [engine p].
    destruct (drag_step engine p w [] a pt Hp HA HB Hpt HI Hd)
      as (w0 & l0 & Hp0 & HI0 & Hd0 & HA0 & HB0 & Hh0 & Hl0 & Hf0).
    { unfold RB._maxSize. simpl. lia. }
    simpl in HI0.
    assert (Hpt0 : heap w0 !! a
                   = Some (PointerTouch.set_xy
                             (PointerEvent.clientX (PointerInfo.event p))
                             (PointerEvent.clientY (PointerInfo.event p))
                             pt)).
    { rewrite Hh0, list_lookup_alter_eq, Hpt. done. }
    destruct (drag_run a ps w0 _ _ _ Hps HA0 HB0 Hpt0 HI0 Hd0)
      as (w1 & l1 & Hi & Hpt1 & HI1 & Hl1 & Hf1).
    destruct (checkInputs_refines w1 _ HI1) as (w2 & Hc & _ & Hl2 & Hs2 & _).
    exists w1, w2. subst pos first start. rewrite last_position_cons.
    simpl in *. rewrite Hp0. simpl.
    split_and!; [done|done| |].
    + unfold since. rewrite Hl2, Hl1, Hl0, <- !app_assoc, drop_app_length.
      rewrite !filter_app, Hf0, Hf1. simpl.
      rewrite filter_cons_True by done.
      rewrite filter_cons_False, filter_nil.
      2: { unfold is_onTouch. simpl. tauto. }
      done.
    + assert (Hh2 : heap w2 = heap w1)
        by (unfold surroundings in Hs2; congruence).
      by rewrite Hh2.
  - intros sx sy zs Hstart Hzs Hb.
    destruct zs as [|[x y] zs]; [done|].
    unfold positions in Hzs. rewrite !fmap_cons in Hzs.
    injection Hzs as Hx Hy Hzs.
    pose proof Hb as Hb'.
    apply Forall_cons in Hb' as [[Hsx Hsy] Hb'].
    apply Forall_cons in Hb' as [[Hx' Hy'] _].
    simpl in Hsx, Hsy, Hx', Hy'.
    subst first. cbn [fst snd]. rewrite Hstart, Hx, Hy. cbn [fst snd].
    rewrite !num_sub by lia. rewrite last_cons.
    replace (default (sx, sy) (match last zs with
                               | Some y0 => Some y0
                               | None => Some (x, y)
                               end))
      with (default (x, y) (last zs)) by (by destruct (last zs)).
    by apply drag_offsets_ints.
Qed.

(** *** Moves under pointer lock *)

Lemma locked_step engine p w q :
  is_locked_move (engine, p) → Inv w q → deferred w →
  let m := movement (PointerInfo.event p) in
  length (absorb (this w) q (Touch None m.1 m.2)) ≤ RB._maxSize →
  ∃ w',
    _pointerInput engine p w = Ok w' ∧
    Inv w' (absorb (this w) q (Touch None m.1 m.2)) ∧ deferred w' ∧
    Controller._pointA (this w') = None ∧
    Controller._pointB (this w') = None ∧
    log w' = log w.
Proof.
  intros (Hmove & Hlock & Hvr) HI Hd m Hroom.
  simpl in Hmove, Hlock, Hvr.
  unfold _pointerInput. rewrite Hmove, Hlock, Hvr.
  cbn -[first_truthy _addEventsTouch].
  set (wk := with_this _ w).
  assert (HIk : Inv wk q) by (by apply (Inv_with_this_buffers w)).
  assert (Hdk : deferred wk) by exact Hd.
  destruct (capture_Touch_refines wk q None m.1 m.2 HIk Hdk)
    as (w1 & Hc & HI1 & Hs1 & _ & Hl1); [exact Hroom|].
  change (_addEventsTouch None m.1 m.2 wk = Ok w1) in Hc.
  change (first_truthy [PointerEvent.movementX _; _; _; _]) with m.1.
  change (first_truthy [PointerEvent.movementY _; _; _; _]) with m.2.
  rewrite Hc. simpl.
  eexists. split; [done|]. simpl.
  split_and!; try done.
  - by apply (Inv_with_this_buffers w1).
  - unfold deferred, surroundings, settings in *. simpl.
    injection Hs1 as _ _ _ _ _ _ -> _ _ _ _. exact Hd.
Qed.

Lemma locked_run ps w ox oy :
  Forall is_locked_move ps →
  Inv w [QTouch (ICameraInputTouchEvent.Build None ox oy)] → deferred w →
  ∃ w',
    inputs ps w = Ok w' ∧
    Inv w' [QTouch
              (ICameraInputTouchEvent.Build None
                 (accumulate ox (movements ps).*1)
                 (accumulate oy (movements ps).*2))] ∧
    log w' = log w ∧
    (ps ≠ [] →
     Controller._pointA (this w') = None ∧
     Controller._pointB (this w') = None).
Proof.
  intros Hps. revert w ox oy.
  induction Hps as [|[engine p] ps Hp _ IH]; intros w ox oy HI Hd.
  - by exists w.
  - destruct (locked_step engine p w _ Hp HI Hd)
      as (w1 & Hp1 & HI1 & Hd1 & HA1 & HB1 & Hl1).
    { unfold RB._maxSize. simpl. lia. }
    simpl in HI1.
    destruct (IH w1 _ _ HI1 Hd1) as (w' & Hi & HI' & Hl' & Hn').
    exists w'.
    split_and!; [by simpl; rewrite Hp1|done|congruence|].
    intros _. destruct ps as [|ep ps']; [|by apply Hn'].
    simpl in Hi. by injection Hi as <-.
Qed.

(** X10.  Under pointer lock, outside the exclusive VR pointer mode, a frame
    of moves is delivered as one [onTouch] call (and one notification of the
    observers) with a null contact and the movements of the moves added up
    in capture order; it leaves no contact tracked. *)
Theorem locked_moves_deliver_movement (w : World)
    (p : Engine.t * PointerInfo.t) (ps : list (Engine.t * PointerInfo.t)) :
  Inv w [] → deferred w → Forall is_locked_move (p :: ps) →
  ∃ w1 w2,
    inputs (p :: ps) w = Ok w1 ∧ checkInputs w1 = Some (Ok w2) ∧
    since (log w) w2
    = calls_of
        (QTouch
           (ICameraInputTouchEvent.Build None
              (accumulate (movement (PointerInfo.event p.2)).1
                 (movements ps).*1)
              (accumulate (movement (PointerInfo.event p.2)).2
                 (movements ps).*2))) ∧
    Controller._pointA (this w2) = None ∧
    Controller._pointB (this w2) = None.
Proof.
  intros HI Hd Hps.
  apply Forall_cons in Hps as [Hp Hps]. destruct p as [engine p].
  destruct (locked_step engine p w [] Hp HI Hd)
    as (w0 & Hp0 & HI0 & Hd0 & HA0 & HB0 & Hl0).
  { unfold RB._maxSize. simpl. lia. }
  simpl in HI0.
  destruct (locked_run ps w0 _ _ Hps HI0 Hd0) as (w1 & Hi & HI1 & Hl1 & Hn1).
  destruct (checkInputs_refines w1 _ HI1) as (w2 & Hc & _ & Hl2 & Hs2 & _).
  assert (Hpts : Controller._pointA (this w1) = None
                 ∧ Controller._pointB (this w1) = None).
  { destruct ps as [|ep ps']; [|by apply Hn1].
    simpl in Hi. by injection Hi as <-. }
  exists w1, w2.
  split_and!; [by simpl; rewrite Hp0|done| | |].
  - unfold since. rewrite Hl2, Hl1, Hl0, drop_app_length.
    cbn [mbind list_bind app]. by rewrite app_nil_r.
  - unfold surroundings, settings in Hs2.
    injection Hs2 as _ _ _ _ _ _ _ -> _ _ _. apply Hpts.
  - unfold surroundings, settings in Hs2.
    injection Hs2 as _ _ _ _ _ _ _ _ -> _ _. apply Hpts.
Qed.

(** *** A move of two contacts *)

(** X11.  Outside pointer lock and the exclusive VR pointer mode, a move
    while two contacts are tracked puts the pointer's position into the
    contact of its [pointerId] (into the secondary one when the primary has
    another id), measures the two contacts afterwards, and makes one
    [MultiTouch] capture call: with [distX * distX + distY * distY | 0]
    computed from the contacts as the code computes it, in floating-point
    arithmetic and then cut to a 32-bit integer, with a new pan position
    whose coordinates are the halved sums of the contacts' coordinates, and
    with the pinch variables of [attachControl] as previous values; the pinch
    variables then hold the new distance and pan position. *)
Theorem pinch_move_measures (engine : Engine.t) (p : PointerInfo.t)
    (w : World) (a b : Ref) (pa pb : PointerTouch.t) :
  reachable w → is_drag_move (engine, p) →
  Controller._pointA (this w) = Some a →
  Controller._pointB (this w) = Some b →
  heap w !! a = Some pa → heap w !! b = Some pb →
  let evt := PointerInfo.event p in
  let primary :=
    bool_decide (PointerTouch.pointerId pa = PointerEvent.pointerId evt) in
  let move :=
    PointerTouch.set_xy (PointerEvent.clientX evt) (PointerEvent.clientY evt) in
  let pa' := if primary then move pa else pa in
  let pb' := if primary then pb else move pb in
  let dx := (PointerTouch.x pa' - PointerTouch.x pb')%num in
  let dy := (PointerTouch.y pa' - PointerTouch.y pb')%num in
  let d := num (ToInt32 (dx * dx + dy * dy)%num) in
  let pan :=
    PointerTouch.Build ((PointerTouch.x pa' + PointerTouch.x pb') / num 2)%num
      ((PointerTouch.y pa' + PointerTouch.y pb') / num 2)%num
      (PointerEvent.pointerId evt) (PointerTouch.OfEventType POINTERMOVE) in
  let c :=
    MultiTouch (Some a) (Some b)
      (Scope.previousPinchSquaredDistance (scope w)) d
      (Scope.previousMultiTouchPanPosition (scope w))
      (Some (length (heap w))) in
  ∃ w',
    _pointerInput engine p w = Ok w' ∧
    heap w' = alter move (if primary then a else b) (heap w) ++ [pan] ∧
    Controller._pointA (this w') = Some a ∧
    Controller._pointB (this w') = Some b ∧
    Scope.previousPinchSquaredDistance (scope w') = d ∧
    Scope.previousMultiTouchPanPosition (scope w')
    = Some (length (heap w)) ∧
    (immediate w →
     filter is_motion (since (log w) w') = [call_of c]) ∧
    (∀ q, Inv w q → deferred w →
          length (absorb (this w) q c) ≤ RB._maxSize →
          Inv w' (absorb (this w) q c) ∧
          filter is_motion (since (log w) w') = []).
Proof.
  intros Hreach (Hmove & Hlock & Hvr) HA HB Hpa Hpb
    evt primary move pa' pb' dx dy d pan c.
  simpl in Hmove, Hlock, Hvr.
  pose proof (reachable_contacts w Hreach) as Hc.
  unfold contacts_ok in Hc. rewrite HA, HB in Hc. simpl in Hc.
  destruct Hc as (Ha & Hb & Hab).
  destruct (reachable_pointerInput engine p w Hreach) as (w' & Hp & _).
  exists w'. split; [done|].
  revert Hp. unfold _pointerInput. rewrite Hmove, Hlock, Hvr. simpl.
  fold evt.
  set (wk := with_this _ w).
  set (wm := if negb _ then _ else wk).
  assert (Hm : buffers wm = buffers w ∧ this wm = this wk ∧
               heap wm = heap w ∧ scope wm = scope w ∧
               ∃ l, log wm = log w ++ l ∧ filter is_motion l = []).
  { subst wm. destruct (negb _); simpl.
    - split_and!; try done. by exists [preventDefault].
    - split_and!; try done. exists []. by rewrite app_nil_r. }
  destruct Hm as (Hbm & Htm & Hhm & Hsm & l & Hlm & Hfl).
  assert (HAm : Controller._pointA (this wm) = Some a) by (by rewrite Htm).
  assert (HBm : Controller._pointB (this wm) = Some b) by (by rewrite Htm).
  assert (Hdm : Controller._defferCallback (this wm)
                = Controller._defferCallback (this w)) by (by rewrite Htm).
  assert (Hpm : previous (this wm) = previous (this w)) by (by rewrite Htm).
  clearbody wm. rewrite HAm, HBm.
  unfold deref. rewrite Hhm, Hpa. simpl. fold primary.
  assert (Hed : heap w !! (if primary then a else b)
                = Some (if primary then pa else pb)).
  { by destruct primary. }
  rewrite Hed. simpl. unfold assign_xy. simpl. rewrite Hhm. fold move.
  assert (Hpa' : alter move (if primary then a else b) (heap w) !! a
                 = Some pa').
  { subst pa'. destruct primary.
    - by rewrite list_lookup_alter_eq, Hpa.
    - by rewrite list_lookup_alter_ne, Hpa. }
  assert (Hpb' : alter move (if primary then a else b) (heap w) !! b
                 = Some pb').
  { subst pb'. destruct primary.
    - by rewrite list_lookup_alter_ne, Hpb.
    - by rewrite list_lookup_alter_eq, Hpb. }
  rewrite Hpa', Hpb'. simpl. rewrite length_alter, Hsm.
  fold dx dy. fold d. fold pan.
  set (w0 := MkWorld _ _ _ _).
  change (_addEventsMultiTouch ?x1 ?x2 ?x3 ?x4 ?x5 ?x6 w0)
    with (capture (MultiTouch x1 x2 x3 x4 x5 x6) w0).
  fold c.
  destruct (capture c w0) as [w1|] eqn:Hcap; [|done].
  simpl. intros [= <-]. simpl.
  pose proof (capture_settings c w0 w1 Hcap) as Hs.
  unfold surroundings, settings in Hs. simpl in Hs.
  injection Hs as _ _ _ _ _ _ _ EA EB _ Eh.
  split_and!; [done|by rewrite EA|by rewrite EB|done|done| |].
  - intros Hi. unfold immediate in Hi.
    rewrite (capture_immediate c w0) in Hcap
      by (unfold immediate; simpl; congruence).
    injection Hcap as <-. unfold since. simpl.
    rewrite Hlm, <- app_assoc, drop_app_length, filter_app, Hfl.
    by rewrite filter_cons_True.
  - intros q HI Hd Hroom.
    assert (HI0 : Inv w0 q).
    { apply (Inv_with_this_buffers w); [|done]. subst w0. done. }
    assert (Hd0 : deferred w0).
    { unfold deferred in *. simpl. congruence. }
    assert (Habs : absorb (this w0) q c = absorb (this w) q c).
    { subst w0. simpl. destruct q as [|x q'] using rev_ind; simpl.
      - unfold previous in Hpm. congruence.
      - rewrite last_snoc. destruct x; try done;
          unfold previous in Hpm; congruence. }
    destruct (capture_refines c w0 q HI0 Hd0) as (w1' & Hc1 & HI1 & _ & _ & Hl1).
    { by rewrite Habs. }
    assert (w1' = w1) as -> by congruence.
    rewrite Habs in HI1. split.
    + by apply (Inv_with_this_buffers w1).
    + unfold since. simpl. rewrite Hl1. subst w0. simpl.
      by rewrite Hlm, drop_app_length.
Qed.

(** *** The pinch distance as a 32-bit integer *)

(** X12.  The pinch distance [(distX * distX) + (distY * distY) | 0] always is
    a signed 32-bit integer, 0 when the sum is [NaN]; for contacts at integer
    coordinates below 2^53 in magnitude whose squared distance is below 2^31
    it is that squared distance exactly. *)
Theorem pinch_distance_is_int32 :
  (∀ x, - 2 ^ 31 ≤ ToInt32 x < 2 ^ 31)%Z ∧
  ToInt32 S754_nan = 0%Z ∧
  ∀ xa ya xb yb : Z,
    (Z.abs xa < 2 ^ 53)%Z → (Z.abs xb < 2 ^ 53)%Z →
    (Z.abs ya < 2 ^ 53)%Z → (Z.abs yb < 2 ^ 53)%Z →
    ((xa - xb) * (xa - xb) + (ya - yb) * (ya - yb) < 2 ^ 31)%Z →
    ToInt32 ((num xa - num xb) * (num xa - num xb)
             + (num ya - num yb) * (num ya - num yb))%num
    = ((xa - xb) * (xa - xb) + (ya - yb) * (ya - yb))%Z.
Proof.
  split; [apply ToInt32_range|]. split; [done|].
  intros xa ya xb yb Hxa Hxb Hya Hyb Hd.
  pose proof (Z.square_nonneg (xa - xb)).
  pose proof (Z.square_nonneg (ya - yb)).
  assert (Z.abs (xa - xb) < 2 ^ 53)%Z by nia.
  assert (Z.abs (ya - yb) < 2 ^ 53)%Z by nia.
  rewrite !num_sub, !num_square, num_add by lia.
  apply ToInt32_num. lia.
Qed.

(** *** Frame after frame *)

Lemma frames_refine fs w :
  Inv w [] → deferred w →
  Forall (λ cs, length cs - merges cs ≤ RB._maxSize) fs →
  ∃ w' l, frames fs w = Some w' ∧ Inv w' [] ∧ log w' = log w ++ l ∧
          omap handler_kind l = (fs ≫= λ cs, kind_of <$> unmerged cs) ∧
          omap notification_kind l = (fs ≫= λ cs, kind_of <$> unmerged cs).
Proof.
  intros HI Hd Hfs. revert w HI Hd.
  induction Hfs as [|cs fs Hcs _ IH]; intros w HI Hd.
  - exists w, []. by rewrite app_nil_r.
  - destruct (frame_refines cs w HI Hd) as (w1 & Hf & HI1 & Hl1 & Hs1 & _).
    { by rewrite absorb_all_length. }
    assert (Hd1 : deferred w1).
    { unfold deferred, surroundings, settings in *. congruence. }
    destruct (IH w1 HI1 Hd1) as (w' & l & Hfs' & HI' & Hl' & Hh & Hn).
    eexists w', (_ ++ l). simpl. rewrite Hf.
    split_and!; [done|done| | |].
    + by rewrite Hl', Hl1, app_assoc.
    + rewrite omap_app, Hh, handler_kind_calls, absorb_all_kinds. done.
    + rewrite omap_app, Hn, notification_kind_calls, absorb_all_kinds. done.
Qed.

(** X13.  Over any number of frames within the capacity of the ring buffers
    the handlers, and the observer notifications, are called kind by kind in
    the order of the capture calls that were not merged; capture calls merge
    within a frame only, never across a drain; and the last drain leaves every
    buffer empty. *)
Theorem frames_dispatch_in_order (w : World) (fs : list (list Capture)) :
  Inv w [] → deferred w →
  Forall (λ cs, length cs - merges cs ≤ RB._maxSize) fs →
  ∃ w', frames fs w = Some w' ∧
        omap handler_kind (since (log w) w')
        = (fs ≫= λ cs, kind_of <$> unmerged cs) ∧
        omap notification_kind (since (log w) w')
        = (fs ≫= λ cs, kind_of <$> unmerged cs) ∧
        RB.length (Controller._allEvents (this w')) = 0 ∧
        slots_length w' = 0.
Proof.
  intros HI Hd Hfs.
  destruct (frames_refine fs w HI Hd Hfs) as (w' & l & Hf & HI' & Hl & Hh & Hn).
  exists w'. rewrite (since_app _ _ _ Hl).
  split_and!; [done|done|done| |].
  - unfold RB.length. by rewrite (inv_all_length w' [] HI').
  - by rewrite (slots_length_Inv w' [] HI').
Qed.

(** *** [noPreventDefault] *)

Lemma capture_log c w w' :
  capture c w = Ok w' →
  log w' = log w
           ++ (if Controller._defferCallback (this w) then []
               else [call_of c]).
Proof.
  intros Hc.
  destruct c; simpl in Hc;
    unfold _addEventsButtonDown, _addEventsButtonUp, _addEventsDoubleTap,
      _addEventsTouch, _addEventsMultiTouch, push_allEvents, COALESCE in Hc;
    destruct (Controller._defferCallback (this w)); simpl in Hc;
    destruct_run Hc; destruct_binds; simpl; by rewrite ?app_nil_r.
Qed.

Lemma keeps_default_same base w w' :
  Scope.noPreventDefault (scope w') = Scope.noPreventDefault (scope w) →
  log w' = log w → keeps_default base w → keeps_default base w'.
Proof. unfold keeps_default. intros -> ->. done. Qed.

Lemma keeps_default_emit base c w :
  is_default_call c = false →
  keeps_default base w → keeps_default base (emit c w).
Proof.
  intros Hc (Hn & l & Hl & Hf). split; [exact Hn|].
  exists (l ++ [c]). simpl. rewrite Hl, app_assoc. split; [done|].
  rewrite filter_app, Hf, filter_cons_False, filter_nil; [done|].
  rewrite Hc. simpl. tauto.
Qed.

Lemma keeps_default_capture base c w w' :
  capture c w = Ok w' → keeps_default base w → keeps_default base w'.
Proof.
  intros Hc (Hn & l & Hl & Hf).
  destruct (capture_scope_heap c w w' Hc) as [Hs _].
  split; [by rewrite Hs|].
  rewrite (capture_log c w w' Hc), Hl, <- app_assoc.
  eexists. split; [done|]. rewrite filter_app, Hf.
  destruct (Controller._defferCallback (this w)); [done|].
  rewrite filter_cons_False, filter_nil; [done|]. destruct c; simpl; tauto.
Qed.

Lemma keeps_default_release base engine evt w w' :
  release_point engine evt w = Ok w' →
  keeps_default base w → keeps_default base w'.
Proof.
  intros Hr. destruct (release_point_buffers _ _ _ _ Hr) as (_ & Hs & _ & Hl & _).
  apply keeps_default_same; [by rewrite Hs|done].
Qed.

Ltac keep_grow :=
  repeat match goal with
  | E : _addEventsButtonDown ?a ?w0 = Ok ?w1, H : keeps_default ?b ?w0 |- _ =>
      pose proof (keeps_default_capture b (ButtonDown a) w0 w1 E H); clear E
  | E : _addEventsButtonUp ?a ?w0 = Ok ?w1, H : keeps_default ?b ?w0 |- _ =>
      pose proof (keeps_default_capture b (ButtonUp a) w0 w1 E H); clear E
  | E : _addEventsDoubleTap ?a ?w0 = Ok ?w1, H : keeps_default ?b ?w0 |- _ =>
      pose proof (keeps_default_capture b (DoubleTap a) w0 w1 E H); clear E
  | E : _addEventsTouch ?a ?x ?y ?w0 = Ok ?w1, H : keeps_default ?b ?w0 |- _ =>
      pose proof (keeps_default_capture b (Touch a x y) w0 w1 E H); clear E
  | E : _addEventsMultiTouch ?a ?a' ?c ?d ?e ?f ?w0 = Ok ?w1,
    H : keeps_default ?b ?w0 |- _ =>
      pose proof (keeps_default_capture b (MultiTouch a a' c d e f) w0 w1 E H);
      clear E
  end.

Lemma pointerInput_keeps_default base engine p w w' :
  _pointerInput engine p w = Ok w' →
  keeps_default base w → keeps_default base w'.
Proof.
  unfold _pointerInput. intros Hr Hk.
  destruct (Engine.isInVRExclusivePointerMode engine);
    [by injection Hr as <-|].
  destruct (negb _ && negb _); [by injection Hr as <-|].
  cbv zeta in Hr.
  match type of Hr with
  | context [with_this (Controller.set_keys ?a ?b ?c ?d ?e) w] =>
      set (wk := with_this (Controller.set_keys a b c d e) w) in Hr
  end.
  assert (Hkk : keeps_default base wk) by exact Hk.
  clearbody wk. clear w Hk.
  destruct (Engine.isPointerLock engine).
  { destruct (_addEventsTouch _ _ _ wk) as [w1|] eqn:E; [|done].
    simpl in Hr. injection Hr as <-. keep_grow. done. }
  destruct (bool_decide (PointerInfo.type p = POINTERDOWN) && _).
  { set (we := emit _ wk) in Hr.
    assert (Hke : keeps_default base we) by (by apply keeps_default_emit).
    clearbody we.
    match type of Hr with
    | mbind _ (_addEventsButtonDown _ ?w0) = _ => set (wd := w0) in Hr
    end.
    assert (Hkd : keeps_default base wd).
    { subst wd.
      destruct (Controller._pointA (this we));
        destruct (Controller._pointB (this we)); exact Hke. }
    clearbody wd.
    destruct (_addEventsButtonDown _ wd) as [w1|] eqn:E; [|done].
    simpl in Hr. keep_grow.
    match goal with H : keeps_default base w1 |- _ =>
      rewrite (proj1 H) in Hr end.
    simpl in Hr. by injection Hr as <-. }
  destruct (bool_decide (PointerInfo.type p = POINTERDOUBLETAP)).
  { keep_grow. done. }
  destruct (bool_decide (PointerInfo.type p = POINTERUP) && _).
  { set (we := emit _ wk) in Hr.
    assert (Hke : keeps_default base we) by (by apply keeps_default_emit).
    clearbody we.
    destruct (release_point engine _ we) as [w1|] eqn:Hrel; [|done].
    simpl in Hr.
    pose proof (keeps_default_release base _ _ _ _ Hrel Hke) as Hk1.
    clear Hrel.
    match type of Hr with
    | mbind _ ?r = _ => destruct r as [w2|] eqn:E2; [|done]
    end.
    assert (Hk2 : keeps_default base w2).
    { destruct (_ || _).
      - destruct (_addEventsMultiTouch _ _ _ _ _ _ w1) as [wm|] eqn:Em;
          [|done].
        simpl in E2. injection E2 as <-. keep_grow. done.
      - by injection E2 as <-. }
    clear E2. simpl in Hr.
    destruct (_addEventsButtonUp _ w2) as [w3|] eqn:E3; [|done].
    simpl in Hr. keep_grow.
    match goal with H : keeps_default base w3 |- _ =>
      rewrite (proj1 H) in Hr end.
    simpl in Hr. by injection Hr as <-. }
  destruct (bool_decide (PointerInfo.type p = POINTERMOVE));
    [|by injection Hr as <-].
  rewrite (proj1 Hkk) in Hr. simpl in Hr.
  destruct (Controller._pointA (this wk)) as [a|];
    [destruct (Controller._pointB (this wk)) as [b|]|];
    [| |by injection Hr as <-].
  - destruct_run Hr; destruct_binds;
      match goal with
      | E : _addEventsMultiTouch _ _ _ _ _ _ ?w0 = Ok _ |- _ =>
          assert (keeps_default base w0) by exact Hkk
      end; keep_grow; done.
  - destruct_binds.
    match goal with
    | E : _addEventsTouch _ _ _ ?w0 = Ok _ |- _ =>
        assert (keeps_default base w0) by exact Hkk
    end. keep_grow. done.
Qed.

(** X14.  With [noPreventDefault] set, no notification makes the controller
    call [preventDefault] on the event or [focus] on the element. *)
Theorem noPreventDefault_is_honoured (engine : Engine.t)
    (p : PointerInfo.t) (w : World) :
  reachable w → Scope.noPreventDefault (scope w) = true →
  ∃ w', _pointerInput engine p w = Ok w' ∧
        Scope.noPreventDefault (scope w') = true ∧
        filter is_default_call (since (log w) w') = [].
Proof.
  intros Hr Hn.
  destruct (reachable_pointerInput engine p w Hr) as (w' & Hp & _).
  assert (Hk : keeps_default (log w) w).
  { split; [done|]. exists []. by rewrite app_nil_r. }
  destruct (pointerInput_keeps_default _ _ _ _ _ Hp Hk) as (Hn' & l & Hl & Hf).
  exists w'. split_and!; [done|done|].
  by rewrite (since_app _ _ _ Hl).
Qed.

(** *** [detachControl] *)

Lemma Inv_detach a w : Inv (detachControl a w).2 [].
Proof.
  unfold detachControl. destruct (Attachment._observer a); simpl;
    constructor; simpl; try apply rb_wf_clear; done.
Qed.

(** X15.  [detachControl] throws away whatever is queued: the next drain calls
    nothing, and the frames after it dispatch their own events only, as after
    [attachControl]. It resets the modifier keys, leaves the tracked contacts
    and the previous-pinch state as they are, and calls no handler; detaching
    again changes nothing in the controller. *)
Theorem detach_discards_queue (a : Attachment.t) (w : World) :
  let w' := (detachControl a w).2 in
  checkInputs w' = Some (Ok w') ∧
  log w' = log w ∧
  (Controller._altKey (this w'), Controller._ctrlKey (this w'),
   Controller._metaKey (this w'), Controller._shiftKey (this w'),
   Controller._buttonsPressed (this w'))
  = (false, false, false, false, 0%Z) ∧
  (Controller._pointA (this w'), Controller._pointB (this w'))
  = (Controller._pointA (this w), Controller._pointB (this w)) ∧
  previous (this w') = previous (this w) ∧
  scope w' = scope w ∧ heap w' = heap w ∧
  Attachment._observer (detachControl a w).1.1 = false ∧
  (detachControl (detachControl a w).1.1 w').2 = w' ∧
  (∀ fs, deferred w →
         Forall (λ cs, length cs - merges cs ≤ RB._maxSize) fs →
         ∃ w'', frames fs w' = Some w'' ∧
                omap handler_kind (since (log w') w'')
                = (fs ≫= λ cs, kind_of <$> unmerged cs)).
Proof.
  intros w'. pose proof (Inv_detach a w) as HI. fold w' in HI.
  assert (Hw' : w' = (detachControl (Attachment.Build false false false None)
                        w).2).
  { subst w'. unfold detachControl.
    by destruct (Attachment._onLostFocus a && _),
         (Attachment._observer a). }
  split_and!.
  - unfold checkInputs, RB.length.
    rewrite (inv_all_length w' [] HI). simpl. unfold RB.length.
    by rewrite (inv_all_length w' [] HI).
  - by rewrite Hw'.
  - by rewrite Hw'.
  - by rewrite Hw'.
  - by rewrite Hw'.
  - by rewrite Hw'.
  - by rewrite Hw'.
  - unfold detachControl.
    by destruct (Attachment._onLostFocus a && _),
         (Attachment._observer a) eqn:E.
  - rewrite Hw'. unfold detachControl.
    by destruct (Attachment._onLostFocus _ && _),
         (Attachment._observer _).
  - intros fs Hd Hfs.
    destruct (frames_refine fs w' HI) as (w'' & l & Hf & _ & Hl & Hh & _);
      [by rewrite Hw'|done|].
    exists w''. by rewrite (since_app _ _ _ Hl).
Qed.

(** *** The further theorems on sample runs *)

Lemma reachable_sample_ring : rb_reachable sample_ring.
Proof. apply reach_pop, reach_push, reach_push, reach_new. Qed.

Lemma reachable_mid_drag : reachable mid_drag.
Proof. apply reachable_after, reach_attach. Qed.

Lemma Inv_dragging : Inv dragging [].
Proof.
  constructor; try reflexivity;
    vm_compute; (split_and!; [lia..|intros ?; first [reflexivity|lia]]).
Qed.

(** X1 on a sample run. *)
Lemma ring_storage_policy_witness :
  rb_reachable sample_ring ∧
  length (RB._container sample_ring) ≤ RB._maxSize ∧
  RB._container (RB.pop sample_ring).2 = RB._container sample_ring.
Proof.
  assert (Hr := reachable_sample_ring).
  split; [exact Hr|].
  destruct (ring_storage_policy sample_ring Hr) as (_ & Hb & _ & Hp).
  split; [exact Hb|exact Hp].
Defined.

(** X2 on a sample run. *)
Lemma ring_fifo_witness :
  rb_reachable sample_ring ∧
  RB.length sample_ring + length (take 3 sample_items) ≤ RB._maxSize ∧
  ∃ rb',
    rb_push_items (take 3 sample_items) sample_ring = Ok rb' ∧
    RB.length rb' = RB.length sample_ring + length (take 3 sample_items) ∧
    (rb_pop_n (RB.length rb') rb').1
    = (rb_pop_n (RB.length sample_ring) sample_ring).1
        ++ (Some <$> take 3 sample_items) ∧
    (RB.pop (rb_pop_n (RB.length rb') rb').2).1 = None.
Proof.
  assert (Hr := reachable_sample_ring).
  assert (Hl : RB.length sample_ring + length (take 3 sample_items)
               ≤ RB._maxSize) by (vm_compute; lia).
  split_and!; [exact Hr|exact Hl|].
  exact (ring_fifo sample_ring (take 3 sample_items) Hr Hl).
Defined.

(** X3 on a sample run. *)
Lemma pushed_is_newest_witness :
  rb_reachable sample_ring ∧ 0 < RB.length sample_ring ∧
  ∃ v, RB.get_pushed sample_ring = Ok v ∧
       last (rb_pop_n (RB.length sample_ring) sample_ring).1 = Some (Some v).
Proof.
  assert (Hr := reachable_sample_ring).
  assert (Hl : 0 < RB.length sample_ring) by (vm_compute; lia).
  split_and!; [exact Hr|exact Hl|].
  exact (pushed_is_newest sample_ring Hr Hl).
Defined.

(** X4 on a sample run. *)
Lemma immediate_calls_handlers_witness :
  immediate (with_defferCallback false (attachControl false None)) ∧
  ∃ w', captures sample_frame
          (with_defferCallback false (attachControl false None)) = Ok w' ∧
        log w' = call_of <$> sample_frame.
Proof.
  split; [reflexivity|].
  destruct (immediate_calls_handlers
              (with_defferCallback false (attachControl false None))
              sample_frame eq_refl) as (w' & Hc & _ & Hl & _).
  exists w'. split; [exact Hc|exact Hl].
Defined.

(** X5 on a sample run. *)
Lemma drain_records_last_pinch_witness :
  tags_defined queued_pinches ∧
  ∃ w' l, checkInputs queued_pinches = Some (Ok w') ∧
          log w' = log queued_pinches ++ l ∧
          previous (this w')
          = default (previous (this queued_pinches)) (last_multiTouch l).
Proof.
  assert (Ht : tags_defined queued_pinches).
  { vm_compute. constructor; [by eexists|constructor]. }
  split; [exact Ht|].
  exact (drain_records_last_pinch queued_pinches Ht).
Defined.

(** X6 on a sample run. *)
Lemma notifications_always_taken_witness :
  reachable mid_pinch ∧
  ∃ w' w'', inputs sample_moves mid_pinch = Ok w' ∧
            checkInputs w' = Some (Ok w'') ∧ reachable w''.
Proof.
  assert (Hr := reachable_mid_pinch).
  split; [exact Hr|].
  exact (notifications_always_taken mid_pinch sample_moves Hr).
Defined.

(** X7 on a sample run. *)
Lemma secondary_contact_beside_primary_witness :
  reachable mid_pinch ∧
  Controller._pointB (this mid_pinch) = Some 1 ∧
  ∃ a, Controller._pointA (this mid_pinch) = Some a ∧ a ≠ 1.
Proof.
  assert (Hr := reachable_mid_pinch).
  assert (HB : Controller._pointB (this mid_pinch) = Some 1)
    by (vm_compute; reflexivity).
  split_and!; [exact Hr|exact HB|].
  exact (proj2 (proj2 (secondary_contact_beside_primary mid_pinch Hr) 1 HB)).
Defined.

(** X8 on a sample run. *)
Lemma buttonUp_ends_drag_witness :
  reachable mid_drag ∧ is_buttonUp unlocked mouse_up mid_drag ∧
  ∃ w', _pointerInput unlocked mouse_up mid_drag = Ok w' ∧
        Controller._pointA (this w') = None ∧
        Controller._pointB (this w') = None.
Proof.
  assert (Hr := reachable_mid_drag).
  assert (Hup : is_buttonUp unlocked mouse_up mid_drag).
  { split_and!; try reflexivity.
    - apply (bool_decide_unpack
               (PointerEvent.button (PointerInfo.event mouse_up)
                ∈ Controller.buttons (this mid_drag))).
      vm_compute. exact I.
    - left. by eexists. }
  split_and!; [exact Hr|exact Hup|].
  destruct (buttonUp_ends_drag unlocked mouse_up mid_drag Hr Hup)
    as (w' & Hp & HB & Hmouse).
  exists w'. split_and!; [exact Hp| |exact HB].
  apply Hmouse. discriminate.
Defined.

(** X9 on a sample run. *)
Lemma drag_delivers_displacement_witness :
  Inv dragging [] ∧ deferred dragging ∧
  Controller._pointA (this dragging) = Some 0 ∧
  Controller._pointB (this dragging) = None ∧
  heap dragging !! 0
  = Some (PointerTouch.Build (num 100) (num 200) 1
            (PointerTouch.OfPointerType "mouse")) ∧
  Forall is_drag_move sample_moves ∧
  ∃ w1 w2,
    inputs sample_moves dragging = Ok w1 ∧
    checkInputs w1 = Some (Ok w2) ∧
    filter is_onTouch (since (log dragging) w2)
    = [onTouch (Some 0) (num 2) (num 0)] ∧
    heap w2 !! 0
    = Some (PointerTouch.Build (num 102) (num 200) 1
              (PointerTouch.OfPointerType "mouse")).
Proof.
  assert (HI := Inv_dragging).
  assert (Hd : deferred dragging) by (vm_compute; reflexivity).
  assert (HA : Controller._pointA (this dragging) = Some 0)
    by (vm_compute; reflexivity).
  assert (HB : Controller._pointB (this dragging) = None)
    by (vm_compute; reflexivity).
  assert (Hpt : heap dragging !! 0
                = Some (PointerTouch.Build (num 100) (num 200) 1
                          (PointerTouch.OfPointerType "mouse")))
    by (vm_compute; reflexivity).
  assert (Hm : Forall is_drag_move sample_moves).
  { repeat (constructor; [by split_and!|]). constructor. }
  split_and!; [exact HI|exact Hd|exact HA|exact HB|exact Hpt|exact Hm|].
  exact (proj1 (drag_delivers_displacement dragging 0 _ _ _
                  HI Hd HA HB Hpt Hm)).
Defined.

(** X13 on a sample run. *)
Lemma frames_dispatch_in_order_witness :
  Inv (attachControl false None) [] ∧ deferred (attachControl false None) ∧
  Forall (λ cs, length cs - merges cs ≤ RB._maxSize)
    [sample_frame; touch_of <$> sample_touches] ∧
  ∃ w', frames [sample_frame; touch_of <$> sample_touches]
          (attachControl false None) = Some w' ∧
        omap handler_kind (since (log (attachControl false None)) w')
        = [ButtonDownBuffer; TouchBuffer; ButtonDownBuffer; ButtonUpBuffer;
           TouchBuffer].
Proof.
  assert (HI := Inv_attach false None).
  assert (Hf : Forall (λ cs, length cs - merges cs ≤ RB._maxSize)
                 [sample_frame; touch_of <$> sample_touches]).
  { repeat (constructor; [vm_compute; lia|]). constructor. }
  split_and!; [exact HI|reflexivity|exact Hf|].
  destruct (frames_dispatch_in_order _ _ HI eq_refl Hf)
    as (w' & Hfs & Hh & _).
  exists w'. split; [exact Hfs|exact Hh].
Defined.

(** X14 on a sample run. *)
Lemma noPreventDefault_is_honoured_witness :
  reachable (attachControl true (Some "canvas")) ∧
  Scope.noPreventDefault (scope (attachControl true (Some "canvas"))) = true ∧
  ∃ w', _pointerInput unlocked
          (PointerInfo.Build POINTERDOWN (sample_event "mouse" 1 0 100 200))
          (attachControl true (Some "canvas")) = Ok w' ∧
        filter is_default_call
          (since (log (attachControl true (Some "canvas"))) w') = [].
Proof.
  assert (Hr : reachable (attachControl true (Some "canvas")))
    by apply reach_attach.
  split_and!; [exact Hr|reflexivity|].
  destruct (noPreventDefault_is_honoured unlocked
              (PointerInfo.Build POINTERDOWN
                 (sample_event "mouse" 1 0 100 200))
              (attachControl true (Some "canvas")) Hr eq_refl)
    as (w' & Hp & _ & Hf).
  exists w'. split; [exact Hp|exact Hf].
Defined.

(** X11 on a sample run. *)
Lemma pinch_move_measures_witness :
  reachable mid_pinch ∧ is_drag_move (unlocked, finger_move) ∧
  Controller._pointA (this mid_pinch) = Some 0 ∧
  Controller._pointB (this mid_pinch) = Some 1 ∧
  heap mid_pinch !! 0
  = Some (PointerTouch.Build (num 101) (num 200) 1
            (PointerTouch.OfPointerType "touch")) ∧
  heap mid_pinch !! 1
  = Some (PointerTouch.Build (num 300) (num 400) 2
            (PointerTouch.OfPointerType "touch")) ∧
  ∃ w', _pointerInput unlocked finger_move mid_pinch = Ok w' ∧
        Scope.previousMultiTouchPanPosition (scope w')
        = Some (length (heap mid_pinch)).
Proof.
  assert (Hr := reachable_mid_pinch).
  assert (Hm : is_drag_move (unlocked, finger_move)) by (by split_and!).
  assert (HA : Controller._pointA (this mid_pinch) = Some 0)
    by (vm_compute; reflexivity).
  assert (HB : Controller._pointB (this mid_pinch) = Some 1)
    by (vm_compute; reflexivity).
  assert (Hpa : heap mid_pinch !! 0
                = Some (PointerTouch.Build (num 101) (num 200) 1
                          (PointerTouch.OfPointerType "touch")))
    by (vm_compute; reflexivity).
  assert (Hpb : heap mid_pinch !! 1
                = Some (PointerTouch.Build (num 300) (num 400) 2
                          (PointerTouch.OfPointerType "touch")))
    by (vm_compute; reflexivity).
  split_and!; [exact Hr|exact Hm|exact HA|exact HB|exact Hpa|exact Hpb|].
  destruct (pinch_move_measures unlocked finger_move mid_pinch 0 1 _ _
              Hr Hm HA HB Hpa Hpb)
    as (w' & Hp & _ & _ & _ & _ & Hpan & _).
  exists w'. split; [exact Hp|exact Hpan].
Defined.

(** X10 on a sample run. *)
Lemma locked_moves_deliver_movement_witness :
  Inv (attachControl false None) [] ∧ deferred (attachControl false None) ∧
  Forall is_locked_move [(locked, relative_move); (locked, relative_move)] ∧
  ∃ w1 w2,
    inputs [(locked, relative_move); (locked, relative_move)]
      (attachControl false None) = Ok w1 ∧
    checkInputs w1 = Some (Ok w2) ∧
    Controller._pointA (this w2) = None.
Proof.
  assert (HI := Inv_attach false None).
  assert (Hm : Forall is_locked_move
                 [(locked, relative_move); (locked, relative_move)]).
  { repeat (constructor; [by split_and!|]). constructor. }
  split_and!; [exact HI|reflexivity|exact Hm|].
  destruct (locked_moves_deliver_movement _ _ _ HI eq_refl Hm)
    as (w1 & w2 & Hi & Hc & _ & HA & _).
  exists w1, w2. split_and!; [exact Hi|exact Hc|exact HA].
Defined.
